(** * ol-mapbox-style: the style function of [stylefunction.js]

    A shallow embedding of the per-feature style function that
    ol-mapbox-style builds from a Mapbox Style document, and the
    properties of it that the specification states.

    Conventions of the embedding.
    - A JavaScript number is an exact rational ([Q]); comparisons are the
      ones of [QArith] ([Qeq_bool], [Qle_bool]), so that definitions run.
    - A JavaScript object used as a dictionary is a [gmap] with string keys.
    - [undefined] is [None] where a value is optional.
    - Mutable module state (the caches, the reused [styles] array) is
      threaded explicitly through the functions that touch it. *)

From Stdlib Require Import QArith Qround Ascii String DecimalString.
From stdpp Require Import gmap strings list fin_maps.

Local Open Scope string_scope.
Local Open Scope Q_scope.
Local Open Scope list_scope.

(** ** Numbers *)

Module Num.

(** [a < b] on JavaScript numbers. *)
Definition ltb (a b : Q) : bool := negb (Qle_bool b a).

(** [a > b]. *)
Definition gtb (a b : Q) : bool := ltb b a.

(** [a >= b]. *)
Definition geb (a b : Q) : bool := Qle_bool b a.

(** [a === b] on numbers. *)
Definition eqb (a b : Q) : bool := Qeq_bool a b.

(** [Math.round]: the nearest integer, halves rounded towards plus
    infinity. *)
Definition round (x : Q) : Z := Qfloor (x + (1 # 2)).

End Num.

(** ** Colours ([colorWithOpacity]) *)

(** A parsed colour of the style specification: premultiplied channels
    [r], [g], [b] and the alpha [a], all between 0 and 1. *)
Record Color := { r : Q; g : Q; b : Q; a : Q }.

(** The CSS string ['rgba(R,G,B,A)'] that [colorWithOpacity] builds, kept
    as its four components. *)
Record Rgba := { red : Z; green : Z; blue : Z; alpha : Q }.

Definition Rgba_eqb (x y : Rgba) : bool :=
  Z.eqb (red x) (red y) && Z.eqb (green x) (green y) &&
  Z.eqb (blue x) (blue y) && Qeq_bool (alpha x) (alpha y).

(** [color] is [None] for an [undefined] colour, [opacity] is [None] for an
    [undefined] opacity. The result is [None] for [undefined]. *)
Definition colorWithOpacity (color : option Color) (opacity : option Q)
  : option Rgba :=
  match color with
  | Some c =>
      if Num.eqb (a c) 0 || match opacity with
                            | Some o => Num.eqb o 0
                            | None => false
                            end
      then None
      else
        let a := a c in
        let opacity := match opacity with None => 1 | Some o => o end in
        Some {| red := Num.round (r c * 255 / a);
                green := Num.round (g c * 255 / a);
                blue := Num.round (b c * 255 / a);
                alpha := a * opacity |}
  | None => None
  end.

(** ** JavaScript values *)

(** Text is a sequence of UTF-16 code units, as [String.prototype.split]
    and the regular expressions of the source see it. Names that the source
    only ever compares with literals of its own (property names, layer ids
    and types) stay Rocq strings. *)
Abbreviation jsstring := (list N).

(** The code units of an ASCII literal. *)
Fixpoint str (s : string) : jsstring :=
  match s with
  | EmptyString => []
  | String c s' => N_of_ascii c :: str s'
  end.

Definition jsstring_eqb (x y : jsstring) : bool := bool_decide (x = y).

#[warnings="-register-all"]
Inductive Value :=
| VUndefined
| VNull
| VBool (b : bool)
| VNum (q : Q)
| VStr (s : jsstring)
| VColor (c : Color)
| VArr (l : list Value).

(** Truthiness, as [if (v)], [!v] and [v || w] test it. *)
Definition truthy (v : Value) : bool :=
  match v with
  | VUndefined | VNull => false
  | VBool b => b
  | VNum q => negb (Num.eqb q 0)
  | VStr s => negb (jsstring_eqb s [])
  | VColor _ | VArr _ => true
  end.

(** [v === 'literal'] *)
Definition is_str (v : Value) (lit : string) : bool :=
  match v with
  | VStr s => jsstring_eqb s (str lit)
  | _ => false
  end.

(** ** Icon anchors ([covertIconAnchor]) *)

Record IconAnchor := {
  anchorOffset : Q * Q;
  iconAnchor : Value
}.

(** The array's [indexOf(iconAnchor) > -1], which compares with [===]. *)
Definition is_corner_anchor (a : Value) : bool :=
  existsb (is_str a) ["top-left"; "top-right"; "bottom-left"; "bottom-right"].

(** The five [if] statements of the source run in sequence, each one on
    the anchor name as the previous ones left it. *)
Definition covertIconAnchor (iconAnchor0 : Value) : IconAnchor :=
  let r0 := {| anchorOffset := (1 # 2, 1 # 2); iconAnchor := iconAnchor0 |} in
  let r1 := if is_corner_anchor (iconAnchor r0)
            then {| anchorOffset := (0, 0); iconAnchor := iconAnchor r0 |}
            else r0 in
  let r2 := if is_str (iconAnchor r1) "left"
            then {| anchorOffset := (0, 1 # 2);
                    iconAnchor := VStr (str "top-left") |}
            else r1 in
  let r3 := if is_str (iconAnchor r2) "right"
            then {| anchorOffset := (1, 1 # 2);
                    iconAnchor := VStr (str "top-left") |}
            else r2 in
  let r4 := if is_str (iconAnchor r3) "bottom"
            then {| anchorOffset := (1 # 2, 1);
                    iconAnchor := VStr (str "top-left") |}
            else r3 in
  let r5 := if is_str (iconAnchor r4) "top"
            then {| anchorOffset := (1 # 2, 0);
                    iconAnchor := VStr (str "top-left") |}
            else r4 in
  r5.

(** Feature properties, [feature.getProperties()]. *)
Abbreviation Props := (gmap jsstring Value).

(** The object [f = {properties, type}] that expressions and filters see.
    [fv_type] is [None] when the geometry type is not in [types]. *)
Record FeatureView := {
  fv_properties : Props;
  fv_type : option nat
}.

(** What is passed as the feature argument of a compiled expression: the
    view [f] or, at one call site, the bare [properties] object. *)
Inductive FeatureArg :=
| ArgView (f : FeatureView)
| ArgProps (p : Props).

(** A compiled expression: a function of [zoomObj.zoom] and the feature.
    [zoomObj] is one shared object whose [zoom] field is written just
    before each call, so the evaluator reads the zoom of that call. *)
Definition Evaluator := Q -> FeatureArg -> Value.

(** Outcome of [createPropertyExpression] (after [convertFunction] for a
    legacy function): the compiled evaluator, or the aggregated message
    that [expressionData] throws. *)
Inductive CompileResult :=
| Compiled (evaluate : Evaluator)
| CompileError (message : string).

(** A raw property value of a layer, classified as [getValue] does:
    [isExpression], else [isFunction], else a literal. Compilation is the
    work of the style-spec library; a raw expression or function carries
    what the library makes of it. *)
Inductive RawValue :=
| Literal (v : Value)
| Expression (compiled : CompileResult)
| Function (compiled : CompileResult).

(** A compiled filter, [createFilter(filter).filter], or the error that
    [createFilter] throws. *)
Inductive FilterResult :=
| FilterFn (test : Q -> FeatureView -> Value)
| FilterError (message : string).

(** ** Layers of the style document *)

Record Layer := {
  layer_id : string;
  layer_type : string;
  layer_source : option string;
  layer_source_layer : option jsstring;
  layer_minzoom : option Q;
  layer_maxzoom : option Q;
  layer_layout : option (gmap string RawValue);
  layer_paint : option (gmap string RawValue);
  layer_filter : option FilterResult
}.

(** The style document: its [version] and its [layers]. *)
Record GlStyle := {
  version : Value;
  layers : list Layer
}.

Inductive Bag := layout_bag | paint_bag.

Definition bag_name (bg : Bag) : string :=
  match bg with layout_bag => "layout" | paint_bag => "paint" end.

(** [layer[layoutOrPaint] || emptyObj] *)
Definition bag_of (layer : Layer) (bg : Bag) : gmap string RawValue :=
  match bg with
  | layout_bag => default ∅ (layer_layout layer)
  | paint_bag => default ∅ (layer_paint layer)
  end.

(** [property in bag] *)
Definition has_key (bag : gmap string RawValue) (property : string) : bool :=
  bool_decide (is_Some (bag !! property)).

(** An entry of the style specification, [spec[...][property]]. *)
Record PropertySpec := {
  spec_default : Value;
  spec_type : string
}.

(** ** The environment: what the style function imports *)

(** The style specification ([latest]), the colour parser, the canvas
    text measurement, the font-string builder and the string primitives of
    the language are code of other packages. The embedding takes them as
    one record, so that every definition below runs on a concrete
    environment. *)
Record Env := {
  (** [spec[`${layoutOrPaint}_${layer.type}`]], keyed by that name. *)
  spec_latest : gmap string (gmap string PropertySpec);
  (** [Color.parse(value)]: a [VColor] or [VUndefined]. *)
  Color_parse : Value -> Value;
  (** [Number(string)]; [None] is [NaN]. *)
  StringToNumber : jsstring -> option Q;
  (** The string that [+] concatenates for a value. *)
  ToString : Value -> jsstring;
  (** [ctx.font = font; ctx.measureText(text).width] *)
  measureText : jsstring -> jsstring -> Q;
  (** [mb2css(font, size)] *)
  mb2css : Value -> Value -> jsstring;
  (** [getZoomForResolution(resolution, resolutions)] of [./util]. *)
  getZoomForResolution : Q -> list Q -> Q;
  toUpperCase : jsstring -> jsstring;
  toLowerCase : jsstring -> jsstring;
  (** [JSON.parse(text)]; [None] when it throws. *)
  JSON_parse : jsstring -> option GlStyle;
  (** [derefLayers(layers)] of the style-spec library. *)
  derefLayers : list Layer -> list Layer
}.

(** ** Drawable styles of the renderer *)

(** A colour as a fill or stroke holds it: a CSS string or a canvas
    pattern, which is an object and is named by its address. *)
Inductive Paint :=
| Css (c : Rgba)
| Pattern (address : nat).

Record Fill := { fill_color : option Paint }.

Record Stroke := {
  stroke_color : option Paint;
  stroke_width : option Q;
  stroke_lineCap : option Value;
  stroke_lineJoin : option Value;
  stroke_miterLimit : option Value;
  stroke_lineDash : option (list Q)
}.

(** [new Stroke()] *)
Definition new_Stroke : Stroke :=
  {| stroke_color := None; stroke_width := None; stroke_lineCap := None;
     stroke_lineJoin := None; stroke_miterLimit := None;
     stroke_lineDash := None |}.

(** A text style. Angles stay in degrees: [deg2rad] of [./util] is applied
    by the renderer's side of the model. [text_maxAngle] keeps the three
    operands of [deg2rad(angle) * label.length / wrappedLabel.length]. *)
Record Text := {
  text_text : option jsstring;
  text_font : option jsstring;
  text_rotation : option Q;
  text_placement : option Value;
  text_textAlign : option string;
  text_maxAngle : option (Q * nat * nat);
  text_textBaseline : option string;
  text_offsetX : option Q;
  text_offsetY : option Q;
  text_fill : option Fill;
  text_stroke : option Stroke
}.

(** [new Text()] *)
Definition new_Text : Text :=
  {| text_text := None; text_font := None; text_rotation := None;
     text_placement := None; text_textAlign := None; text_maxAngle := None;
     text_textBaseline := None; text_offsetX := None; text_offsetY := None;
     text_fill := None; text_stroke := None |}.

(** Images are objects that the icon cache shares between styles and that
    the style function mutates ([setRotation], [setOpacity]): they live in
    a heap and styles hold their address. *)
Inductive Image :=
| Icon (sprite : jsstring) (recolored : bool) (anchorOrigin : Value)
       (anchor : Q * Q) (imgSize : Q * Q) (scale : Q)
       (rotation : option Q) (opacity : option Value)
| Circle (radius : Q) (stroke : option Stroke) (fill : Fill)
| CanvasPattern (sprite : jsstring) (globalAlpha : Value).

(** A style of the renderer. *)
Record Style := {
  style_fill : option Fill;
  style_stroke : option Stroke;
  style_image : option nat;
  style_text : option Text;
  style_geometry : option (Q * Q);
  style_zIndex : option Q
}.

(** [new Style({fill: ..., stroke: ...})] *)
Definition new_Style (fill : option Fill) (stroke : option Stroke) : Style :=
  {| style_fill := fill; style_stroke := stroke; style_image := None;
     style_text := None; style_geometry := None; style_zIndex := None |}.

(** An entry of the sprite atlas. *)
Record SpriteImageData := {
  sprite_x : Q; sprite_y : Q;
  sprite_width : Q; sprite_height : Q;
  sprite_pixelRatio : Q
}.

(** ** State *)

(** The mutable state that a call can read or write: the module-level
    caches ([functionCache], [filterCache], [fontMap]), the caches and the
    reused [styles] array of one style function, the renderer's heap of
    images and patterns, and the [styleIds] of the feature at hand. *)
Record State := {
  functionCache : gmap string (gmap string Evaluator);
  filterCache : gmap string (Q -> FeatureView -> Value);
  fontMap : gmap jsstring Value;
  measureCache : gmap jsstring jsstring;
  iconImageCache : gmap jsstring nat;
  patternCache : gmap jsstring nat;
  styles : list (option Style);
  heap : gmap nat Image;
  next_address : nat;
  styleIds : gmap jsstring (list string)
}.

Definition set_functionCache (v : gmap string (gmap string Evaluator))
    (s : State) : State :=
  {| functionCache := v; filterCache := filterCache s; fontMap := fontMap s;
     measureCache := measureCache s; iconImageCache := iconImageCache s;
     patternCache := patternCache s; styles := styles s; heap := heap s;
     next_address := next_address s; styleIds := styleIds s |}.

Definition set_filterCache (v : gmap string (Q -> FeatureView -> Value))
    (s : State) : State :=
  {| functionCache := functionCache s; filterCache := v; fontMap := fontMap s;
     measureCache := measureCache s; iconImageCache := iconImageCache s;
     patternCache := patternCache s; styles := styles s; heap := heap s;
     next_address := next_address s; styleIds := styleIds s |}.

Definition set_fontMap (v : gmap jsstring Value) (s : State) : State :=
  {| functionCache := functionCache s; filterCache := filterCache s;
     fontMap := v;
     measureCache := measureCache s; iconImageCache := iconImageCache s;
     patternCache := patternCache s; styles := styles s; heap := heap s;
     next_address := next_address s; styleIds := styleIds s |}.

Definition set_measureCache (v : gmap jsstring jsstring) (s : State) : State :=
  {| functionCache := functionCache s; filterCache := filterCache s;
     fontMap := fontMap s; measureCache := v;
     iconImageCache := iconImageCache s;
     patternCache := patternCache s; styles := styles s; heap := heap s;
     next_address := next_address s; styleIds := styleIds s |}.

Definition set_iconImageCache (v : gmap jsstring nat) (s : State) : State :=
  {| functionCache := functionCache s; filterCache := filterCache s;
     fontMap := fontMap s; measureCache := measureCache s;
     iconImageCache := v;
     patternCache := patternCache s; styles := styles s; heap := heap s;
     next_address := next_address s; styleIds := styleIds s |}.

Definition set_patternCache (v : gmap jsstring nat) (s : State) : State :=
  {| functionCache := functionCache s; filterCache := filterCache s;
     fontMap := fontMap s; measureCache := measureCache s;
     iconImageCache := iconImageCache s; patternCache := v;
     styles := styles s; heap := heap s;
     next_address := next_address s; styleIds := styleIds s |}.

Definition set_styles (v : list (option Style)) (s : State) : State :=
  {| functionCache := functionCache s; filterCache := filterCache s;
     fontMap := fontMap s; measureCache := measureCache s;
     iconImageCache := iconImageCache s; patternCache := patternCache s;
     styles := v; heap := heap s;
     next_address := next_address s; styleIds := styleIds s |}.

Definition set_heap (v : gmap nat Image) (n : nat) (s : State) : State :=
  {| functionCache := functionCache s; filterCache := filterCache s;
     fontMap := fontMap s; measureCache := measureCache s;
     iconImageCache := iconImageCache s; patternCache := patternCache s;
     styles := styles s; heap := v; next_address := n;
     styleIds := styleIds s |}.

Definition set_styleIds (v : gmap jsstring (list string)) (s : State) : State :=
  {| functionCache := functionCache s; filterCache := filterCache s;
     fontMap := fontMap s; measureCache := measureCache s;
     iconImageCache := iconImageCache s; patternCache := patternCache s;
     styles := styles s; heap := heap s;
     next_address := next_address s; styleIds := v |}.

(** ** Computations *)

(** How a call ends: with a value, with a thrown error, outside the typed
    fragment (a resolved property value does not have the type that the
    style specification gives the property, where JavaScript would go on
    with [NaN] or a coerced string), or without an end within the fuel. *)
Inductive Outcome (A : Type) :=
| Ok (a : A)
| Throw (message : string)
| Untyped
| Diverges.
Arguments Ok {A} a.
Arguments Throw {A} message.
Arguments Untyped {A}.
Arguments Diverges {A}.

(** A computation reads and writes the state; what it wrote before a
    [throw] stays written. *)
Definition M (A : Type) := State -> Outcome A * State.

Definition ret {A} (a : A) : M A := fun s => (Ok a, s).

Definition bind {A B} (m : M A) (k : A -> M B) : M B :=
  fun s =>
    match m s with
    | (Ok a, s') => k a s'
    | (Throw e, s') => (Throw e, s')
    | (Untyped, s') => (Untyped, s')
    | (Diverges, s') => (Diverges, s')
    end.

Definition throw {A} (message : string) : M A := fun s => (Throw message, s).
Definition untyped {A} : M A := fun s => (Untyped, s).
Definition diverges {A} : M A := fun s => (Diverges, s).
Definition get_state : M State := fun s => (Ok s, s).
Definition modify (f : State -> State) : M unit := fun s => (Ok tt, f s).

Declare Scope M_scope.
Delimit Scope M_scope with M.
Notation "x <- m ;; k" := (bind m (fun x => k))
  (at level 100, m at next level, right associativity) : M_scope.
Notation "m ;;; k" := (bind m (fun _ => k))
  (at level 100, right associativity) : M_scope.
Local Open Scope M_scope.

(** [if (c) { m }] *)
Definition when (c : bool) (m : M unit) : M unit := if c then m else ret tt.

(** ** Property evaluation ([getValue]) and filters *)

Section StyleFunction.

Context (env : Env).

(** A resolved value used as a number, as a colour and as text. *)
Definition as_num (v : Value) : M Q :=
  match v with VNum q => ret q | _ => untyped end.

Definition as_color (v : Value) : M (option Color) :=
  match v with
  | VColor c => ret (Some c)
  | VUndefined | VNull => ret None
  | _ => untyped
  end.

Definition as_pair (v : Value) : M (Q * Q) :=
  match v with
  | VArr [VNum x; VNum y] => ret (x, y)
  | _ => untyped
  end.

(** The body of [if (!functions[property])]: the evaluator that a first
    access compiles and stores, or what it throws. A property without an
    entry in the specification makes the source read a field of
    [undefined]. *)
Definition compile_property (layer : Layer) (layoutOrPaint : Bag)
    (property : string) : Outcome Evaluator :=
  let value := bag_of layer layoutOrPaint !! property in
  match spec_latest env
          !! (bag_name layoutOrPaint +:+ "_" +:+ layer_type layer) with
  | None => Throw "TypeError"
  | Some table =>
      match table !! property, value with
      | Some propertySpec, None =>
          Ok (fun _ _ =>
                if String.eqb (spec_type propertySpec) "color"
                then Color_parse env (spec_default propertySpec)
                else spec_default propertySpec)
      | Some propertySpec, Some (Literal value) =>
          Ok (fun _ _ =>
                if String.eqb (spec_type propertySpec) "color"
                then Color_parse env value
                else value)
      | _, Some (Expression (Compiled evaluate)) => Ok evaluate
      | Some _, Some (Function (Compiled evaluate)) => Ok evaluate
      | _, Some (Expression (CompileError message)) => Throw message
      | Some _, Some (Function (CompileError message)) => Throw message
      | None, _ => Throw "TypeError"
      end
  end.

Definition getValue (layer : Layer) (layoutOrPaint : Bag) (property : string)
    (zoom : Q) (feature : FeatureArg) : M Value :=
  let layerId := layer_id layer in
  modify (fun s =>
    match functionCache s !! layerId with
    | None => set_functionCache (<[layerId := ∅]> (functionCache s)) s
    | Some _ => s
    end) ;;;
  s <- get_state ;;
  let functions := default ∅ (functionCache s !! layerId) in
  f <- match functions !! property with
       | Some f => ret f
       | None =>
           match compile_property layer layoutOrPaint property with
           | Ok f =>
               modify (set_functionCache
                         (<[layerId := <[property := f]> functions]>
                            (functionCache s))) ;;;
               ret f
           | Throw message => throw message
           | Untyped => untyped
           | Diverges => diverges
           end
       end ;;
  ret (f zoom feature).

(** What a call of [getValue] returns from a state, and the state that it
    leaves. *)
Definition resolve (layer : Layer) (layoutOrPaint : Bag) (property : string)
    (zoom : Q) (feature : FeatureArg) (s : State) : Outcome Value :=
  fst (getValue layer layoutOrPaint property zoom feature s).

Definition warm (layer : Layer) (layoutOrPaint : Bag) (property : string)
    (zoom : Q) (feature : FeatureArg) (s : State) : State :=
  snd (getValue layer layoutOrPaint property zoom feature s).

Definition evaluateFilter (layerId : string) (filter : FilterResult)
    (feature : FeatureView) (zoom : Q) : M Value :=
  s <- get_state ;;
  test <- match filterCache s !! layerId with
          | Some test => ret test
          | None =>
              match filter with
              | FilterFn test =>
                  modify (set_filterCache (<[layerId := test]> (filterCache s))) ;;;
                  ret test
              | FilterError message => throw message
              end
          end ;;
  ret (test zoom feature).

(** [fonts[i]] *)
Definition font_at (fonts : list Value) (i : nat) : Value :=
  default VUndefined (fonts !! i).

(** The [for] loop of [chooseFont]: the first font that is available. *)
Fixpoint first_available (fonts : list Value) (availableFonts : list Value)
  : option Value :=
  match fonts with
  | [] => None
  | font :: rest =>
      if existsb (fun a => match a, font with
                           | VStr x, VStr y => jsstring_eqb x y
                           | _, _ => false
                           end) availableFonts
      then Some font
      else first_available rest availableFonts
  end.

Definition chooseFont (fonts : Value) (availableFonts : option (list Value))
  : M Value :=
  s <- get_state ;;
  let key := ToString env fonts in
  let cached := default VUndefined (fontMap s !! key) in
  if truthy cached then ret cached else
  match fonts with
  | VArr l =>
      let font :=
        match availableFonts with
        | Some available =>
            let found := default cached (first_available l available) in
            if truthy found then found else font_at l (length l - 1)
        | None => font_at l 0
        end in
      modify (set_fontMap (<[key := font]> (fontMap s))) ;;; ret font
  | _ => untyped
  end.

(** ** Templates ([fromTemplate]) *)

Definition is_line_terminator (c : N) : bool :=
  bool_decide (c ∈ [10; 13; 8232; 8233]%N).

(** After an opening brace, the rest of [templateRegEx]: a greedy group
    of characters other than line terminators, a closing brace, and any
    text. The group ends at the last closing brace of the line. *)
Fixpoint match_close (s : jsstring) : option (jsstring * jsstring) :=
  match s with
  | [] => None
  | c :: rest =>
      if is_line_terminator c then None
      else match match_close rest with
           | Some (name, after) => Some (c :: name, after)
           | None => if (c =? 125)%N then Some ([], rest) else None
           end
  end.

(** [text.match(templateRegEx)]: the first group is greedy, so the brace
    that opens the placeholder is the last one that has a closing brace on
    its line. *)
Fixpoint match_template (s : jsstring)
  : option (jsstring * jsstring * jsstring) :=
  match s with
  | [] => None
  | c :: rest =>
      match match_template rest with
      | Some (before, name, after) => Some (c :: before, name, after)
      | None =>
          if (c =? 123)%N
          then match match_close rest with
               | Some (name, after) => Some ([], name, after)
               | None => None
               end
          else None
      end
  end.

(** The [do ... while (parts)] loop; [None] when the fuel runs out before
    the text is free of placeholders. *)
Fixpoint fromTemplate (fuel : nat) (text : jsstring) (properties : Props)
  : option jsstring :=
  match fuel with
  | O => None
  | S fuel' =>
      match match_template text with
      | Some (before, name, after) =>
          let value := default VUndefined (properties !! name) in
          let value := if truthy value then ToString env value else [] in
          fromTemplate fuel' (before ++ value ++ after) properties
      | None => Some text
      end
  end.

(** ** The text shaper ([wrapText]) *)

(** The test of [text] for a code unit from U+4E00 to U+9FA5. *)
Definition has_ideograph (text : jsstring) : bool :=
  existsb (fun c => (19968 <=? c)%N && (c <=? 40869)%N) text.

(** [text.split(' ')] *)
Fixpoint split_space (text : jsstring) : list jsstring :=
  match text with
  | [] => [[]]
  | c :: rest =>
      if (c =? 32)%N then [] :: split_space rest
      else match split_space rest with
           | word :: words => (c :: word) :: words
           | [] => [[c]]
           end
  end.

(** [lines.join] with a line feed. *)
Fixpoint join_lines (lines : list jsstring) : jsstring :=
  match lines with
  | [] => []
  | [line] => line
  | line :: rest => line ++ 10%N :: join_lines rest
  end.

Section Wrap.

(** [text => ctx.measureText(text).width], for the font set on [ctx]. *)
Variable measure : jsstring -> Q.

(** The [forEach] of [wrapChineseText]; [temp.join('')] is kept as the
    joined text. *)
Fixpoint wrapChinese_loop (maxWidth : Q) (splitText : jsstring)
    (temp : jsstring) (res : list jsstring) : list jsstring :=
  match splitText with
  | [] => res ++ [temp]
  | singleText :: rest =>
      let tempText := temp ++ [singleText] in
      if Num.gtb (measure tempText) maxWidth
      then wrapChinese_loop maxWidth rest [singleText] (res ++ [temp])
      else wrapChinese_loop maxWidth rest (temp ++ [singleText]) res
  end.

Definition wrapChineseText (text : jsstring) (maxWidth : Q) : list jsstring :=
  if Num.gtb (measure text) maxWidth
  then wrapChinese_loop maxWidth text [] []
  else [text].

(** The [for] loop of [wrapText] and the push of the last line. *)
Fixpoint wrap_loop (width : Q) (words : list jsstring) (line : jsstring)
    (lines : list jsstring) : list jsstring :=
  match words with
  | [] => if negb (jsstring_eqb line []) then lines ++ [line] else lines
  | word :: rest =>
      if Qle_bool (measure (line ++ word)) width
      then wrap_loop width rest
             (line ++ (if negb (jsstring_eqb line []) then [32%N] else [])
                   ++ word) lines
      else wrap_loop width rest word
             (if negb (jsstring_eqb line []) then lines ++ [line] else lines)
  end.

(** The words that [wrapText] packs. *)
Definition wrap_words (text : jsstring) (width : Q) : list jsstring :=
  if has_ideograph text then wrapChineseText text width
  else split_space text.

(** The lines of the wrapped text. *)
Definition wrap_lines (text : jsstring) (em : Q) : list jsstring :=
  let oneEm := measure [77%N] in
  let width := oneEm * em in
  wrap_loop width (wrap_words text width) [] [].

End Wrap.

Definition wrapText (text font : jsstring) (em : Q) : M jsstring :=
  s <- get_state ;;
  let key := ToString env (VNum em) ++ str "," ++ font ++ str "," ++ text in
  let cached := default [] (measureCache s !! key) in
  if negb (jsstring_eqb cached []) then ret cached else
  let wrappedText := join_lines (wrap_lines (measureText env font) text em) in
  modify (set_measureCache (<[key := wrappedText]> (measureCache s))) ;;;
  ret wrappedText.

(** ** The style function *)

(** What the renderer hands to the style function as the feature. *)
Record Feature := {
  properties : Props;
  (** [feature.getGeometry().getType()] *)
  geometryType : string;
  (** [geom.getFlatMidpoint()], when the geometry has the method. *)
  flatMidpoint : option (Q * Q);
  (** [geom.getExtent()], as [(minx, miny, maxx, maxy)]. *)
  extent : Q * Q * Q * Q
}.

(** The table [types]. *)
Definition types (geometryType : string) : option nat :=
  if String.eqb geometryType "Point" then Some 1%nat
  else if String.eqb geometryType "MultiPoint" then Some 1%nat
  else if String.eqb geometryType "LineString" then Some 2%nat
  else if String.eqb geometryType "MultiLineString" then Some 2%nat
  else if String.eqb geometryType "Polygon" then Some 3%nat
  else if String.eqb geometryType "MultiPolygon" then Some 3%nat
  else None.

(** [type == n] *)
Definition type_is (type : option nat) (n : nat) : bool :=
  bool_decide (type = Some n).

(** An entry of [layersBySourceLayer]: a layer and its index in the
    document. *)
Record LayerData := {
  layer : Layer;
  index : nat
}.

(** What the closure of one style function holds besides its caches: the
    arguments of the constructor and the grouped layers. [spriteImage] says
    whether the sprite image is there at the time of the call. *)
Record Closure := {
  resolutions : list Q;
  spriteData : option (gmap jsstring SpriteImageData);
  spriteImage : bool;
  layersBySourceLayer : gmap jsstring (list LayerData);
  (** Bound on the iterations of the loop of [fromTemplate]. *)
  fuel : nat
}.

Context (closure : Closure).

(** [styles[i]] *)
Definition read_slot (i : nat) : M (option Style) :=
  s <- get_state ;; ret (mjoin (styles s !! i)).

(** [styles[i] = style]; an index past the end leaves holes. *)
Definition write_slot (i : nat) (style : Style) : M unit :=
  modify (fun s =>
    let l := styles s in
    set_styles
      (if (i <? length l)%nat then <[i := Some style]> l
       else l ++ replicate (i - length l) None ++ [Some style]) s).

(** [feature.styleIds[zoom] = feature.styleIds[zoom] || []] *)
Definition init_styleIds (zoom : Q) : M unit :=
  modify (fun s =>
    let key := ToString env (VNum zoom) in
    match styleIds s !! key with
    | Some _ => s
    | None => set_styleIds (<[key := []]> (styleIds s)) s
    end).

(** [if (feature.styleIds[zoom].indexOf(layerId) === -1)
       feature.styleIds[zoom].push(layerId)] *)
Definition push_styleId (zoom : Q) (layerId : string) : M unit :=
  modify (fun s =>
    let key := ToString env (VNum zoom) in
    let ids := default [] (styleIds s !! key) in
    if bool_decide (layerId ∈ ids) then s
    else set_styleIds (<[key := ids ++ [layerId]]> (styleIds s)) s).

(** The common opening of every emission: [++stylesLength], the layer id
    is recorded, and the style in the slot is kept when [keeps] accepts its
    shape and replaced by [fresh] otherwise. [n] is [stylesLength + 1]
    before the increment, that is, the index of the slot. *)
Definition claim_slot (n : nat) (zoom : Q) (layerId : string)
    (keeps : Style -> bool) (fresh : Style) : M Style :=
  push_styleId zoom layerId ;;;
  style <- read_slot n ;;
  match style with
  | Some style => if keeps style then ret style
                  else write_slot n fresh ;;; ret fresh
  | None => write_slot n fresh ;;; ret fresh
  end.

Definition keeps_fill (style : Style) : bool :=
  bool_decide (is_Some (style_fill style)) &&
  negb (bool_decide (is_Some (style_stroke style))) &&
  negb (bool_decide (is_Some (style_text style))).

Definition keeps_stroke (style : Style) : bool :=
  bool_decide (is_Some (style_stroke style)) &&
  negb (bool_decide (is_Some (style_fill style))) &&
  negb (bool_decide (is_Some (style_text style))).

Definition keeps_image (style : Style) : bool :=
  bool_decide (is_Some (style_image style)) &&
  negb (bool_decide (is_Some (style_fill style))) &&
  negb (bool_decide (is_Some (style_stroke style))).

Definition keeps_text (style : Style) : bool :=
  bool_decide (is_Some (style_text style)) &&
  negb (bool_decide (is_Some (style_fill style))) &&
  negb (bool_decide (is_Some (style_stroke style))).

(** [colorWithOpacity] on resolved values. *)
Definition colorWithOpacityV (color opacity : Value) : M (option Rgba) :=
  color <- as_color color ;;
  match opacity with
  | VUndefined => ret (colorWithOpacity color None)
  | VNum o => ret (colorWithOpacity color (Some o))
  | _ => match color with Some _ => untyped | None => ret None end
  end.

(** [new Object] of the renderer: the image is put at a fresh address. *)
Definition allocate (image : Image) : M nat :=
  s <- get_state ;;
  let address := next_address s in
  modify (set_heap (<[address := image]> (heap s)) (S address)) ;;;
  ret address.

(** [typeof iconImage === 'string' ? fromTemplate(iconImage, properties)
       : iconImage.toString()] *)
Definition icon_name (iconImage : Value) (properties : Props) : M jsstring :=
  match iconImage with
  | VStr text =>
      match fromTemplate (fuel closure) text properties with
      | Some icon => ret icon
      | None => diverges
      end
  | _ => ret (ToString env iconImage)
  end.

(** [spriteImage && spriteData && spriteData[icon]] *)
Definition sprite_entry (icon : jsstring) : option SpriteImageData :=
  if spriteImage closure
  then data ← spriteData closure; data !! icon
  else None.

(** [pattern = patternCache[key]; if (!pattern) { ...;
     patternCache[key] = pattern }] *)
Definition pattern_for (key : jsstring) (icon : jsstring) (opacity : Value)
  : M nat :=
  s <- get_state ;;
  match patternCache s !! key with
  | Some pattern => ret pattern
  | None =>
      pattern <- allocate (CanvasPattern icon opacity) ;;
      modify (fun s => set_patternCache (<[key := pattern]> (patternCache s)) s) ;;;
      ret pattern
  end.

(** [iconImg = iconImageCache[key]; if (!iconImg) {
     iconImg = iconImageCache[key] = new Icon(...) }] *)
Definition icon_for (key : jsstring) (build : M nat) : M nat :=
  s <- get_state ;;
  match iconImageCache s !! key with
  | Some iconImg => ret iconImg
  | None =>
      iconImg <- build ;;
      modify (fun s => set_iconImageCache
                (<[key := iconImg]> (iconImageCache s)) s) ;;;
      ret iconImg
  end.

(** [iconImg = iconImageCache[key]; if (!iconImg) {
     iconImg = new Circle(...) }]: the circle is not stored. *)
Definition circle_for (key : jsstring) (build : M nat) : M nat :=
  s <- get_state ;;
  match iconImageCache s !! key with
  | Some iconImg => ret iconImg
  | None => build
  end.

Section Layer.

(** One pass of the [for] loop of the style function. *)
Context (feature : Feature) (zoom : Q) (layerData : LayerData).

Let layer_ := layer layerData.
Let layerId := layer_id layer_.
Let layout := bag_of layer_ layout_bag.
Let paint := bag_of layer_ paint_bag.
Let type := types (geometryType feature).
Let f := ArgView {| fv_properties := properties feature; fv_type := type |}.
Let zIndex := inject_Z (Z.of_nat (index layerData)).

(** [paint[property]], read as a condition. *)
Definition raw_truthy (bag : gmap string RawValue) (property : string) : bool :=
  match bag !! property with
  | Some (Literal v) => truthy v
  | Some (Expression _) | Some (Function _) => true
  | None => false
  end.

(** The fill of a polygon, lines 384 to 468 of the source. *)
Definition emit_fill (n : nat) : M nat :=
  if type_is type 3 && String.eqb (layer_type layer_) "fill" then
    opacity <- getValue layer_ paint_bag "fill-opacity" zoom f ;;
    if has_key paint "fill-pattern" then
      iconImage <- getValue layer_ paint_bag "fill-pattern" zoom f ;;
      if truthy iconImage then
        icon <- icon_name iconImage (properties feature) ;;
        match sprite_entry icon with
        | Some spriteImageData =>
            style <- claim_slot n zoom layerId keeps_fill
                       (new_Style (Some {| fill_color := None |}) None) ;;
            let icon_cache_key := icon ++ str "." ++ ToString env opacity in
            pattern <- pattern_for icon_cache_key icon opacity ;;
            write_slot n
              {| style_fill := Some {| fill_color := Some (Pattern pattern) |};
                 style_stroke := style_stroke style;
                 style_image := style_image style;
                 style_text := style_text style;
                 style_geometry := style_geometry style;
                 style_zIndex := Some zIndex |} ;;;
            ret (S n)
        | None => ret n
        end
      else ret n
    else if has_key paint "fill-color" then
      fillColor <- getValue layer_ paint_bag "fill-color" zoom f ;;
      color <- colorWithOpacityV fillColor opacity ;;
      n <- match color with
           | Some c =>
               style <- claim_slot n zoom layerId keeps_fill
                          (new_Style (Some {| fill_color := None |}) None) ;;
               write_slot n
                 {| style_fill := Some {| fill_color := Some (Css c) |};
                    style_stroke := style_stroke style;
                    style_image := style_image style;
                    style_text := style_text style;
                    style_geometry := style_geometry style;
                    style_zIndex := Some zIndex |} ;;;
               ret (S n)
           | None => ret n
           end ;;
      strokeColor <-
        (if has_key paint "fill-outline-color" then
           outline <- getValue layer_ paint_bag "fill-outline-color" zoom
                        (ArgProps (properties feature)) ;;
           colorWithOpacityV outline opacity
         else if has_key paint "fill-antialias" then ret color
         else ret None) ;;
      match strokeColor with
      | Some c =>
          style <- claim_slot n zoom layerId keeps_stroke
                     (new_Style None (Some new_Stroke)) ;;
          let stroke := default new_Stroke (style_stroke style) in
          write_slot n
            {| style_fill := style_fill style;
               style_stroke :=
                 Some {| stroke_color := Some (Css c);
                         stroke_width := Some 1;
                         stroke_lineCap := stroke_lineCap stroke;
                         stroke_lineJoin := stroke_lineJoin stroke;
                         stroke_miterLimit := stroke_miterLimit stroke;
                         stroke_lineDash := stroke_lineDash stroke |};
               style_image := style_image style;
               style_text := style_text style;
               style_geometry := style_geometry style;
               style_zIndex := Some zIndex |} ;;;
          ret (S n)
      | None => ret n
      end
    else ret n
  else ret n.

(** [getValue(...).map(x => x * width)] *)
Definition scale_dashes (dashes : Value) (width : Q) : M (list Q) :=
  match dashes with
  | VArr l =>
      match mapM (fun x => match x with VNum q => Some (q * width)
                                   | _ => None end) l with
      | Some scaled => ret scaled
      | None => untyped
      end
  | _ => untyped
  end.

(** The stroke of a line, lines 469 to 497 of the source. *)
Definition emit_line (n : nat) : M nat :=
  if negb (type_is type 1) && String.eqb (layer_type layer_) "line" then
    color <- (if negb (has_key paint "line-pattern") &&
                 has_key paint "line-color"
              then
                lineColor <- getValue layer_ paint_bag "line-color" zoom f ;;
                lineOpacity <- getValue layer_ paint_bag "line-opacity" zoom f ;;
                colorWithOpacityV lineColor lineOpacity
              else ret None) ;;
    width <- getValue layer_ paint_bag "line-width" zoom f ;;
    match color with
    | Some c =>
        width <- as_num width ;;
        if Num.gtb width 0 then
          style <- claim_slot n zoom layerId keeps_stroke
                     (new_Style None (Some new_Stroke)) ;;
          lineCap <- getValue layer_ layout_bag "line-cap" zoom f ;;
          lineJoin <- getValue layer_ layout_bag "line-join" zoom f ;;
          miterLimit <- getValue layer_ layout_bag "line-miter-limit" zoom f ;;
          lineDash <-
            (if raw_truthy paint "line-dasharray" then
               dashes <- getValue layer_ paint_bag "line-dasharray" zoom f ;;
               scaled <- scale_dashes dashes width ;;
               ret (Some scaled)
             else ret None) ;;
          write_slot n
            {| style_fill := style_fill style;
               style_stroke :=
                 Some {| stroke_color := Some (Css c);
                         stroke_width := Some width;
                         stroke_lineCap := Some lineCap;
                         stroke_lineJoin := Some lineJoin;
                         stroke_miterLimit := Some miterLimit;
                         stroke_lineDash := lineDash |};
               style_image := style_image style;
               style_text := style_text style;
               style_geometry := style_geometry style;
               style_zIndex := Some zIndex |} ;;;
          ret (S n)
        else ret n
    | None => ret n
    end
  else ret n.

Context (resolution : Q).

(** The locals that the icon and circle steps leave for the label step. *)
Record Locals := {
  hasImage : bool;
  skipLabel : bool;
  text : option Text;
  (** The local [style] when [hasImage] is set: the style of the slot that
      the icon or circle step filled last. *)
  style_local : option Style
}.

(** [size > 150], where [size] is the square root of the larger of the two
    squared extents in pixels. With a resolution of zero the quotients are
    infinite or [NaN], and [NaN] is not greater than 150. *)
Definition midpoint_shown (extent : Q * Q * Q * Q) : bool :=
  let '(minx, miny, maxx, maxy) := extent in
  if Num.eqb resolution 0
  then negb (Num.eqb (maxx - minx) 0) && negb (Num.eqb (maxy - miny) 0)
  else
    let w := ((maxx - minx) / resolution) ^ 2 in
    let h := ((maxy - miny) / resolution) ^ 2 in
    Num.gtb (if Qle_bool w h then h else w) (150 ^ 2).

(** [a / b] for a divisor that is not zero. *)
Definition divide (a b : Q) : M Q :=
  if Num.eqb b 0 then untyped else ret (a / b).

(** The degrees that [deg2rad] gets for [icon-rotate]: a template in
    braces is resolved and subtracted from 360. *)
Definition rotate_degrees (rotateValue : Value) : M Q :=
  match rotateValue with
  | VNum q => ret q
  | VStr (c :: rest) =>
      if (c =? 123)%N then
        match fromTemplate (fuel closure) (c :: rest) (properties feature) with
        | Some text =>
            match StringToNumber env text with
            | Some q => ret (360 - q)
            | None => untyped
            end
        | None => diverges
        end
      else untyped
  | VUndefined | VNull => throw "TypeError"
  | _ => untyped
  end.

(** [iconImg.setRotation(r); iconImg.setOpacity(o)] on the shared image. *)
Definition set_rotation_opacity (address : nat) (r : Q) (o : Value) : M unit :=
  modify (fun s =>
    set_heap
      (alter (fun image =>
                match image with
                | Icon sprite recolored anchorOrigin anchor imgSize scale _ _ =>
                    Icon sprite recolored anchorOrigin anchor imgSize scale
                         (Some r) (Some o)
                | other => other
                end) address (heap s))
      (next_address s) s).

(** The body of [if (!iconImg)]: the sprite is cut out, coloured when
    there is an [icon-color], and wrapped in a new icon. Reading pixels
    of an empty canvas throws, and so does indexing the [undefined] that
    [colorWithOpacity] gives for a transparent colour. *)
Definition build_icon (icon : jsstring) (spriteImageData : SpriteImageData)
    (iconSize : Value) (iconColor : option Value) (iconTranslate : Value)
    (iconAnchor : Value) (iconOffset : Value) (anchorOffset : Q * Q) : M nat :=
  if Num.eqb (sprite_width spriteImageData * sprite_height spriteImageData) 0
  then throw "IndexSizeError" else
  recolored <- match iconColor with
               | Some iconColor =>
                   color <- colorWithOpacityV iconColor (VNum 1) ;;
                   match color with
                   | Some _ => ret true
                   | None => throw "TypeError"
                   end
               | None => ret false
               end ;;
  iconTranslate <- as_pair iconTranslate ;;
  iconOffset <- as_pair iconOffset ;;
  iconSize <- as_num iconSize ;;
  tx <- divide (fst iconTranslate) (sprite_width spriteImageData) ;;
  ty <- divide (snd iconTranslate) (sprite_height spriteImageData) ;;
  scale <- divide iconSize (sprite_pixelRatio spriteImageData) ;;
  allocate
    (Icon icon recolored iconAnchor
       (fst iconOffset + fst anchorOffset + tx,
        snd iconOffset + snd anchorOffset - ty)
       (sprite_width spriteImageData, sprite_height spriteImageData)
       scale None None).

(** The icon of a point or of a line, lines 502 to 603 of the source. *)
Definition emit_icon (n : nat) (locals : Locals) : M (nat * Locals) :=
  if (type_is type 1 || type_is type 2) && has_key layout "icon-image" then
    iconImage <- getValue layer_ layout_bag "icon-image" zoom f ;;
    if truthy iconImage then
      icon <- icon_name iconImage (properties feature) ;;
      match sprite_entry icon with
      | Some spriteImageData =>
          let styleGeom :=
            if type_is type 2 then
              match flatMidpoint feature with
              | Some midpoint =>
                  if midpoint_shown (extent feature) then Some midpoint
                  else None
              | None => None
              end
            else None in
          if negb (type_is type 2) || bool_decide (is_Some styleGeom) then
            style <- claim_slot n zoom layerId keeps_image
                       (new_Style None None) ;;
            iconSize <- getValue layer_ layout_bag "icon-size" zoom f ;;
            iconColor <-
              (if has_key paint "icon-color" then
                 c <- getValue layer_ paint_bag "icon-color" zoom f ;;
                 ret (Some c)
               else ret None) ;;
            iconTranslate <- getValue layer_ paint_bag "icon-translate" zoom f ;;
            iconTranslateAnchor <-
              getValue layer_ paint_bag "icon-translate-anchor" zoom f ;;
            iconAnchorValue <- getValue layer_ layout_bag "icon-anchor" zoom f ;;
            iconOffset <- getValue layer_ layout_bag "icon-offset" zoom f ;;
            let converted := covertIconAnchor iconAnchorValue in
            let icon_cache_key :=
              icon ++ str "." ++ ToString env iconSize
                   ++ str "." ++ ToString env iconTranslate
                   ++ str "." ++ ToString env iconTranslateAnchor
                   ++ str "." ++ ToString env (iconAnchor converted)
                   ++ str "." ++ ToString env iconOffset
                   ++ str "." ++ ToString env
                        (VArr [VNum (fst (anchorOffset converted));
                               VNum (snd (anchorOffset converted))])
                   ++ match iconColor with
                      | Some c => str "." ++ ToString env c
                      | None => []
                      end in
            iconImg <-
              icon_for icon_cache_key
                (build_icon icon spriteImageData iconSize iconColor
                   iconTranslate (iconAnchor converted) iconOffset
                   (anchorOffset converted)) ;;
            rotateValue <- getValue layer_ layout_bag "icon-rotate" zoom f ;;
            rotation <- rotate_degrees rotateValue ;;
            iconOpacity <- getValue layer_ paint_bag "icon-opacity" zoom f ;;
            set_rotation_opacity iconImg rotation iconOpacity ;;;
            let written :=
              {| style_fill := style_fill style;
                 style_stroke := style_stroke style;
                 style_image := Some iconImg;
                 style_text := None;
                 style_geometry := styleGeom;
                 style_zIndex := Some (99999 - zIndex) |} in
            write_slot n written ;;;
            ret (S n, {| hasImage := true; skipLabel := false;
                         text := style_text style;
                         style_local := Some written |})
          else
            ret (n, {| hasImage := hasImage locals; skipLabel := true;
                       text := text locals;
                       style_local := style_local locals |})
      | None => ret (n, locals)
      end
    else ret (n, locals)
  else ret (n, locals).

(** [new Circle({radius, stroke, fill})]: no stroke for a stroke width
    of 0. *)
Definition build_circle (circleRadius circleStrokeColor circleColor
    circleOpacity circleStrokeWidth circleStrokeOpacity : Value) : M nat :=
  radius <- as_num circleRadius ;;
  stroke <-
    match circleStrokeWidth with
    | VNum width =>
        if Num.eqb width 0 then ret None else
        color <- colorWithOpacityV circleStrokeColor circleStrokeOpacity ;;
        ret (Some {| stroke_color := Css <$> color;
                     stroke_width := Some width;
                     stroke_lineCap := None;
                     stroke_lineJoin := None;
                     stroke_miterLimit := None;
                     stroke_lineDash := None |})
    | _ => untyped
    end ;;
  color <- colorWithOpacityV circleColor circleOpacity ;;
  allocate (Circle radius stroke {| fill_color := Css <$> color |}).

(** The circle of a point, lines 605 to 641 of the source. The image that
    [new Circle] builds is used for this style and is not put into
    [iconImageCache]. *)
Definition emit_circle (n : nat) (locals : Locals) : M (nat * Locals) :=
  if type_is type 1 && has_key paint "circle-radius" then
    style <- claim_slot n zoom layerId keeps_image (new_Style None None) ;;
    circleRadius <- getValue layer_ paint_bag "circle-radius" zoom f ;;
    circleStrokeColor <- getValue layer_ paint_bag "circle-stroke-color" zoom f ;;
    circleColor <- getValue layer_ paint_bag "circle-color" zoom f ;;
    circleOpacity <- getValue layer_ paint_bag "circle-opacity" zoom f ;;
    circleStrokeWidth <- getValue layer_ paint_bag "circle-stroke-width" zoom f ;;
    circleStrokeOpacity <-
      getValue layer_ paint_bag "circle-stroke-opacity" zoom f ;;
    let cache_key :=
      ToString env circleRadius ++ str "." ++ ToString env circleStrokeColor
        ++ str "." ++ ToString env circleColor
        ++ str "." ++ ToString env circleOpacity
        ++ str "." ++ ToString env circleStrokeWidth
        ++ str "." ++ ToString env circleStrokeOpacity in
    iconImg <-
      circle_for cache_key
        (build_circle circleRadius circleStrokeColor circleColor
           circleOpacity circleStrokeWidth circleStrokeOpacity) ;;
    let written :=
      {| style_fill := style_fill style;
         style_stroke := style_stroke style;
         style_image := Some iconImg;
         style_text := None;
         style_geometry := None;
         style_zIndex := Some (99999 - zIndex) |} in
    write_slot n written ;;;
    ret (S n, {| hasImage := true; skipLabel := skipLabel locals;
                 text := style_text style;
                 style_local := Some written |})
  else ret (n, locals).

(** [text.indexOf(word) == 0] *)
Fixpoint starts_with (word text : jsstring) : bool :=
  match word, text with
  | [], _ => true
  | c :: word', d :: text' => (c =? d)%N && starts_with word' text'
  | _ :: _, [] => false
  end.

(** [text.indexOf(word) !== -1] *)
Fixpoint includes (word text : jsstring) : bool :=
  starts_with word text ||
  match text with
  | [] => false
  | _ :: text' => includes word text'
  end.

(** [layout['text-transform'] == keyword], on the raw value of the bag. *)
Definition transform_is (keyword : string) : bool :=
  match layout !! "text-transform" with
  | Some (Literal (VStr s)) => jsstring_eqb s (str keyword)
  | Some (Literal (VArr l)) => jsstring_eqb (ToString env (VArr l)) (str keyword)
  | _ => false
  end.

(** The label: [fromTemplate(getValue(..., 'text-field', ...), properties)];
    [None] when the layout has no [text-field]. *)
Definition resolve_label : M (option jsstring) :=
  if has_key layout "text-field" then
    textField <- getValue layer_ layout_bag "text-field" zoom f ;;
    match textField with
    | VStr template =>
        match fromTemplate (fuel closure) template (properties feature) with
        | Some label => ret (Some label)
        | None => diverges
        end
    | _ => throw "TypeError"
    end
  else ret None.

(** The label, lines 643 to 726 of the source. *)
Definition emit_text (n : nat) (locals : Locals) : M nat :=
  label <- resolve_label ;;
  match label with
  | Some (c :: rest) =>
      if skipLabel locals then ret n else
      let label := c :: rest in
      claimed <-
        (if hasImage locals then
           match style_local locals with
           | Some style => ret (n, (n - 1)%nat, style)
           | None => throw "TypeError"
           end
         else
           style <- claim_slot n zoom layerId keeps_text (new_Style None None) ;;
           let cleared :=
             {| style_fill := style_fill style;
                style_stroke := style_stroke style;
                style_image := None;
                style_text := style_text style;
                style_geometry := None;
                style_zIndex := style_zIndex style |} in
           write_slot n cleared ;;;
           ret (S n, n, cleared)) ;;
      let n := fst (fst claimed) in
      let slot := snd (fst claimed) in
      let style := snd claimed in
      (
          let text_ :=
            match style_text style with
            | Some t => t
            | None => default new_Text (text locals)
            end in
          textSize <- getValue layer_ layout_bag "text-size" zoom f ;;
          textLineHeight <- getValue layer_ layout_bag "text-line-height" zoom f ;;
          fonts <- getValue layer_ layout_bag "text-font" zoom f ;;
          chosen <- chooseFont fonts None ;;
          let font := mb2css env chosen textSize in
          let label := if transform_is "uppercase" then toUpperCase env label
                       else if transform_is "lowercase"
                            then toLowerCase env label
                            else label in
          wrappedLabel <-
            (if type_is type 2 then ret label
             else
               em <- getValue layer_ layout_bag "text-max-width" zoom f ;;
               em <- as_num em ;;
               wrapText label font em) ;;
          textRotate <- getValue layer_ layout_bag "text-rotate" zoom f ;;
          textRotate <- as_num textRotate ;;
          textAnchor <- getValue layer_ layout_bag "text-anchor" zoom f ;;
          placement <-
            (if hasImage locals || type_is type 1 then ret (VStr (str "point"))
             else getValue layer_ layout_bag "symbol-placement" zoom f) ;;
          textHaloWidth <- getValue layer_ paint_bag "text-halo-width" zoom f ;;
          textOffset <- getValue layer_ layout_bag "text-offset" zoom f ;;
          textTranslate <- getValue layer_ paint_bag "text-translate" zoom f ;;
          textAnchor <- match textAnchor with
                        | VStr anchor => ret anchor
                        | VUndefined | VNull => throw "TypeError"
                        | _ => untyped
                        end ;;
          textSize <- as_num textSize ;;
          textOffset <- as_pair textOffset ;;
          textTranslate <- as_pair textTranslate ;;
          aligned <-
            (if includes (str "left") textAnchor then
               w <- as_num textHaloWidth ;; ret ("left", w)
             else if includes (str "right") textAnchor then
               w <- as_num textHaloWidth ;; ret ("right", - w)
             else ret ("center", 0)) ;;
          let textAlign := fst aligned in
          let hOffset := snd aligned in
          placed <-
            (if is_str placement "point"
             then ret (Some textAlign, text_maxAngle text_)
             else
               angle <- getValue layer_ layout_bag "text-max-angle" zoom f ;;
               angle <- as_num angle ;;
               ret (None, Some (angle, length label, length wrappedLabel))) ;;
          let align := fst placed in
          let maxAngle := snd placed in
          based <-
            (if starts_with (str "bottom") textAnchor then
               w <- as_num textHaloWidth ;;
               h <- as_num textLineHeight ;;
               ret ("bottom", - w - ((1 # 2) * (h - 1)) * textSize)
             else if starts_with (str "top") textAnchor then
               w <- as_num textHaloWidth ;;
               h <- as_num textLineHeight ;;
               ret ("top", w + ((1 # 2) * (h - 1)) * textSize)
             else ret ("middle", 0)) ;;
          let textBaseline := fst based in
          let vOffset := snd based in
          opacity <- getValue layer_ paint_bag "text-opacity" zoom f ;;
          textColor <- getValue layer_ paint_bag "text-color" zoom f ;;
          textColor <- colorWithOpacityV textColor opacity ;;
          haloColor <- getValue layer_ paint_bag "text-halo-color" zoom f ;;
          haloColor <- colorWithOpacityV haloColor opacity ;;
          textHalo <-
            match haloColor with
            | Some c =>
                w <- getValue layer_ paint_bag "text-halo-width" zoom f ;;
                w <- as_num w ;;
                ret (Some {| stroke_color := Some (Css c);
                             stroke_width := Some w;
                             stroke_lineCap := None;
                             stroke_lineJoin := None;
                             stroke_miterLimit := None;
                             stroke_lineDash := None |})
            | None => ret None
            end ;;
          write_slot slot
            {| style_fill := style_fill style;
               style_stroke := style_stroke style;
               style_image := style_image style;
               style_text :=
                 Some {| text_text := Some wrappedLabel;
                         text_font := Some font;
                         text_rotation := Some textRotate;
                         text_placement := Some placement;
                         text_textAlign := align;
                         text_maxAngle := maxAngle;
                         text_textBaseline := Some textBaseline;
                         text_offsetX :=
                           Some (fst textOffset * textSize + hOffset
                                 + fst textTranslate);
                         text_offsetY :=
                           Some (snd textOffset * textSize + vOffset
                                 + snd textTranslate);
                         text_fill :=
                           Some {| fill_color :=
                                     Some (Css (default
                                       {| red := 0; green := 0; blue := 0;
                                          alpha := 0 |} textColor)) |};
                         text_stroke := textHalo |};
               style_geometry := style_geometry style;
               style_zIndex := Some (99999 - zIndex) |} ;;;
          ret n)
  | _ => ret n
  end.

(** [layout.visibility === 'none'] *)
Definition hidden : bool :=
  match layout !! "visibility" with
  | Some (Literal v) => is_str v "none"
  | _ => false
  end.

(** The test that ends the pass with [continue]: the layer is hidden, or
    the zoom is below its [minzoom], or at or above its [maxzoom]. *)
Definition skipped : bool :=
  hidden ||
  match layer_minzoom layer_ with
  | Some minzoom => Num.ltb zoom minzoom
  | None => false
  end ||
  match layer_maxzoom layer_ with
  | Some maxzoom => Num.geb zoom maxzoom
  | None => false
  end.

(** [!filter || evaluateFilter(layerId, filter, f, zoom)] *)
Definition passes_filter : M bool :=
  match layer_filter layer_ with
  | None => ret true
  | Some filter =>
      v <- evaluateFilter layerId filter
             {| fv_properties := properties feature; fv_type := type |} zoom ;;
      ret (truthy v)
  end.

(** The body of the [for] loop over the layers of the feature's source
    layer. [n] is the number of styles populated so far. *)
Definition layer_step (n : nat) : M nat :=
  if skipped then ret n else
  init_styleIds zoom ;;;
  pass <- passes_filter ;;
  if pass then
    n <- emit_fill n ;;
    n <- emit_line n ;;
    iconed <- emit_icon n {| hasImage := false; skipLabel := false;
                             text := None; style_local := None |} ;;
    circled <- emit_circle (fst iconed) (snd iconed) ;;
    emit_text (fst circled) (snd circled)
  else ret n.

End Layer.

(** [resolutions.indexOf(resolution)], with [None] for [-1]. *)
Fixpoint indexOf (l : list Q) (x : Q) : option nat :=
  match l with
  | [] => None
  | y :: l' => if Num.eqb y x then Some O else S <$> indexOf l' x
  end.

(** The zoom of a call: the index of the resolution when it is one of
    [resolutions], the rounded interpolated zoom otherwise. *)
Definition resolve_zoom (resolution : Q) : Q :=
  match indexOf (resolutions closure) resolution with
  | Some i => inject_Z (Z.of_nat i)
  | None =>
      inject_Z (Num.round
                  (getZoomForResolution env resolution (resolutions closure)))
  end.

Fixpoint style_loop (feature : Feature) (zoom resolution : Q)
    (layers : list LayerData) (n : nat) : M nat :=
  match layers with
  | [] => ret n
  | layerData :: rest =>
      n <- layer_step feature zoom layerData resolution n ;;
      style_loop feature zoom resolution rest n
  end.

(** [styles.length = n] *)
Definition truncate (n : nat) : M unit :=
  modify (fun s =>
    set_styles (take n (styles s) ++ replicate (n - length (styles s)) None) s).

(** The style function that the constructor returns. The result is the
    content of [styles] at the return, or [None] for [undefined]. *)
Definition styleFunction (feature : Feature) (resolution : Q)
  : M (option (list (option Style))) :=
  let key := ToString env (default VUndefined (properties feature !! str "layer")) in
  match layersBySourceLayer closure !! key with
  | None => ret None
  | Some layers =>
      let zoom := resolve_zoom resolution in
      n <- style_loop feature zoom resolution layers 0 ;;
      if (0 <? n)%nat then
        truncate n ;;;
        s <- get_state ;;
        ret (Some (styles s))
      else ret None
  end.

(** ** The constructor (the default export) *)

(** The [glStyle] argument: an object or its JSON text. *)
Inductive GlStyleArg :=
| StyleObject (glStyle : GlStyle)
| StyleString (json : jsstring).

(** The [source] argument: a source name or a list of layer ids. *)
Inductive Source :=
| SourceName (name : string)
| LayerIds (ids : list string).

(** The OpenLayers layer, as far as the constructor writes it:
    [setStyle] and the two properties that [set] stores. *)
Record OlLayer := {
  ol_style : option Closure;
  ol_mapbox_source : option (option string);
  ol_mapbox_layers : option (list string)
}.

(** [v != n] for a number [n]: the loose comparison converts the other
    operand to a number. *)
Definition loose_neq (v : Value) (n : Q) : bool :=
  negb match v with
       | VNum q => Num.eqb q n
       | VStr s => match StringToNumber env s with
                   | Some q => Num.eqb q n
                   | None => false
                   end
       | VBool b => Num.eqb (if b then 1 else 0) n
       | VUndefined | VNull => false
       | VColor _ | VArr _ =>
           match StringToNumber env (ToString env v) with
           | Some q => Num.eqb q n
           | None => false
           end
       end.

(** The resolutions of the default tile pyramid. *)
Fixpoint halvings (count : nat) (res : Q) : list Q :=
  match count with
  | O => []
  | S count' => res :: halvings count' (res / 2)
  end.

Definition default_resolutions : list Q :=
  halvings 21 (7827151696402048 # 100000000000).

(** [typeof source == 'string' && layer.source == source ||
     source.indexOf(layerId) !== -1]; on a source name the second test
    is the search of a substring. *)
Definition selected (source : Source) (layer : Layer) : bool :=
  match source with
  | SourceName name =>
      bool_decide (layer_source layer = Some name) ||
      includes (str (layer_id layer)) (str name)
  | LayerIds ids => bool_decide (layer_id layer ∈ ids)
  end.

(** What the [for] loop over [allLayers] builds. *)
Record Grouping := {
  bySourceLayer : gmap jsstring (list LayerData);
  mapboxLayers : list string;
  mapboxSource : option string
}.

Fixpoint group_layers (source : Source) (allLayers : list Layer) (i : nat)
    (g : Grouping) (s : State) : Grouping * State :=
  match allLayers with
  | [] => (g, s)
  | layer :: rest =>
      let layerId := layer_id layer in
      let g :=
        if selected source layer then
          let sourceLayer :=
            ToString env (match layer_source_layer layer with
                          | Some name => VStr name
                          | None => VUndefined
                          end) in
          let layers := default [] (bySourceLayer g !! sourceLayer) in
          {| bySourceLayer :=
               <[sourceLayer := layers ++ [{| layer := layer; index := i |}]]>
                 (bySourceLayer g);
             mapboxLayers := mapboxLayers g ++ [layerId];
             mapboxSource :=
               match mapboxSource g with
               | Some name => if String.eqb name "" then layer_source layer
                              else Some name
               | None => layer_source layer
               end |}
        else g in
      let s := set_filterCache (delete layerId (filterCache s))
                 (set_functionCache (delete layerId (functionCache s)) s) in
      group_layers source rest (S i) g s
  end.

(** The constructor. [resolutions] is [None] when the argument is left
    out; [spriteImage] says whether the sprite image was handed over. The
    caches of the closure start empty. *)
Definition stylefunction (olLayer : OlLayer) (glStyle : GlStyleArg)
    (source : Source) (resolutions : option (list Q))
    (spriteData : option (gmap jsstring SpriteImageData)) (spriteImage : bool)
    (fuel : nat) (s : State) : Outcome Closure * State * OlLayer :=
  let resolutions := default default_resolutions resolutions in
  match match glStyle with
        | StyleObject g => Some g
        | StyleString json => JSON_parse env json
        end with
  | None => (Throw "SyntaxError", s, olLayer)
  | Some glStyle =>
      if loose_neq (version glStyle) 8
      then (Throw "glStyle version 8 required.", s, olLayer)
      else
        let allLayers := derefLayers env (layers glStyle) in
        let '(g, s) :=
          group_layers source allLayers 0
            {| bySourceLayer := ∅; mapboxLayers := []; mapboxSource := None |}
            s in
        let s := set_styles []
                   (set_patternCache ∅
                      (set_iconImageCache ∅ (set_measureCache ∅ s))) in
        let closure :=
          {| resolutions := resolutions; spriteData := spriteData;
             spriteImage := spriteImage;
             layersBySourceLayer := bySourceLayer g; fuel := fuel |} in
        (Ok closure, s,
         {| ol_style := Some closure;
            ol_mapbox_source := Some (mapboxSource g);
            ol_mapbox_layers := Some (mapboxLayers g) |})
  end.

End StyleFunction.

(** ** A sample environment

    A small, concrete stand-in for the imported packages, on which the
    definitions above run: the entries of the version 8 specification that
    the style function reads, a colour parser for a few colours, text of
    ten pixels per code unit. *)

Module Sample.

Definition number (d : Value) : PropertySpec :=
  {| spec_default := d; spec_type := "number" |}.
Definition colour (d : Value) : PropertySpec :=
  {| spec_default := d; spec_type := "color" |}.
Definition text (d : Value) : PropertySpec :=
  {| spec_default := d; spec_type := "string" |}.
Definition enum (d : string) : PropertySpec :=
  {| spec_default := VStr (str d); spec_type := "enum" |}.
Definition array (d : Value) : PropertySpec :=
  {| spec_default := d; spec_type := "array" |}.

Definition black : Value := VStr (str "#000000").
Definition origin : Value := VArr [VNum 0; VNum 0].

Definition spec : gmap string (gmap string PropertySpec) :=
  list_to_map [
    ("paint_fill", list_to_map [
       ("fill-antialias",
        {| spec_default := VBool true; spec_type := "boolean" |});
       ("fill-opacity", number (VNum 1));
       ("fill-color", colour black);
       ("fill-outline-color", colour VUndefined);
       ("fill-pattern", text VUndefined)]);
    ("layout_fill", ∅);
    ("paint_line", list_to_map [
       ("line-opacity", number (VNum 1));
       ("line-color", colour black);
       ("line-width", number (VNum 1));
       ("line-dasharray", array VUndefined);
       ("line-pattern", text VUndefined)]);
    ("layout_line", list_to_map [
       ("line-cap", enum "butt");
       ("line-join", enum "miter");
       ("line-miter-limit", number (VNum 2))]);
    ("paint_circle", list_to_map [
       ("circle-radius", number (VNum 5));
       ("circle-color", colour black);
       ("circle-opacity", number (VNum 1));
       ("circle-stroke-width", number (VNum 0));
       ("circle-stroke-color", colour black);
       ("circle-stroke-opacity", number (VNum 1))]);
    ("layout_circle", ∅);
    ("paint_symbol", list_to_map [
       ("icon-opacity", number (VNum 1));
       ("icon-color", colour black);
       ("icon-translate", array origin);
       ("icon-translate-anchor", enum "map");
       ("text-opacity", number (VNum 1));
       ("text-color", colour black);
       ("text-halo-color", colour (VStr (str "rgba(0, 0, 0, 0)")));
       ("text-halo-width", number (VNum 0));
       ("text-translate", array origin)]);
    ("layout_symbol", list_to_map [
       ("symbol-placement", enum "point");
       ("icon-image", text VUndefined);
       ("icon-size", number (VNum 1));
       ("icon-rotate", number (VNum 0));
       ("icon-anchor", enum "center");
       ("icon-offset", array origin);
       ("text-field", text (VStr []));
       ("text-font", array (VArr [VStr (str "Open Sans Regular");
                                  VStr (str "Arial Unicode MS Regular")]));
       ("text-size", number (VNum 16));
       ("text-max-width", number (VNum 10));
       ("text-line-height", number (VNum (12 # 10)));
       ("text-rotate", number (VNum 0));
       ("text-anchor", enum "center");
       ("text-max-angle", number (VNum 45));
       ("text-offset", array origin)])
  ].

Definition parse_colour (v : Value) : Value :=
  if is_str v "#000000" then VColor {| r := 0; g := 0; b := 0; a := 1 |}
  else if is_str v "#ff0000" then VColor {| r := 1; g := 0; b := 0; a := 1 |}
  else if is_str v "#ffffff" then VColor {| r := 1; g := 1; b := 1; a := 1 |}
  else if is_str v "rgba(255, 0, 0, 0.5)"
       then VColor {| r := 1 # 2; g := 0; b := 0; a := 1 # 2 |}
  else if is_str v "rgba(0, 0, 0, 0)" || is_str v "transparent"
       then VColor {| r := 0; g := 0; b := 0; a := 0 |}
  else VUndefined.

(** Unsigned decimal numerals, and the empty string, which is zero. *)
Fixpoint digits (s : jsstring) (acc : N) : option N :=
  match s with
  | [] => Some acc
  | c :: s' => if (48 <=? c)%N && (c <=? 57)%N
               then digits s' (acc * 10 + (c - 48))%N
               else None
  end.

Definition to_number (s : jsstring) : option Q :=
  (fun n => inject_Z (Z.of_N n)) <$> digits s 0.

Definition show_Z (z : Z) : jsstring := str (NilZero.string_of_int (Z.to_int z)).

Fixpoint join_comma (l : list jsstring) : jsstring :=
  match l with
  | [] => []
  | [x] => x
  | x :: rest => x ++ 44%N :: join_comma rest
  end.

(** Numbers print as a numerator, and as a fraction when they are not
    whole. *)
Definition show_Q (q : Q) : jsstring :=
  let q := Qred q in
  if (Qden q =? 1)%positive then show_Z (Qnum q)
  else show_Z (Qnum q) ++ str "/" ++ show_Z (Zpos (Qden q)).

Fixpoint show (v : Value) : jsstring :=
  match v with
  | VUndefined => str "undefined"
  | VNull => str "null"
  | VBool b => str (if b then "true" else "false")
  | VNum q => show_Q q
  | VStr s => s
  | VColor c => str "rgba(" ++ join_comma
                  [show_Q (r c); show_Q (g c); show_Q (b c); show_Q (a c)]
                  ++ str ")"
  | VArr l => join_comma (map show l)
  end.

(** ASCII letters change case. *)
Definition upper (s : jsstring) : jsstring :=
  map (fun c => if (97 <=? c)%N && (c <=? 122)%N then (c - 32)%N else c) s.
Definition lower (s : jsstring) : jsstring :=
  map (fun c => if (65 <=? c)%N && (c <=? 90)%N then (c + 32)%N else c) s.

Definition env : Env :=
  {| spec_latest := spec;
     Color_parse := parse_colour;
     StringToNumber := to_number;
     ToString := show;
     measureText := fun _ text => inject_Z (10 * Z.of_nat (length text));
     mb2css := fun font size => show size ++ str "px " ++ show font;
     getZoomForResolution := fun _ _ => 0;
     toUpperCase := upper;
     toLowerCase := lower;
     JSON_parse := fun _ => None;
     derefLayers := fun layers => layers |}.

Definition empty_state : State :=
  {| functionCache := ∅; filterCache := ∅; fontMap := ∅; measureCache := ∅;
     iconImageCache := ∅; patternCache := ∅; styles := []; heap := ∅;
     next_address := 0; styleIds := ∅ |}.

Definition empty_layer : OlLayer :=
  {| ol_style := None; ol_mapbox_source := None; ol_mapbox_layers := None |}.


(** A document with one fill layer, shown from zoom 5 up to zoom 10. *)
Definition water : Layer :=
  {| layer_id := "water"; layer_type := "fill"; layer_source := Some "osm";
     layer_source_layer := Some (str "water");
     layer_minzoom := Some 5; layer_maxzoom := Some 10;
     layer_layout := None;
     layer_paint :=
       Some (list_to_map [("fill-color", Literal (VStr (str "#ff0000")))]);
     layer_filter := None |}.

Definition water_data : LayerData := {| layer := water; index := 0 |}.

Definition closure_of (layers : list Layer) : Closure :=
  match stylefunction env empty_layer
          (StyleObject {| version := VNum 8; layers := layers |})
          (SourceName "osm") None None false 8 empty_state with
  | (Ok closure, _, _) => closure
  | _ => {| resolutions := []; spriteData := None; spriteImage := false;
            layersBySourceLayer := ∅; fuel := 0 |}
  end.

Definition feature_of (sourceLayer geometryType : string) : Feature :=
  {| properties := {[ str "layer" := VStr (str sourceLayer) ]};
     geometryType := geometryType;
     flatMidpoint := None;
     extent := (0, 0, 1, 1) |}.

Definition lake : Feature := feature_of "water" "Polygon".







(** A dashed line layer, two pixels wide. *)
Definition road : Layer :=
  {| layer_id := "road"; layer_type := "line"; layer_source := Some "osm";
     layer_source_layer := Some (str "roads");
     layer_minzoom := None; layer_maxzoom := None;
     layer_layout := None;
     layer_paint :=
       Some (list_to_map [("line-color", Literal (VStr (str "#000000")));
                          ("line-width", Literal (VNum 2));
                          ("line-dasharray",
                           Literal (VArr [VNum 2; VNum 1]))]);
     layer_filter := None |}.

Definition road_data : LayerData := {| layer := road; index := 1 |}.

Definition street : Feature := feature_of "roads" "LineString".


(** A circle layer and a point for it. *)
Definition place : Layer :=
  {| layer_id := "place"; layer_type := "circle"; layer_source := Some "osm";
     layer_source_layer := Some (str "places");
     layer_minzoom := None; layer_maxzoom := None;
     layer_layout := None;
     layer_paint :=
       Some (list_to_map [("circle-radius", Literal (VNum 4));
                          ("circle-color", Literal (VStr (str "#ff0000")))]);
     layer_filter := None |}.


Definition town : Feature := feature_of "places" "Point".


(** Two calls of the style function for the same point at the same
    resolution, the second one from the state that the first one left. *)
Definition first_call : Outcome (option (list (option Style))) * State :=
  styleFunction env (closure_of [place]) town 1 empty_state.

Definition second_call : Outcome (option (list (option Style))) * State :=
  styleFunction env (closure_of [place]) town 1 (snd first_call).

End Sample.

(** * Properties *)

(** ** Numbers *)

Lemma ltb_lt a b : Num.ltb a b = true <-> a < b.
Proof.
  unfold Num.ltb. rewrite negb_true_iff, <- not_true_iff_false, Qle_bool_iff.
  split; [apply Qnot_le_lt | apply Qlt_not_le].
Qed.


Lemma eqb_eq a b : Num.eqb a b = true <-> a == b.
Proof. unfold Num.eqb. apply Qeq_bool_iff. Qed.

Lemma eqb_neq a b : Num.eqb a b = false <-> ~ a == b.
Proof. rewrite <- eqb_eq. destruct (Num.eqb a b); intuition congruence. Qed.

Lemma gtb_le_false a b : a <= b -> Num.gtb a b = false.
Proof.
  intros H. unfold Num.gtb, Num.ltb. apply negb_false_iff, Qle_bool_iff, H.
Qed.

Lemma gtb_gt a b : Num.gtb a b = true <-> b < a.
Proof. apply ltb_lt. Qed.

(** ** Icon anchors *)

Lemma is_str_neq v k : v <> VStr (str k) -> is_str v k = false.
Proof.
  destruct v; simpl; try reflexivity.
  intros H. unfold jsstring_eqb. apply bool_decide_eq_false. congruence.
Qed.

Definition anchor_keywords : list string :=
  ["top-left"; "top-right"; "bottom-left"; "bottom-right";
   "left"; "right"; "bottom"; "top"].

(** C8. The anchor offset of [covertIconAnchor]: the four corner keywords
    give (0,0), [left] gives (0,0.5), [right] (1,0.5), [bottom] (0.5,1),
    [top] (0.5,0), and [center] and every other value give (0.5,0.5). *)
Theorem covertIconAnchor_offsets :
  (forall k, k ∈ ["top-left"; "top-right"; "bottom-left"; "bottom-right"] ->
     anchorOffset (covertIconAnchor (VStr (str k))) = (0, 0)) /\
  anchorOffset (covertIconAnchor (VStr (str "left"))) = (0, 1 # 2) /\
  anchorOffset (covertIconAnchor (VStr (str "right"))) = (1, 1 # 2) /\
  anchorOffset (covertIconAnchor (VStr (str "bottom"))) = (1 # 2, 1) /\
  anchorOffset (covertIconAnchor (VStr (str "top"))) = (1 # 2, 0) /\
  anchorOffset (covertIconAnchor (VStr (str "center"))) = (1 # 2, 1 # 2) /\
  (forall v, (forall k, k ∈ anchor_keywords -> v <> VStr (str k)) ->
     anchorOffset (covertIconAnchor v) = (1 # 2, 1 # 2)).
Proof.
  repeat split; try reflexivity.
  - intros k Hk. repeat (apply elem_of_cons in Hk as [-> | Hk]);
      [reflexivity .. | by apply elem_of_nil in Hk].
  - intros v Hv.
    assert (Hk : forall k, k ∈ anchor_keywords -> is_str v k = false).
    { intros k Hk. apply is_str_neq, Hv, Hk. }
    repeat (progress
      (cbv beta zeta iota
         delta [covertIconAnchor is_corner_anchor existsb iconAnchor
                anchorOffset orb];
       rewrite ?Hk by (unfold anchor_keywords; set_solver))).
    reflexivity.
Qed.

Lemma covertIconAnchor_offsets_witness :
  anchorOffset (covertIconAnchor (VStr (str "top-right"))) = (0, 0) /\
  anchorOffset (covertIconAnchor (VNum 3)) = (1 # 2, 1 # 2).
Proof.
  destruct covertIconAnchor_offsets as (Hcorner & _ & _ & _ & _ & _ & Hother).
  split.
  - apply Hcorner. set_solver.
  - apply Hother. intros k _. discriminate.
Defined.

(** ** Colours *)

(** C10. For a defined colour, [colorWithOpacity] gives [undefined] exactly
    when the alpha of the colour is 0 or the opacity is 0. When it gives a
    colour, the alpha that the channels are divided by is not zero, and an
    [undefined] opacity counts as 1. *)
Theorem colorWithOpacity_undefined_iff (c : Color) (opacity : option Q) :
  (colorWithOpacity (Some c) opacity = None <->
     a c == 0 \/ exists o, opacity = Some o /\ o == 0) /\
  (forall rgba, colorWithOpacity (Some c) opacity = Some rgba ->
     ~ a c == 0 /\
     rgba = {| red := Num.round (r c * 255 / a c);
               green := Num.round (g c * 255 / a c);
               blue := Num.round (b c * 255 / a c);
               alpha := a c * default 1 opacity |}).
Proof.
  unfold colorWithOpacity.
  destruct (Num.eqb (a c) 0) eqn:Ha; simpl.
  - apply eqb_eq in Ha. split; [tauto | discriminate].
  - apply eqb_neq in Ha. destruct opacity as [o|]; simpl.
    + destruct (Num.eqb o 0) eqn:Ho.
      * apply eqb_eq in Ho. split; [|discriminate].
        split; [eauto | reflexivity].
      * apply eqb_neq in Ho. split.
        -- split; [discriminate|]. intros [H | (o' & [= <-] & H)]; tauto.
        -- intros rgba [= <-]. split; [exact Ha | reflexivity].
    + split.
      * split; [discriminate|]. intros [H | (o' & [=] & _)]. tauto.
      * intros rgba [= <-]. split; [exact Ha | reflexivity].
Qed.

(** ** The version check of the constructor *)

(** The version is the number 8. *)
Definition is_eight (v : Value) : Prop :=
  match v with VNum q => q == 8 | _ => False end.

Definition string_version : GlStyle :=
  {| version := VStr (str "8"); layers := [] |}.

(** Numbers other than 8, [undefined], [null] and the booleans fail the
    check for every environment. *)
Lemma loose_neq_unconverted env v :
  match v with
  | VNum q => ~ q == 8
  | VUndefined | VNull | VBool _ => True
  | _ => False
  end ->
  loose_neq env v 8 = true.
Proof.
  destruct v as [| |[]|q| | |]; simpl; try tauto; intros H.
  apply negb_true_iff, eqb_neq, H.
Qed.

(** C2, as the specification words it, fails: a document whose version is
    the string ["8"], which is not the number 8, passes the check
    [glStyle.version != 8], and the constructor sets the style on the
    layer. *)
Lemma version_string_accepted :
  ~ is_eight (version string_version) /\
  exists closure s,
    stylefunction Sample.env Sample.empty_layer (StyleObject string_version)
      (SourceName "osm") None None false 0 Sample.empty_state
    = (Ok closure, s,
       {| ol_style := Some closure; ol_mapbox_source := Some None;
          ol_mapbox_layers := Some [] |}).
Proof.
  split; [simpl; tauto|]. eexists _, _. vm_compute. reflexivity.
Qed.

(** C2, amended. When the version of the document is not loosely equal to
    8 (the test [!=] of the source), the constructor throws, whether the
    document came as an object or as JSON text, and leaves the caches and
    the layer as they were: no style function is built and none is set. *)
Theorem stylefunction_version_check env olLayer glStyle g source resolutions
    spriteData spriteImage fuel s :
  (glStyle = StyleObject g \/
   exists json, glStyle = StyleString json /\ JSON_parse env json = Some g) ->
  loose_neq env (version g) 8 = true ->
  stylefunction env olLayer glStyle source resolutions spriteData spriteImage
    fuel s
  = (Throw "glStyle version 8 required.", s, olLayer).
Proof.
  intros [-> | (json & -> & Hparse)] Hneq; unfold stylefunction;
    rewrite ?Hparse, Hneq; reflexivity.
Qed.

Lemma stylefunction_version_check_witness :
  stylefunction Sample.env Sample.empty_layer
    (StyleObject {| version := VNum 7; layers := [] |})
    (SourceName "osm") None None false 0 Sample.empty_state
  = (Throw "glStyle version 8 required.", Sample.empty_state,
     Sample.empty_layer).
Proof.
  apply (stylefunction_version_check Sample.env Sample.empty_layer _
           {| version := VNum 7; layers := [] |}).
  - left. reflexivity.
  - vm_compute. reflexivity.
Defined.

(** ** The zoom range of a layer *)



(** The layer of the sample document at the three zooms of the
    specification's example: nothing at 4 and at 10, one style at 9.99. *)
Example zoom_range_sample :
  fst (layer_step Sample.env (Sample.closure_of [Sample.water]) Sample.lake
         4 Sample.water_data 1 0 Sample.empty_state) = Ok 0%nat /\
  fst (layer_step Sample.env (Sample.closure_of [Sample.water]) Sample.lake
         10 Sample.water_data 1 0 Sample.empty_state) = Ok 0%nat /\
  fst (layer_step Sample.env (Sample.closure_of [Sample.water]) Sample.lake
         (999 # 100) Sample.water_data 1 0 Sample.empty_state) = Ok 1%nat.
Proof. vm_compute. repeat split. Qed.

(** The zoom that a call resolves is a whole number: an index of
    [resolutions], or a rounded zoom. *)
Lemma resolve_zoom_whole env closure resolution :
  exists z : Z, resolve_zoom env closure resolution = inject_Z z.
Proof. unfold resolve_zoom. destruct (indexOf _ _); eauto. Qed.

(** ** The text shaper *)

Section WrapFacts.

Variable measure : jsstring -> Q.
Variable width : Q.

(** The width of a text is at least the width of each of its prefixes and
    of each of its suffixes. *)
Hypothesis prefix_width : forall x y, measure x <= measure (x ++ y).
Hypothesis suffix_width : forall x y, measure y <= measure (x ++ y).










End WrapFacts.






(** ** Running computations *)

Lemma bind_run {A B} (m : M A) (k : A -> M B) s a s' :
  m s = (Ok a, s') -> bind m k s = k a s'.
Proof. intros H. unfold bind. rewrite H. reflexivity. Qed.

Lemma bind_ok {A B} (m : M A) (k : A -> M B) s b s'' :
  bind m k s = (Ok b, s'') ->
  exists a s', m s = (Ok a, s') /\ k a s' = (Ok b, s'').
Proof.
  unfold bind. destruct (m s) as [[a| | |] s']; intros H; try discriminate.
  eauto.
Qed.

(** ** Property evaluation *)

(** The evaluator that [getValue] finds in [functionCache]. *)
Definition cached (s : State) (layerId property : string) : option Evaluator :=
  functionCache s !! layerId ≫= (.!! property).

Lemma getValue_hit env layer bg property zoom feature s f :
  cached s (layer_id layer) property = Some f ->
  getValue env layer bg property zoom feature s = (Ok (f zoom feature), s).
Proof.
  unfold cached. intros H.
  destruct (functionCache s !! layer_id layer) as [fs|] eqn:Hfs;
    [|discriminate]. simpl in H.
  unfold getValue, bind, modify, get_state, ret. rewrite Hfs.
  cbv beta iota zeta. rewrite Hfs. simpl. rewrite H. reflexivity.
Qed.

(** The cache after a first access that compiled [f]. *)
Definition stored (s : State) (layerId property : string) (f : Evaluator)
  : State :=
  set_functionCache
    (<[layerId := <[property := f]> (default ∅ (functionCache s !! layerId))]>
       (functionCache s)) s.

Lemma getValue_miss env layer bg property zoom feature s f :
  cached s (layer_id layer) property = None ->
  compile_property env layer bg property = Ok f ->
  getValue env layer bg property zoom feature s
  = (Ok (f zoom feature), stored s (layer_id layer) property f).
Proof.
  unfold cached, stored. intros H Hc.
  unfold getValue, bind, modify, get_state, ret.
  destruct (functionCache s !! layer_id layer) as [fs|] eqn:Hfs.
  - simpl in H. cbv beta iota zeta. rewrite Hfs. simpl. rewrite H, Hc.
    reflexivity.
  - cbv beta iota zeta. simpl. rewrite lookup_insert_eq. simpl.
    rewrite lookup_empty, Hc. simpl. rewrite insert_insert_eq. reflexivity.
Qed.

Lemma cached_stored s layerId property f layerId' property' :
  cached (stored s layerId property f) layerId' property'
  = if decide (layerId = layerId' /\ property = property') then Some f
    else cached s layerId' property'.
Proof.
  unfold cached, stored. simpl.
  destruct (decide (layerId = layerId')) as [<- | Hid].
  - rewrite lookup_insert_eq. simpl.
    destruct (decide (property = property')) as [<- | Hp].
    + rewrite lookup_insert_eq, decide_True by done. reflexivity.
    + rewrite lookup_insert_ne, decide_False by tauto.
      destruct (functionCache s !! layerId); reflexivity.
  - rewrite lookup_insert_ne, decide_False by tauto. reflexivity.
Qed.

Lemma getValue_fail env layer bg property zoom feature s :
  cached s (layer_id layer) property = None ->
  (forall f, compile_property env layer bg property <> Ok f) ->
  exists s',
    getValue env layer bg property zoom feature s
    = (match compile_property env layer bg property with
       | Ok f => Ok (f zoom feature)
       | Throw message => Throw message
       | Untyped => Untyped
       | Diverges => Diverges
       end, s') /\
    forall layerId' property',
      cached s' layerId' property' = cached s layerId' property'.
Proof.
  unfold cached. intros H Hc.
  unfold getValue, bind, modify, get_state, ret, throw, untyped, diverges.
  destruct (functionCache s !! layer_id layer) as [fs|] eqn:Hfs.
  - simpl in H. cbv beta iota zeta. rewrite Hfs. simpl. rewrite H.
    destruct (compile_property env layer bg property) as [f| | |];
      [by destruct (Hc f) | | |]; eexists; split; reflexivity.
  - cbv beta iota zeta. simpl. rewrite lookup_insert_eq. simpl.
    rewrite lookup_empty.
    destruct (compile_property env layer bg property) as [f| | |];
      [by destruct (Hc f) | | |]; (eexists; split; [reflexivity|]);
      intros layerId' property'; simpl;
      (destruct (decide (layer_id layer = layerId')) as [<- | Hne];
       [rewrite lookup_insert_eq, Hfs; reflexivity
       | rewrite lookup_insert_ne by done; reflexivity]).
Qed.

(** What [getValue] returns is decided by the cached evaluator, or by the
    compilation when there is none. *)
Lemma resolve_eq env layer bg property zoom feature s :
  resolve env layer bg property zoom feature s
  = match cached s (layer_id layer) property with
    | Some f => Ok (f zoom feature)
    | None =>
        match compile_property env layer bg property with
        | Ok f => Ok (f zoom feature)
        | Throw message => Throw message
        | Untyped => Untyped
        | Diverges => Diverges
        end
    end.
Proof.
  unfold resolve.
  destruct (cached s (layer_id layer) property) as [f|] eqn:Hc.
  - by rewrite (getValue_hit _ _ _ _ _ _ _ _ Hc).
  - destruct (compile_property env layer bg property) as [f| | |] eqn:Hf.
    + by rewrite (getValue_miss _ _ _ _ _ _ _ _ Hc Hf).
    + destruct (getValue_fail env layer bg property zoom feature s Hc)
        as (s' & -> & _); [congruence|]. by rewrite Hf.
    + destruct (getValue_fail env layer bg property zoom feature s Hc)
        as (s' & -> & _); [congruence|]. by rewrite Hf.
    + destruct (getValue_fail env layer bg property zoom feature s Hc)
        as (s' & -> & _); [congruence|]. by rewrite Hf.
Qed.

Lemma getValue_run env layer bg property zoom feature s :
  getValue env layer bg property zoom feature s
  = (resolve env layer bg property zoom feature s,
     warm env layer bg property zoom feature s).
Proof. unfold resolve, warm. by destruct (getValue _ _ _ _ _ _ _). Qed.

(** A call of [getValue] writes [functionCache] and nothing else. *)
Lemma warm_frame env layer bg property zoom feature s :
  exists cache,
    warm env layer bg property zoom feature s = set_functionCache cache s.
Proof.
  unfold warm, getValue, bind, modify, get_state, ret, throw, untyped,
    diverges.
  destruct (functionCache s !! layer_id layer) as [fs|] eqn:Hfs.
  - cbv beta iota zeta. rewrite Hfs. simpl.
    destruct (fs !! property); simpl.
    + exists (functionCache s). by destruct s.
    + destruct (compile_property env layer bg property); simpl;
        first [by eexists | exists (functionCache s); by destruct s].
  - cbv beta iota zeta. simpl. rewrite lookup_insert_eq. simpl.
    rewrite lookup_empty.
    destruct (compile_property env layer bg property); simpl; by eexists.
Qed.

(** It leaves the evaluators of the other properties as they were, and
    it never replaces one. *)
Lemma cached_warm env layer bg property zoom feature s layerId' property' f :
  cached s layerId' property' = Some f ->
  cached (warm env layer bg property zoom feature s) layerId' property'
  = Some f.
Proof.
  intros Hf. unfold warm.
  destruct (cached s (layer_id layer) property) as [g|] eqn:Hc.
  - by rewrite (getValue_hit _ _ _ _ _ _ _ _ Hc).
  - destruct (compile_property env layer bg property) as [g| | |] eqn:Hg.
    + rewrite (getValue_miss _ _ _ _ _ _ _ _ Hc Hg). simpl.
      rewrite cached_stored. case_decide as Heq; [|done].
      destruct Heq as [<- <-]. congruence.
    + destruct (getValue_fail env layer bg property zoom feature s Hc)
        as (s' & -> & Hs'); [congruence|]. simpl. by rewrite Hs'.
    + destruct (getValue_fail env layer bg property zoom feature s Hc)
        as (s' & -> & Hs'); [congruence|]. simpl. by rewrite Hs'.
    + destruct (getValue_fail env layer bg property zoom feature s Hc)
        as (s' & -> & Hs'); [congruence|]. simpl. by rewrite Hs'.
Qed.

Lemma cached_warm_other env layer bg property zoom feature s layerId'
    property' :
  property' <> property ->
  cached (warm env layer bg property zoom feature s) layerId' property'
  = cached s layerId' property'.
Proof.
  intros Hne. unfold warm.
  destruct (cached s (layer_id layer) property) as [g|] eqn:Hc.
  - by rewrite (getValue_hit _ _ _ _ _ _ _ _ Hc).
  - destruct (compile_property env layer bg property) as [g| | |] eqn:Hg.
    + rewrite (getValue_miss _ _ _ _ _ _ _ _ Hc Hg). simpl.
      rewrite cached_stored, decide_False; [done|]. intros [_ ?]. congruence.
    + destruct (getValue_fail env layer bg property zoom feature s Hc)
        as (s' & -> & Hs'); [congruence|]. simpl. by rewrite Hs'.
    + destruct (getValue_fail env layer bg property zoom feature s Hc)
        as (s' & -> & Hs'); [congruence|]. simpl. by rewrite Hs'.
    + destruct (getValue_fail env layer bg property zoom feature s Hc)
        as (s' & -> & Hs'); [congruence|]. simpl. by rewrite Hs'.
Qed.

Lemma resolve_warm_other env layer bg property zoom feature s layer' bg'
    property' zoom' feature' :
  property' <> property ->
  resolve env layer' bg' property' zoom' feature'
    (warm env layer bg property zoom feature s)
  = resolve env layer' bg' property' zoom' feature' s.
Proof.
  intros Hne. rewrite !resolve_eq, cached_warm_other by done. reflexivity.
Qed.

Lemma resolve_ext env layer bg property zoom feature s s' :
  functionCache s' = functionCache s ->
  resolve env layer bg property zoom feature s'
  = resolve env layer bg property zoom feature s.
Proof. intros H. rewrite !resolve_eq. unfold cached. by rewrite H. Qed.

(** ** Slots of the [styles] array *)

(** [styles[i]], with [None] for a hole and past the end. *)
Definition slot_of (s : State) (i : nat) : option Style :=
  mjoin (styles s !! i).

Lemma read_slot_run i s : read_slot i s = (Ok (slot_of s i), s).
Proof. reflexivity. Qed.

Lemma write_slot_run i style s :
  exists s',
    write_slot i style s = (Ok tt, s') /\
    slot_of s' i = Some style /\
    (forall j, j <> i -> slot_of s' j = slot_of s j) /\
    (exists l, s' = set_styles l s).
Proof.
  eexists. split; [reflexivity|]. unfold slot_of. simpl.
  split; [|split; [|by eexists]].
  - destruct (i <? length (styles s))%nat eqn:Hi.
    + apply Nat.ltb_lt in Hi. by rewrite list_lookup_insert_eq.
    + apply Nat.ltb_ge in Hi.
      rewrite lookup_app_r by lia.
      rewrite lookup_app_r by (rewrite length_replicate; lia).
      rewrite length_replicate.
      by replace (i - length (styles s) - (i - length (styles s)))%nat
        with 0%nat by lia.
  - intros j Hj. destruct (i <? length (styles s))%nat eqn:Hi.
    + by rewrite list_lookup_insert_ne.
    + apply Nat.ltb_ge in Hi.
      destruct (decide (j < length (styles s))%nat) as [Hlt | Hge].
      * by rewrite lookup_app_l.
      * rewrite lookup_app_r, (lookup_ge_None_2 (styles s)) by lia.
        destruct (decide (j - length (styles s) < i - length (styles s))%nat).
        -- rewrite lookup_app_l by (rewrite length_replicate; lia).
           by rewrite lookup_replicate_2.
        -- rewrite lookup_app_r by (rewrite length_replicate; lia).
           rewrite length_replicate.
           rewrite lookup_ge_None_2; [done|]. simpl. lia.
Qed.

Lemma push_styleId_run env zoom layerId s :
  exists ids, push_styleId env zoom layerId s = (Ok tt, set_styleIds ids s).
Proof.
  unfold push_styleId, modify. case_bool_decide.
  - exists (styleIds s). by destruct s.
  - by eexists.
Qed.

Lemma init_styleIds_run env zoom s :
  exists ids, init_styleIds env zoom s = (Ok tt, set_styleIds ids s).
Proof.
  unfold init_styleIds, modify.
  destruct (styleIds s !! ToString env (VNum zoom)).
  - exists (styleIds s). by destruct s.
  - by eexists.
Qed.

(** [claim_slot] returns the style that the slot holds afterwards: the
    one that was there, when its shape fits, or the fresh one. *)
Lemma claim_slot_run env n zoom layerId keeps fresh s :
  exists style s',
    claim_slot env n zoom layerId keeps fresh s = (Ok style, s') /\
    slot_of s' n = Some style /\
    (style = fresh \/ keeps style = true) /\
    (forall j, j <> n -> slot_of s' j = slot_of s j) /\
    (exists ids l, s' = set_styles l (set_styleIds ids s)).
Proof.
  unfold claim_slot.
  destruct (push_styleId_run env zoom layerId s) as (ids & Hpush).
  rewrite (bind_run _ _ _ _ _ Hpush).
  rewrite (bind_run _ _ _ _ _ (read_slot_run n _)).
  change (slot_of (set_styleIds ids s) n) with (slot_of s n).
  destruct (slot_of s n) as [style|] eqn:Hslot.
  - destruct (keeps style) eqn:Hkeeps.
    + exists style, (set_styleIds ids s). repeat split; auto.
      exists ids, (styles s). by destruct s.
    + destruct (write_slot_run n fresh (set_styleIds ids s))
        as (s' & Hw & Hn & Hother & l & ->).
      rewrite (bind_run _ _ _ _ _ Hw).
      exists fresh, (set_styles l (set_styleIds ids s)).
      repeat split; eauto.
  - destruct (write_slot_run n fresh (set_styleIds ids s))
      as (s' & Hw & Hn & Hother & l & ->).
    rewrite (bind_run _ _ _ _ _ Hw).
    exists fresh, (set_styles l (set_styleIds ids s)).
    repeat split; eauto.
Qed.



Lemma getValue_ok env layer bg property zoom feature s v :
  resolve env layer bg property zoom feature s = Ok v ->
  getValue env layer bg property zoom feature s
  = (Ok v, warm env layer bg property zoom feature s).
Proof. intros H. by rewrite getValue_run, H. Qed.

Section Frames.

Context (env : Env) (layer : Layer) (bg : Bag) (property : string)
  (zoom : Q) (feature : FeatureArg).

Let resolve_ := resolve env layer bg property zoom feature.

Lemma resolve_set_filterCache c s :
  resolve_ (set_filterCache c s) = resolve_ s.
Proof. by apply resolve_ext. Qed.

Lemma resolve_set_fontMap c s : resolve_ (set_fontMap c s) = resolve_ s.
Proof. by apply resolve_ext. Qed.

Lemma resolve_set_measureCache c s :
  resolve_ (set_measureCache c s) = resolve_ s.
Proof. by apply resolve_ext. Qed.

Lemma resolve_set_iconImageCache c s :
  resolve_ (set_iconImageCache c s) = resolve_ s.
Proof. by apply resolve_ext. Qed.

Lemma resolve_set_patternCache c s :
  resolve_ (set_patternCache c s) = resolve_ s.
Proof. by apply resolve_ext. Qed.

Lemma resolve_set_styles l s : resolve_ (set_styles l s) = resolve_ s.
Proof. by apply resolve_ext. Qed.

Lemma resolve_set_heap h n s : resolve_ (set_heap h n s) = resolve_ s.
Proof. by apply resolve_ext. Qed.

Lemma resolve_set_styleIds ids s : resolve_ (set_styleIds ids s) = resolve_ s.
Proof. by apply resolve_ext. Qed.

End Frames.

Lemma slot_of_warm env layer bg property zoom feature s i :
  slot_of (warm env layer bg property zoom feature s) i = slot_of s i.
Proof.
  destruct (warm_frame env layer bg property zoom feature s) as (c & ->).
  reflexivity.
Qed.

(** Resolving at a later state of the pass what is known at its start. *)
Ltac resolve_back :=
  repeat first
    [ rewrite resolve_warm_other by discriminate
    | rewrite resolve_set_filterCache
    | rewrite resolve_set_fontMap
    | rewrite resolve_set_measureCache
    | rewrite resolve_set_iconImageCache
    | rewrite resolve_set_patternCache
    | rewrite resolve_set_styles
    | rewrite resolve_set_heap
    | rewrite resolve_set_styleIds ].

(** One [getValue] of a sequence, for a property whose value at the start
    of the pass is a hypothesis. *)
Ltac run_getValue :=
  erewrite bind_run by (apply getValue_ok; resolve_back; eassumption).

(** ** The fill of a polygon *)

Lemma bind_assoc {A B C} (m : M A) (k : A -> M B) (k' : B -> M C) s :
  bind (bind m k) k' s = bind m (fun a => bind (k a) k') s.
Proof. unfold bind. by destruct (m s) as [[] ?]. Qed.







(** ** The stroke of a line *)

(** A computation that leaves [R]-related states, whatever its outcome. *)
Definition frames {A} (R : State -> State -> Prop) (m : M A) : Prop :=
  forall s, R s (snd (m s)).

Lemma frames_bind {A B} (R : State -> State -> Prop) (m : M A) (k : A -> M B) :
  (forall s1 s2 s3, R s1 s2 -> R s2 s3 -> R s1 s3) ->
  frames R m -> (forall a, frames R (k a)) -> frames R (bind m k).
Proof.
  intros Htrans Hm Hk s. unfold bind. specialize (Hm s).
  destruct (m s) as [[a| | |] s1]; simpl in *; try assumption.
  eapply Htrans; [exact Hm | apply Hk].
Qed.

Lemma frames_pure {A} (R : State -> State -> Prop) (m : M A) :
  (forall s, R s s) -> (forall s, snd (m s) = s) -> frames R m.
Proof. intros Hrefl Hm s. rewrite Hm. apply Hrefl. Qed.

(** The line step keeps the [styles] array and the value of [line-width]. *)
Definition line_frame env layer zoom feature (s s' : State) : Prop :=
  styles s' = styles s /\
  resolve env layer paint_bag "line-width" zoom feature s'
  = resolve env layer paint_bag "line-width" zoom feature s.

Lemma line_frame_getValue env layer zoom feature bg property zoom' feature' :
  property <> "line-width" ->
  frames (line_frame env layer zoom feature)
    (getValue env layer bg property zoom' feature').
Proof.
  intros Hne s. fold (warm env layer bg property zoom' feature' s). split.
  - destruct (warm_frame env layer bg property zoom' feature' s) as (c & ->).
    reflexivity.
  - apply resolve_warm_other. congruence.
Qed.

Lemma colorWithOpacityV_pure color opacity s :
  snd (colorWithOpacityV color opacity s) = s.
Proof.
  unfold colorWithOpacityV, as_color, bind, ret, untyped.
  destruct color; simpl; try reflexivity; destruct opacity; reflexivity.
Qed.

Lemma scale_dashes_numbers dashes width s :
  scale_dashes (VArr (map VNum dashes)) width s
  = (Ok (map (fun d => d * width) dashes), s).
Proof.
  unfold scale_dashes.
  assert (H : mapM (fun x => match x with
                             | VNum q => Some (q * width)
                             | _ => None
                             end) (map VNum dashes)
              = Some (map (fun d => d * width) dashes)).
  { induction dashes as [|d rest IH]; [reflexivity|].
    cbn [map mapM]. rewrite IH. reflexivity. }
  rewrite H. reflexivity.
Qed.

Lemma line_frame_trans env layer zoom feature s1 s2 s3 :
  line_frame env layer zoom feature s1 s2 ->
  line_frame env layer zoom feature s2 s3 ->
  line_frame env layer zoom feature s1 s3.
Proof. intros [H1 H2] [H3 H4]. split; congruence. Qed.

(** The colour of the line, the first statement of the line step. *)
Definition line_color env feature zoom layerData : M (option Rgba) :=
  let type := types (geometryType feature) in
  let f := ArgView {| fv_properties := properties feature; fv_type := type |} in
  let paint := bag_of (layer layerData) paint_bag in
  if negb (has_key paint "line-pattern") && has_key paint "line-color"
  then
    (lineColor <- getValue env (layer layerData) paint_bag "line-color" zoom f ;;
     lineOpacity <-
       getValue env (layer layerData) paint_bag "line-opacity" zoom f ;;
     colorWithOpacityV lineColor lineOpacity)%M
  else ret None.

Lemma line_color_frames env feature zoom layerData :
  frames (line_frame env (layer layerData) zoom
            (ArgView {| fv_properties := properties feature;
                        fv_type := types (geometryType feature) |}))
    (line_color env feature zoom layerData).
Proof.
  unfold line_color.
  destruct (negb _ && _).
  - apply frames_bind; [apply line_frame_trans | |intros lineColor].
    { by apply line_frame_getValue. }
    apply frames_bind; [apply line_frame_trans | |intros lineOpacity].
    { by apply line_frame_getValue. }
    apply frames_pure; [by split | apply colorWithOpacityV_pure].
  - apply frames_pure; [by split | reflexivity].
Qed.

Lemma line_nothing env feature zoom layerData n s :
  (has_key (bag_of (layer layerData) paint_bag) "line-pattern" = true \/
   exists w,
     resolve env (layer layerData) paint_bag "line-width" zoom
       (ArgView {| fv_properties := properties feature;
                   fv_type := types (geometryType feature) |}) s
     = Ok (VNum w) /\ w <= 0) ->
  styles (snd (emit_line env feature zoom layerData n s)) = styles s /\
  (forall n', fst (emit_line env feature zoom layerData n s) = Ok n' -> n' = n).
Proof.
  intros Hcase.
  remember (emit_line env feature zoom layerData n s) as run eqn:Hrun.
  unfold emit_line in Hrun.
  destruct (negb (type_is _ 1) && _);
    [|subst run; split; [reflexivity | intros n' Hn; simpl in Hn; congruence]].
  fold (line_color env feature zoom layerData) in Hrun.
  pose proof (line_color_frames env feature zoom layerData s) as [Hst Hw].
  unfold bind at 1 in Hrun.
  destruct (line_color env feature zoom layerData s) as [[color| | |] s1] eqn:Hc;
    simpl in Hst, Hw; try (subst run; split; [assumption | discriminate]).
  unfold bind at 1 in Hrun. rewrite getValue_run in Hrun.
  assert (Hstyles :
            styles (warm env (layer layerData) paint_bag "line-width" zoom
                      (ArgView {| fv_properties := properties feature;
                                  fv_type := types (geometryType feature) |})
                      s1) = styles s).
  { destruct (warm_frame env (layer layerData) paint_bag "line-width" zoom
                (ArgView {| fv_properties := properties feature;
                            fv_type := types (geometryType feature) |}) s1)
      as (c & ->).
    exact Hst. }
  destruct (resolve env (layer layerData) paint_bag "line-width" zoom _ s1)
    as [width| | |] eqn:Hwidth;
    try (subst run; split; [assumption | discriminate]).
  destruct color as [c|];
    [|subst run; split; [assumption | intros n' Hn; simpl in Hn; congruence]].
  destruct Hcase as [Hpattern | (w & Hres & Hle)].
  - exfalso. unfold line_color in Hc. rewrite Hpattern in Hc. discriminate.
  - assert (width = VNum w) as -> by congruence.
    unfold bind at 1 in Hrun. cbn [as_num ret] in Hrun.
    rewrite (gtb_le_false _ _ Hle) in Hrun.
    subst run; split; [assumption | intros n' Hn; simpl in Hn; congruence].
Qed.

Lemma line_stroke env feature zoom layerData n s col o c w cap join miter
    dashes :
  types (geometryType feature) <> Some 1%nat ->
  layer_type (layer layerData) = "line" ->
  has_key (bag_of (layer layerData) paint_bag) "line-pattern" = false ->
  has_key (bag_of (layer layerData) paint_bag) "line-color" = true ->
  raw_truthy (bag_of (layer layerData) paint_bag) "line-dasharray" = true ->
  resolve env (layer layerData) paint_bag "line-color" zoom
    (ArgView {| fv_properties := properties feature;
                fv_type := types (geometryType feature) |}) s
  = Ok (VColor col) ->
  resolve env (layer layerData) paint_bag "line-opacity" zoom
    (ArgView {| fv_properties := properties feature;
                fv_type := types (geometryType feature) |}) s
  = Ok (VNum o) ->
  resolve env (layer layerData) paint_bag "line-width" zoom
    (ArgView {| fv_properties := properties feature;
                fv_type := types (geometryType feature) |}) s
  = Ok (VNum w) ->
  resolve env (layer layerData) layout_bag "line-cap" zoom
    (ArgView {| fv_properties := properties feature;
                fv_type := types (geometryType feature) |}) s
  = Ok cap ->
  resolve env (layer layerData) layout_bag "line-join" zoom
    (ArgView {| fv_properties := properties feature;
                fv_type := types (geometryType feature) |}) s
  = Ok join ->
  resolve env (layer layerData) layout_bag "line-miter-limit" zoom
    (ArgView {| fv_properties := properties feature;
                fv_type := types (geometryType feature) |}) s
  = Ok miter ->
  resolve env (layer layerData) paint_bag "line-dasharray" zoom
    (ArgView {| fv_properties := properties feature;
                fv_type := types (geometryType feature) |}) s
  = Ok (VArr (map VNum dashes)) ->
  colorWithOpacity (Some col) (Some o) = Some c ->
  0 < w ->
  exists s' style stroke,
    emit_line env feature zoom layerData n s = (Ok (S n), s') /\
    slot_of s' n = Some style /\
    style_stroke style = Some stroke /\
    stroke_color stroke = Some (Css c) /\
    stroke_width stroke = Some w /\
    stroke_lineDash stroke = Some (map (fun d => d * w) dashes).
Proof.
  intros Htype Hline Hpattern Hcolor Hdash Hc Ho Hw Hcap Hjoin Hmiter Hd
    Hvis Hpos.
  unfold emit_line. rewrite Hline, Hpattern, Hcolor, Hdash.
  replace (type_is (types (geometryType feature)) 1) with false.
  2:{ symmetry. by apply bool_decide_eq_false. }
  change (negb false && ("line" =? "line")%string) with true.
  cbv beta iota. cbn [negb andb].
  rewrite ?bind_assoc. run_getValue. rewrite ?bind_assoc. run_getValue.
  rewrite ?bind_assoc. erewrite bind_run by reflexivity. rewrite Hvis.
  run_getValue. cbv beta iota. erewrite bind_run by reflexivity.
  rewrite (proj2 (gtb_gt w 0) Hpos).
  match goal with |- context [bind (claim_slot _ _ _ _ _ _) _ ?st] =>
    destruct (claim_slot_run env n zoom (layer_id (layer layerData))
                keeps_stroke (new_Style None (Some new_Stroke)) st)
      as (style & s1 & Hclaim & _ & _ & _ & ids & l & Hs1)
  end.
  rewrite (bind_run _ _ _ _ _ Hclaim). subst s1.
  run_getValue. run_getValue. run_getValue.
  rewrite ?bind_assoc. run_getValue.
  rewrite ?bind_assoc.
  erewrite bind_run by apply scale_dashes_numbers.
  erewrite bind_run by reflexivity.
  match goal with |- context [bind (write_slot n ?w) _ ?st] =>
    destruct (write_slot_run n w st) as (s2 & Hwrite & Hn & _ & _)
  end.
  rewrite (bind_run _ _ _ _ _ Hwrite).
  eexists _, _, _. split; [reflexivity|]. split; [exact Hn|].
  repeat split.
Qed.

(** C4. In the line step of a pass: when the paint has [line-pattern], no
    stroke is emitted, the [styles] array and the count of styles stay as
    they were; the same holds when the resolved [line-width] is at most 0;
    and when the stroke is emitted for a line or polygon and the paint has
    a [line-dasharray], each entry of the dash array is multiplied by the
    resolved width. *)
Theorem line_emission env feature zoom layerData n s :
  (has_key (bag_of (layer layerData) paint_bag) "line-pattern" = true ->
   styles (snd (emit_line env feature zoom layerData n s)) = styles s /\
   (forall n', fst (emit_line env feature zoom layerData n s) = Ok n' ->
               n' = n)) /\
  (forall w,
     resolve env (layer layerData) paint_bag "line-width" zoom
       (ArgView {| fv_properties := properties feature;
                   fv_type := types (geometryType feature) |}) s
     = Ok (VNum w) ->
     w <= 0 ->
     styles (snd (emit_line env feature zoom layerData n s)) = styles s /\
     (forall n', fst (emit_line env feature zoom layerData n s) = Ok n' ->
                 n' = n)) /\
  (forall col o c w cap join miter dashes,
     types (geometryType feature) <> Some 1%nat ->
     layer_type (layer layerData) = "line" ->
     has_key (bag_of (layer layerData) paint_bag) "line-pattern" = false ->
     has_key (bag_of (layer layerData) paint_bag) "line-color" = true ->
     raw_truthy (bag_of (layer layerData) paint_bag) "line-dasharray" = true ->
     resolve env (layer layerData) paint_bag "line-color" zoom
       (ArgView {| fv_properties := properties feature;
                   fv_type := types (geometryType feature) |}) s
     = Ok (VColor col) ->
     resolve env (layer layerData) paint_bag "line-opacity" zoom
       (ArgView {| fv_properties := properties feature;
                   fv_type := types (geometryType feature) |}) s
     = Ok (VNum o) ->
     resolve env (layer layerData) paint_bag "line-width" zoom
       (ArgView {| fv_properties := properties feature;
                   fv_type := types (geometryType feature) |}) s
     = Ok (VNum w) ->
     resolve env (layer layerData) layout_bag "line-cap" zoom
       (ArgView {| fv_properties := properties feature;
                   fv_type := types (geometryType feature) |}) s
     = Ok cap ->
     resolve env (layer layerData) layout_bag "line-join" zoom
       (ArgView {| fv_properties := properties feature;
                   fv_type := types (geometryType feature) |}) s
     = Ok join ->
     resolve env (layer layerData) layout_bag "line-miter-limit" zoom
       (ArgView {| fv_properties := properties feature;
                   fv_type := types (geometryType feature) |}) s
     = Ok miter ->
     resolve env (layer layerData) paint_bag "line-dasharray" zoom
       (ArgView {| fv_properties := properties feature;
                   fv_type := types (geometryType feature) |}) s
     = Ok (VArr (map VNum dashes)) ->
     colorWithOpacity (Some col) (Some o) = Some c ->
     0 < w ->
     exists s' style stroke,
       emit_line env feature zoom layerData n s = (Ok (S n), s') /\
       slot_of s' n = Some style /\
       style_stroke style = Some stroke /\
       stroke_color stroke = Some (Css c) /\
       stroke_width stroke = Some w /\
       stroke_lineDash stroke = Some (map (fun d => d * w) dashes)).
Proof.
  split; [|split].
  - intros Hpattern. apply line_nothing. by left.
  - intros w Hw Hle. apply line_nothing. right. eauto.
  - intros. eapply line_stroke; eassumption.
Qed.

Lemma line_emission_witness :
  exists s' style stroke,
    emit_line Sample.env Sample.street 7 Sample.road_data 0 Sample.empty_state
    = (Ok 1%nat, s') /\
    slot_of s' 0 = Some style /\
    style_stroke style = Some stroke /\
    stroke_width stroke = Some 2 /\
    stroke_lineDash stroke = Some [2 * 2; 1 * 2].
Proof.
  destruct (line_emission Sample.env Sample.street 7 Sample.road_data 0
              Sample.empty_state) as (_ & _ & H).
  destruct (H {| r := 0; g := 0; b := 0; a := 1 |} 1
              {| red := 0; green := 0; blue := 0; alpha := 1 * 1 |} 2
              (VStr (str "butt")) (VStr (str "miter")) (VNum 2) [2; 1])
    as (s' & style & stroke & Hrun & Hslot & Hstroke & _ & Hwidth & Hdash);
    try reflexivity; try discriminate.
  exists s', style, stroke. repeat split; assumption.
Defined.

(** ** The circle of a point *)



Lemma allocate_run image s :
  allocate image s
  = (Ok (next_address s),
     set_heap (<[next_address s := image]> (heap s)) (S (next_address s)) s).
Proof. reflexivity. Qed.







(** C5 does not hold of the code. The circle step builds a key and looks
    it up in [iconImageCache], but it never stores the circle that it
    builds, as the icon step does with its icon. Two calls for the same
    point with the same resolved parameters end with two circles, at the
    addresses 0 and 1 of the heap, equal in content, and with an empty
    [iconImageCache]. *)
Lemma circle_rebuilt_on_second_call :
  exists first second,
    fst Sample.first_call = Ok (Some [Some first]) /\
    fst Sample.second_call = Ok (Some [Some second]) /\
    style_image first = Some 0%nat /\
    style_image second = Some 1%nat /\
    heap (snd Sample.second_call) !! 0%nat
    = Some (Circle 4 None
              {| fill_color :=
                   Some (Css {| red := 255; green := 0; blue := 0;
                                alpha := 1 |}) |}) /\
    heap (snd Sample.second_call) !! 1%nat
    = heap (snd Sample.second_call) !! 0%nat /\
    iconImageCache (snd Sample.second_call) = ∅.
Proof. eexists _, _. vm_compute. repeat split. Qed.

(** * Further properties of the code *)

(** ** The caches of evaluators and of filters *)

Lemma resolve_ok_cached env layer bg property zoom feature s v :
  resolve env layer bg property zoom feature s = Ok v ->
  exists f, v = f zoom feature /\
    cached (warm env layer bg property zoom feature s) (layer_id layer)
      property = Some f.
Proof.
  intros Hv. rewrite resolve_eq in Hv. unfold warm.
  destruct (cached s (layer_id layer) property) as [f|] eqn:Hc.
  - exists f. rewrite (getValue_hit _ _ _ _ _ _ _ _ Hc).
    injection Hv as <-. split; [reflexivity | exact Hc].
  - destruct (compile_property env layer bg property) as [f| | |] eqn:Hf;
      try discriminate.
    exists f. rewrite (getValue_miss _ _ _ _ _ _ _ _ Hc Hf).
    injection Hv as <-. split; [reflexivity|].
    cbn [snd]. rewrite cached_stored. by rewrite decide_True.
Qed.

(** X1. [functionCache] is keyed by the id of the layer and the name of
    the property and by nothing else: once [getValue] has returned, every
    later call for a layer with the same id and for the same property
    evaluates the function that the first call left there, whatever the
    layer object and whether the property is asked from [layout] or from
    [paint], and leaves the state as it is. *)
Theorem getValue_keyed_by_id env layer bg property zoom feature s v s' :
  getValue env layer bg property zoom feature s = (Ok v, s') ->
  exists evaluate,
    v = evaluate zoom feature /\
    forall layer' bg' zoom' feature',
      layer_id layer' = layer_id layer ->
      getValue env layer' bg' property zoom' feature' s'
      = (Ok (evaluate zoom' feature'), s').
Proof.
  intros Hrun. rewrite getValue_run in Hrun. injection Hrun as Hv <-.
  destruct (resolve_ok_cached _ _ _ _ _ _ _ _ Hv) as (evaluate & -> & Hc).
  exists evaluate. split; [reflexivity|].
  intros layer' bg' zoom' feature' Hid. apply getValue_hit. by rewrite Hid.
Qed.

Lemma getValue_keyed_by_id_witness :
  exists evaluate,
    forall layer' bg' zoom' feature',
      layer_id layer' = "water" ->
      getValue Sample.env layer' bg' "fill-color" zoom' feature'
        (snd (getValue Sample.env Sample.water paint_bag "fill-color" 7
                (ArgProps ∅) Sample.empty_state))
      = (Ok (evaluate zoom' feature'),
         snd (getValue Sample.env Sample.water paint_bag "fill-color" 7
                (ArgProps ∅) Sample.empty_state)).
Proof.
  destruct (getValue_keyed_by_id Sample.env Sample.water paint_bag "fill-color"
              7 (ArgProps ∅) Sample.empty_state
              (VColor {| r := 1; g := 0; b := 0; a := 1 |})
              (snd (getValue Sample.env Sample.water paint_bag "fill-color" 7
                      (ArgProps ∅) Sample.empty_state)))
    as (evaluate & _ & H).
  - vm_compute. reflexivity.
  - exists evaluate. exact H.
Defined.







(** ** Fonts *)







(** ** Icons and patterns *)

(** X7. An icon is built once: when [icon_for] has returned an image for
    a key, every later lookup of the key returns this image, builds
    nothing and leaves the state as it is. (The circle of [circle_for] is
    built again, since it is not stored.) *)
Theorem icon_for_reuses key build s iconImg s' :
  icon_for key build s = (Ok iconImg, s') ->
  iconImageCache s' !! key = Some iconImg /\
  forall build', icon_for key build' s' = (Ok iconImg, s') /\
                 circle_for key build' s' = (Ok iconImg, s').
Proof.
  intros Hrun. unfold icon_for, circle_for in *.
  rewrite (bind_run _ _ _ _ _ (eq_refl : get_state s = _)) in Hrun.
  assert (Hkey : iconImageCache s' !! key = Some iconImg).
  { destruct (iconImageCache s !! key) as [cachedImg|] eqn:Hc.
    - injection Hrun as <- <-. exact Hc.
    - apply bind_ok in Hrun as (a & s1 & Hrun & Hstore).
      injection Hstore as <- <-. cbn [iconImageCache set_iconImageCache].
      apply lookup_insert_eq. }
  split; [exact Hkey|]. intros build'.
  rewrite !(bind_run _ _ _ _ _ (eq_refl : get_state s' = _)).
  by rewrite Hkey.
Qed.

Lemma icon_for_reuses_witness :
  icon_for (str "dot") (throw "not built")
    (snd (icon_for (str "dot")
            (allocate (Icon (str "dot") false (VStr (str "center"))
                         (0, 0) (1, 1) 1 None None))
            Sample.empty_state))
  = (Ok 0%nat,
     snd (icon_for (str "dot")
            (allocate (Icon (str "dot") false (VStr (str "center"))
                         (0, 0) (1, 1) 1 None None))
            Sample.empty_state)).
Proof.
  apply (icon_for_reuses (str "dot")
           (allocate (Icon (str "dot") false (VStr (str "center"))
                        (0, 0) (1, 1) 1 None None))
           Sample.empty_state 0%nat).
  reflexivity.
Defined.

(** ** Templates *)





Lemma match_close_parts s name after :
  match_close s = Some (name, after) -> s = name ++ 125%N :: after.
Proof.
  revert name after. induction s as [|c rest IH]; intros name after;
    cbn [match_close]; [discriminate|].
  destruct (is_line_terminator c); [discriminate|].
  destruct (match_close rest) as [[name' after']|].
  - intros [= <- <-]. cbn [app]. f_equal. by apply IH.
  - destruct (N.eqb_spec c 125) as [-> | _]; [|discriminate].
    by intros [= <- <-].
Qed.

Lemma match_template_parts s before name after :
  match_template s = Some (before, name, after) ->
  s = before ++ 123%N :: name ++ 125%N :: after.
Proof.
  revert before name after. induction s as [|c rest IH];
    intros before name after; cbn [match_template]; [discriminate|].
  destruct (match_template rest) as [[[before' name'] after']|].
  - intros [= <- <- <-]. cbn [app]. f_equal. by apply IH.
  - destruct (N.eqb_spec c 123) as [-> | _]; [|discriminate].
    destruct (match_close rest) as [[name' after']|] eqn:Hclose;
      [|discriminate].
    intros [= <- <- <-]. cbn [app]. f_equal. by apply match_close_parts.
Qed.

Lemma match_close_none s : 125%N ∉ s -> match_close s = None.
Proof.
  induction s as [|c rest IH]; intros Hno; cbn [match_close]; [reflexivity|].
  destruct (is_line_terminator c); [reflexivity|].
  rewrite IH by (intros Hin; apply Hno; by right).
  destruct (N.eqb_spec c 125) as [-> | _]; [|reflexivity].
  exfalso. apply Hno. left.
Qed.

Lemma match_template_none s : 123%N ∉ s -> match_template s = None.
Proof.
  induction s as [|c rest IH]; intros Hno; cbn [match_template];
    [reflexivity|].
  rewrite IH by (intros Hin; apply Hno; by right).
  destruct (N.eqb_spec c 123) as [-> | _]; [|reflexivity].
  exfalso. apply Hno. left.
Qed.

(** X8. A text without an opening brace, or without a closing brace, has
    no placeholder: [fromTemplate] returns it as it is, after one turn of
    its loop. *)
Theorem fromTemplate_plain env fuel text properties :
  123%N ∉ text \/ 125%N ∉ text ->
  fromTemplate env (S fuel) text properties = Some text.
Proof.
  intros Hno. cbn [fromTemplate].
  destruct (match_template text) as [[[before name] after]|] eqn:Hmatch;
    [|reflexivity].
  apply match_template_parts in Hmatch. exfalso.
  destruct Hno as [Hno | Hno]; apply Hno; rewrite Hmatch; set_solver.
Qed.

Lemma fromTemplate_plain_witness :
  fromTemplate Sample.env 1 (str "Main Street") ∅ = Some (str "Main Street").
Proof.
  apply (fromTemplate_plain Sample.env 0 (str "Main Street") ∅).
  left. apply (proj1 (bool_decide_eq_false _)). vm_compute. reflexivity.
Defined.



Lemma match_close_last name after :
  Forall (fun c => is_line_terminator c = false) name ->
  125%N ∉ after ->
  match_close (name ++ 125%N :: after) = Some (name, after).
Proof.
  intros Hname Hafter. induction Hname as [|c name Hc _ IH];
    cbn [app match_close].
  - rewrite (match_close_none after Hafter). reflexivity.
  - by rewrite Hc, IH.
Qed.

Lemma match_template_last before name after :
  123%N ∉ name -> 123%N ∉ after ->
  Forall (fun c => is_line_terminator c = false) name ->
  125%N ∉ after ->
  match_template (before ++ 123%N :: name ++ 125%N :: after)
  = Some (before, name, after).
Proof.
  intros Hname Hafter Hline Hclose.
  induction before as [|c before IH]; cbn [app match_template].
  - rewrite match_template_none by set_solver.
    cbn. by rewrite match_close_last.
  - by rewrite IH.
Qed.



(** ** Resolutions and zoom *)

Lemma indexOf_first l i x :
  l !! i = Some x ->
  (forall j y, (j < i)%nat -> l !! j = Some y -> ~ y == x) ->
  indexOf l x = Some i.
Proof.
  revert i. induction l as [|y l IH]; intros i Hi Hbefore; [done|].
  cbn [indexOf]. destruct i as [|i].
  - injection Hi as ->. by rewrite (proj2 (eqb_eq x x) (Qeq_refl x)).
  - rewrite (proj2 (eqb_neq y x)) by (apply (Hbefore 0%nat); [lia | done]).
    rewrite (IH i); [reflexivity | exact Hi |].
    intros j z Hj Hz. apply (Hbefore (S j)); [lia | exact Hz].
Qed.

(** X11. The zoom of a resolution that is listed in [resolutions] is the
    index of its first occurrence: a resolution that no earlier entry is
    equal to resolves to its own index, without interpolation. *)
Theorem resolve_zoom_listed env closure i resolution :
  resolutions closure !! i = Some resolution ->
  (forall j other, (j < i)%nat -> resolutions closure !! j = Some other ->
     ~ other == resolution) ->
  resolve_zoom env closure resolution = inject_Z (Z.of_nat i).
Proof.
  intros Hi Hbefore. unfold resolve_zoom.
  by rewrite (indexOf_first _ _ _ Hi Hbefore).
Qed.

Lemma resolve_zoom_listed_witness :
  resolve_zoom Sample.env
    {| resolutions := [8; 4; 2; 1]; spriteData := None; spriteImage := false;
       layersBySourceLayer := ∅; fuel := 0 |} 2
  = inject_Z 2.
Proof.
  apply (resolve_zoom_listed Sample.env
           {| resolutions := [8; 4; 2; 1]; spriteData := None;
              spriteImage := false; layersBySourceLayer := ∅; fuel := 0 |}
           2 2).
  - reflexivity.
  - intros j other Hj Hother.
    destruct j as [|[|j]]; [| |lia]; injection Hother as <-; discriminate.
Defined.

Lemma default_resolutions_index z resolution :
  default_resolutions !! z = Some resolution ->
  indexOf default_resolutions resolution = Some z.
Proof.
  intros H.
  do 21 (destruct z as [|z]; [injection H as <-; vm_compute; reflexivity|]).
  vm_compute in H. discriminate.
Qed.

(** X12. A style function that is built without [resolutions] uses the
    21 resolutions of the default pyramid, from 78271.51696402048 halved
    at each level, and each of them resolves to its level: zoom and
    resolution of the default pyramid go back and forth. *)
Theorem default_zoom_round_trip env olLayer glStyle source spriteData
    spriteImage fuel s closure s' olLayer' :
  stylefunction env olLayer glStyle source None spriteData spriteImage fuel s
  = (Ok closure, s', olLayer') ->
  length (resolutions closure) = 21%nat /\
  resolutions closure !! 0%nat = Some (7827151696402048 # 100000000000) /\
  (forall z r r', resolutions closure !! z = Some r ->
     resolutions closure !! S z = Some r' -> r' = r / 2) /\
  (forall z r, resolutions closure !! z = Some r ->
     resolve_zoom env closure r = inject_Z (Z.of_nat z)).
Proof.
  unfold stylefunction. cbn [default from_option id].
  destruct (match glStyle with
            | StyleObject g => Some g
            | StyleString json => JSON_parse env json
            end) as [doc|]; [|discriminate].
  destruct (loose_neq env (version doc) 8); [discriminate|].
  destruct (group_layers _ _ _ _ _ _) as [g s1]. intros [= <- _ _].
  cbn [resolutions]. split; [reflexivity|]. split; [reflexivity|].
  split.
  - intros z r r' Hz Hz'.
    do 20 (destruct z as [|z];
           [injection Hz as <-; injection Hz' as <-; reflexivity|]).
    vm_compute in Hz'. destruct z; discriminate.
  - intros z r Hz. unfold resolve_zoom. cbn [resolutions].
    by rewrite (default_resolutions_index z r Hz).
Qed.

Lemma default_zoom_round_trip_witness :
  resolve_zoom Sample.env (Sample.closure_of [Sample.water])
    ((7827151696402048 # 100000000000) / 2 / 2 / 2)
  = inject_Z 3.
Proof.
  refine (proj2 (proj2 (proj2
    (default_zoom_round_trip Sample.env Sample.empty_layer
       (StyleObject {| version := VNum 8; layers := [Sample.water] |})
       (SourceName "osm") None false 8 Sample.empty_state
       (Sample.closure_of [Sample.water])
       (snd (fst (stylefunction Sample.env Sample.empty_layer
                    (StyleObject {| version := VNum 8;
                                    layers := [Sample.water] |})
                    (SourceName "osm") None None false 8
                    Sample.empty_state)))
       (snd (stylefunction Sample.env Sample.empty_layer
               (StyleObject {| version := VNum 8;
                               layers := [Sample.water] |})
               (SourceName "osm") None None false 8 Sample.empty_state))
       _))) 3%nat _ _).
  - vm_compute. reflexivity.
  - reflexivity.
Defined.

(** ** The constructor *)

(** The document that the constructor reads. *)
Definition document (env : Env) (glStyle : GlStyleArg) : option GlStyle :=
  match glStyle with
  | StyleObject g => Some g
  | StyleString json => JSON_parse env json
  end.












(** ** The result of the style function *)


(** ** Icon anchors *)

(** X16. The anchor origin that [covertIconAnchor] returns: the four
    side keywords [left], [right], [bottom] and [top] become [top-left],
    and every other value, the corners and [center] among them, is handed
    back as it came. *)
Theorem covertIconAnchor_origin v :
  iconAnchor (covertIconAnchor v)
  = if is_str v "left" || is_str v "right" || is_str v "bottom"
       || is_str v "top"
    then VStr (str "top-left") else v.
Proof.
  assert (Hplain : is_str v "left" = false -> is_str v "right" = false ->
                   is_str v "bottom" = false -> is_str v "top" = false ->
                   iconAnchor (covertIconAnchor v) = v).
  { intros Hleft Hright Hbottom Htop.
    destruct (is_corner_anchor v) eqn:Hcorner;
      repeat (progress
        (cbv beta zeta iota delta [covertIconAnchor iconAnchor anchorOffset];
         rewrite ?Hcorner, ?Hleft, ?Hright, ?Hbottom, ?Htop));
      reflexivity. }
  destruct v as [| | | |text| |]; try by apply Hplain.
  destruct (decide (text = str "left")) as [-> | Hleft]; [by vm_compute|].
  destruct (decide (text = str "right")) as [-> | Hright]; [by vm_compute|].
  destruct (decide (text = str "bottom")) as [-> | Hbottom]; [by vm_compute|].
  destruct (decide (text = str "top")) as [-> | Htop]; [by vm_compute|].
  assert (Hno : forall k, text <> str k -> is_str (VStr text) k = false).
  { intros k Hk. by apply bool_decide_eq_false_2. }
  rewrite !Hno by done. apply Hplain; by apply Hno.
Qed.

(** ** The text shaper keeps the text *)

(** A text without its spaces and line feeds. *)
Definition letters (text : jsstring) : jsstring :=
  filter (fun c => c <> 32%N /\ c <> 10%N) text.

Lemma letters_app x y : letters (x ++ y) = letters x ++ letters y.
Proof. apply filter_app. Qed.

Lemma letters_space text : letters (32%N :: text) = letters text.
Proof. unfold letters. rewrite filter_cons. by rewrite decide_False by tauto. Qed.

Lemma letters_feed text : letters (10%N :: text) = letters text.
Proof. unfold letters. rewrite filter_cons. by rewrite decide_False by tauto. Qed.

Lemma letters_cons c x y : letters x = letters y -> letters (c :: x) = letters (c :: y).
Proof.
  unfold letters. rewrite !filter_cons. intros ->. reflexivity.
Qed.

Lemma letters_split_space text :
  letters (concat (split_space text)) = letters text.
Proof.
  induction text as [|c rest IH]; [reflexivity|]. cbn [split_space].
  destruct (N.eqb_spec c 32) as [-> | _].
  - cbn [concat app]. by rewrite letters_space.
  - destruct (split_space rest) as [|word words]; cbn [concat app] in *;
      by apply letters_cons.
Qed.

Lemma letters_join_lines lines :
  letters (join_lines lines) = letters (concat lines).
Proof.
  induction lines as [|line rest IH]; [reflexivity|].
  cbn [join_lines concat]. destruct rest as [|next rest].
  - cbn [concat]. by rewrite app_nil_r.
  - rewrite !letters_app, letters_feed. by rewrite IH.
Qed.

Section WrapKeeps.

Variable measure : jsstring -> Q.

Lemma wrapChinese_loop_concat maxWidth splitText temp res :
  concat (wrapChinese_loop measure maxWidth splitText temp res)
  = concat res ++ temp ++ splitText.
Proof.
  revert temp res. induction splitText as [|c rest IH]; intros temp res;
    cbn [wrapChinese_loop].
  - rewrite concat_app. cbn [concat]. by rewrite !app_nil_r.
  - cbv zeta. destruct (Num.gtb _ maxWidth); rewrite IH.
    + rewrite concat_app. cbn [concat]. by rewrite app_nil_r, <- app_assoc.
    + by rewrite <- app_assoc.
Qed.

Lemma wrap_words_letters text width :
  letters (concat (wrap_words measure text width)) = letters text.
Proof.
  unfold wrap_words, wrapChineseText.
  destruct (has_ideograph text); [|apply letters_split_space].
  destruct (Num.gtb _ width).
  - by rewrite wrapChinese_loop_concat.
  - cbn [concat]. by rewrite app_nil_r.
Qed.

Lemma wrap_loop_letters width words line lines :
  letters (concat (wrap_loop measure width words line lines))
  = letters (concat lines) ++ letters line ++ letters (concat words).
Proof.
  revert line lines. induction words as [|word rest IH]; intros line lines;
    cbn [wrap_loop concat].
  - rewrite app_nil_r. destruct (negb (jsstring_eqb line [])) eqn:Hline.
    + rewrite concat_app, letters_app. cbn [concat]. by rewrite app_nil_r.
    + apply negb_false_iff, bool_decide_eq_true in Hline. subst line.
      by rewrite app_nil_r.
  - destruct (Qle_bool _ width); rewrite IH.
    + rewrite !letters_app.
      destruct (negb (jsstring_eqb line [])); cbn [app];
        rewrite ?letters_space; by rewrite <- ?app_assoc.
    + rewrite !letters_app.
      destruct (negb (jsstring_eqb line [])) eqn:Hline.
      * rewrite concat_app, letters_app. cbn [concat].
        by rewrite app_nil_r, <- !app_assoc.
      * apply negb_false_iff, bool_decide_eq_true in Hline. subst line.
        reflexivity.
Qed.

Lemma wrap_lines_letters text em :
  letters (join_lines (wrap_lines measure text em)) = letters text.
Proof.
  unfold wrap_lines. cbv zeta.
  rewrite letters_join_lines, wrap_loop_letters. cbn [concat app].
  apply wrap_words_letters.
Qed.

End WrapKeeps.

(** X17. Wrapping neither drops, adds nor reorders a character: the text
    that [wrapText] computes for a key that [measureCache] has no text
    for is, spaces and line feeds aside, the text that it was given,
    whatever the text measures, with or without ideographs. *)
Theorem wrapText_keeps_letters env text font em s :
  default [] (measureCache s
                !! (ToString env (VNum em) ++ str "," ++ font ++ str ","
                      ++ text)) = [] ->
  exists wrappedText,
    fst (wrapText env text font em s) = Ok wrappedText /\
    letters wrappedText = letters text.
Proof.
  intros Hkey. unfold wrapText, bind, get_state, modify, ret.
  cbv beta zeta iota. rewrite Hkey.
  eexists. split; [reflexivity|]. apply wrap_lines_letters.
Qed.

Lemma wrapText_keeps_letters_witness :
  exists wrappedText,
    fst (wrapText Sample.env (str "Upper West Side") (str "16px sans") 5
           Sample.empty_state) = Ok wrappedText /\
    letters wrappedText = letters (str "Upper West Side").
Proof.
  apply (wrapText_keeps_letters Sample.env (str "Upper West Side")
           (str "16px sans") 5 Sample.empty_state).
  reflexivity.
Defined.

(** ** What a call leaves in the caches *)

(** [t] has every cache entry of [s] that a later call would use: the
    compiled evaluators and filters, the chosen fonts and wrapped texts
    that are not empty, the icons and the patterns. *)
Record extends (s t : State) : Prop := {
  ext_functions : forall layerId property f,
    cached s layerId property = Some f -> cached t layerId property = Some f;
  ext_filters : forall layerId test,
    filterCache s !! layerId = Some test ->
    filterCache t !! layerId = Some test;
  ext_fonts : forall key font,
    fontMap s !! key = Some font -> truthy font = true ->
    fontMap t !! key = Some font;
  ext_measures : forall key wrapped,
    measureCache s !! key = Some wrapped -> wrapped <> [] ->
    measureCache t !! key = Some wrapped;
  ext_icons : forall key address,
    iconImageCache s !! key = Some address ->
    iconImageCache t !! key = Some address;
  ext_patterns : forall key address,
    patternCache s !! key = Some address ->
    patternCache t !! key = Some address
}.

Lemma extends_refl s : extends s s.
Proof. by split. Qed.

Lemma extends_trans s1 s2 s3 : extends s1 s2 -> extends s2 s3 -> extends s1 s3.
Proof. intros [] []. split; eauto. Qed.

Lemma extends_functions s c :
  (forall layerId property f,
     cached s layerId property = Some f ->
     cached (set_functionCache c s) layerId property = Some f) ->
  extends s (set_functionCache c s).
Proof. intros H. by split. Qed.

Lemma extends_fontMap s key font :
  truthy (default VUndefined (fontMap s !! key)) = false ->
  extends s (set_fontMap (<[key := font]> (fontMap s)) s).
Proof.
  intros Hcached. split; try done. intros key' font' Hkey Htruthy. simpl.
  destruct (decide (key = key')) as [<- | Hne].
  - rewrite Hkey in Hcached. simpl in Hcached. congruence.
  - by rewrite lookup_insert_ne.
Qed.

Lemma extends_measureCache s key w :
  default [] (measureCache s !! key) = [] ->
  extends s (set_measureCache (<[key := w]> (measureCache s)) s).
Proof.
  intros Hcached. split; try done. intros key' w' Hkey Hne. simpl.
  destruct (decide (key = key')) as [<- | Hkeys].
  - rewrite Hkey in Hcached. simpl in Hcached. congruence.
  - by rewrite lookup_insert_ne.
Qed.

Lemma jsstring_eqb_nil x : jsstring_eqb x [] = true <-> x = [].
Proof. unfold jsstring_eqb. apply bool_decide_eq_true. Qed.

(** A computation that returns or fails the same way from every state
    and leaves the state as it is. *)
Definition stateless {A} (m : M A) : Prop :=
  exists o, forall s, m s = (o, s).

(** Leaves of the pure helpers. *)
Ltac stateless_leaf :=
  first [ by (eexists (Ok _); intros ?; reflexivity)
        | by (eexists (Throw _); intros ?; reflexivity)
        | by (exists Untyped; intros ?; reflexivity)
        | by (exists Diverges; intros ?; reflexivity) ].

Lemma stateless_as_num v : stateless (as_num v).
Proof. destruct v; stateless_leaf. Qed.

Lemma stateless_as_pair v : stateless (as_pair v).
Proof.
  destruct v as [| | | | | |l]; try stateless_leaf.
  destruct l as [|a [|b [|c l]]]; try stateless_leaf;
    destruct a; try stateless_leaf; destruct b; stateless_leaf.
Qed.

Lemma stateless_colorWithOpacityV color opacity :
  stateless (colorWithOpacityV color opacity).
Proof.
  unfold colorWithOpacityV, bind, as_color.
  destruct color, opacity; stateless_leaf.
Qed.

Lemma stateless_icon_name env closure iconImage properties :
  stateless (icon_name env closure iconImage properties).
Proof.
  unfold icon_name. destruct iconImage; try stateless_leaf.
  destruct (fromTemplate _ _ _ _); stateless_leaf.
Qed.

Lemma stateless_divide a b : stateless (divide a b).
Proof. unfold divide. destruct (Num.eqb b 0); stateless_leaf. Qed.

Lemma stateless_scale_dashes dashes width :
  stateless (scale_dashes dashes width).
Proof.
  unfold scale_dashes. destruct dashes; try stateless_leaf.
  destruct (mapM _ _); stateless_leaf.
Qed.

Lemma stateless_rotate_degrees env closure ft rotateValue :
  stateless (rotate_degrees env closure ft rotateValue).
Proof.
  unfold rotate_degrees. destruct rotateValue as [| | | |[|c rest]| |];
    try stateless_leaf.
  destruct (c =? 123)%N; [|stateless_leaf].
  destruct (fromTemplate _ _ _ _); [|stateless_leaf].
  destruct (StringToNumber env _); stateless_leaf.
Qed.

Lemma stateless_ret {A} (a : A) : stateless (ret a).
Proof. stateless_leaf. Qed.

Lemma stateless_bind {A B} (m : M A) (k : A -> M B) :
  stateless m -> (forall a, stateless (k a)) -> stateless (bind m k).
Proof.
  intros (o & Ho) Hk. unfold bind.
  destruct o as [a| | |].
  - destruct (Hk a) as (outcome & Hout). exists outcome. intros s.
    by rewrite Ho, Hout.
  - exists (Throw message). intros s. by rewrite Ho.
  - exists Untyped. intros s. by rewrite Ho.
  - exists Diverges. intros s. by rewrite Ho.
Qed.

(** A computation that fails the same way from every state, or puts the
    same image at a fresh address. *)
Definition builds (build : M nat) : Prop :=
  exists outcome : Outcome Image,
    forall s,
      build s = match outcome with
                | Ok image => allocate image s
                | Throw message => (Throw message, s)
                | Untyped => (Untyped, s)
                | Diverges => (Diverges, s)
                end.

Lemma builds_ok build s a s' :
  builds build -> build s = (Ok a, s') ->
  (exists h, s' = set_heap h (S (next_address s)) s) /\
  forall t, exists a' h, build t = (Ok a', set_heap h (S (next_address t)) t).
Proof.
  intros (outcome & Hbuild) Hrun. rewrite Hbuild in Hrun.
  destruct outcome as [image| | |]; try discriminate.
  rewrite allocate_run in Hrun. injection Hrun as <- <-.
  split; [by eexists|]. intros t. rewrite Hbuild, allocate_run. by eexists _, _.
Qed.

(** The builders of images fail the same way from every state, or put
    the same image at a fresh address. *)
Lemma builds_bind {A} (m : M A) (k : A -> M nat) :
  stateless m -> (forall a, builds (k a)) -> builds (bind m k).
Proof.
  intros (o & Ho) Hk. unfold bind.
  destruct o as [a| | |].
  - destruct (Hk a) as (outcome & Hout). exists outcome. intros s.
    by rewrite Ho, Hout.
  - exists (Throw message). intros s. by rewrite Ho.
  - exists Untyped. intros s. by rewrite Ho.
  - exists Diverges. intros s. by rewrite Ho.
Qed.

Lemma builds_allocate image : builds (allocate image).
Proof. by exists (Ok image). Qed.

Lemma builds_build_icon icon spriteImageData iconSize iconColor iconTranslate
    iconAnchor iconOffset anchorOffset :
  builds (build_icon icon spriteImageData iconSize iconColor iconTranslate
            iconAnchor iconOffset anchorOffset).
Proof.
  unfold build_icon. destruct (Num.eqb _ 0); [by exists (Throw "IndexSizeError")|].
  apply builds_bind.
  { destruct iconColor as [c|]; [|apply stateless_ret].
    apply stateless_bind; [apply stateless_colorWithOpacityV|].
    intros [color|]; stateless_leaf. }
  intros recolored. apply builds_bind; [apply stateless_as_pair|].
  intros translate. apply builds_bind; [apply stateless_as_pair|].
  intros offset. apply builds_bind; [apply stateless_as_num|].
  intros size. apply builds_bind; [apply stateless_divide|].
  intros tx. apply builds_bind; [apply stateless_divide|].
  intros ty. apply builds_bind; [apply stateless_divide|].
  intros scale. apply builds_allocate.
Qed.

Lemma builds_build_circle circleRadius circleStrokeColor circleColor
    circleOpacity circleStrokeWidth circleStrokeOpacity :
  builds (build_circle circleRadius circleStrokeColor circleColor
            circleOpacity circleStrokeWidth circleStrokeOpacity).
Proof.
  unfold build_circle. apply builds_bind; [apply stateless_as_num|].
  intros radius. apply builds_bind.
  { destruct circleStrokeWidth as [| | |width| | |]; try stateless_leaf.
    destruct (Num.eqb width 0); [apply stateless_ret|].
    apply stateless_bind; [apply stateless_colorWithOpacityV|].
    intros color. apply stateless_ret. }
  intros stroke. apply builds_bind; [apply stateless_colorWithOpacityV|].
  intros color. apply builds_allocate.
Qed.

(** ** What every call keeps *)

(** No list of layer ids that the feature keeps per zoom has an id
    twice. *)
Definition ids_once (s : State) : Prop :=
  forall key ids, styleIds s !! key = Some ids -> NoDup ids.

(** From [s] to [s']: no cache entry is lost, and the lists of layer ids
    are still without repetition when they were. *)
Definition kept (s s' : State) : Prop :=
  extends s s' /\ (ids_once s -> ids_once s').

Lemma kept_refl s : kept s s.
Proof. split; [apply extends_refl | done]. Qed.

Lemma kept_trans s1 s2 s3 : kept s1 s2 -> kept s2 s3 -> kept s1 s3.
Proof.
  intros [H1 H1'] [H2 H2']. split; [by eapply extends_trans | auto].
Qed.

(** The same, and no slot of [styles] that holds a style is emptied. *)
Definition kept_slots (s s' : State) : Prop :=
  kept s s' /\
  forall i, is_Some (slot_of s i) -> is_Some (slot_of s' i).

Lemma kept_slots_refl s : kept_slots s s.
Proof. split; [apply kept_refl | done]. Qed.

Lemma kept_slots_trans s1 s2 s3 :
  kept_slots s1 s2 -> kept_slots s2 s3 -> kept_slots s1 s3.
Proof.
  intros [H1 H1'] [H2 H2']. split; [by eapply kept_trans | auto].
Qed.

(** A step that leaves the array [styles] as it is. *)
Lemma kept_same_styles s s' :
  kept s s' -> styles s' = styles s -> kept_slots s s'.
Proof. intros H Hstyles. split; [exact H|]. unfold slot_of. by rewrite Hstyles. Qed.

Lemma frames_stateless {A} (m : M A) : stateless m -> frames kept_slots m.
Proof. intros (o & Ho) s. rewrite Ho. apply kept_slots_refl. Qed.

Lemma frames_getValue env layer bg property zoom feature :
  frames kept_slots (getValue env layer bg property zoom feature).
Proof.
  intros s. fold (warm env layer bg property zoom feature s).
  destruct (warm_frame env layer bg property zoom feature s) as (c & Hc).
  apply kept_same_styles; [|by rewrite Hc]. split.
  - rewrite Hc. apply extends_functions. intros layerId' property' g Hg.
    rewrite <- Hc. by apply cached_warm.
  - by rewrite Hc.
Qed.

Lemma frames_passes_filter feature zoom layerData :
  frames kept_slots (passes_filter feature zoom layerData).
Proof.
  intros s. unfold passes_filter.
  destruct (layer_filter (layer layerData)) as [filter|];
    [|apply kept_slots_refl].
  unfold evaluateFilter, bind, get_state, modify, ret, throw.
  destruct (filterCache s !! layer_id (layer layerData)) as [test|] eqn:Hc;
    [apply kept_slots_refl|].
  destruct filter as [test|message]; [|apply kept_slots_refl].
  cbn [snd]. apply kept_same_styles; [|reflexivity].
  split; [|done]. split; try done.
  intros layerId test' Htest'. cbn [filterCache set_filterCache].
  destruct (decide (layer_id (layer layerData) = layerId)) as [<- | Hne];
    [congruence|]. by rewrite lookup_insert_ne.
Qed.

Lemma frames_init_styleIds env zoom :
  frames kept_slots (init_styleIds env zoom).
Proof.
  intros s. unfold init_styleIds, modify. cbn [snd].
  destruct (styleIds s !! ToString env (VNum zoom)) eqn:Hkey;
    [apply kept_slots_refl|].
  apply kept_same_styles; [|reflexivity].
  split; [by split|]. intros Hs key ids. cbn [styleIds set_styleIds].
  destruct (decide (ToString env (VNum zoom) = key)) as [<- | Hne].
  - rewrite lookup_insert_eq. intros [= <-]. constructor.
  - rewrite lookup_insert_ne by done. apply Hs.
Qed.

Lemma frames_push_styleId env zoom layerId :
  frames kept_slots (push_styleId env zoom layerId).
Proof.
  intros s. unfold push_styleId, modify. cbn [snd]. cbv zeta.
  case_bool_decide as Hin; [apply kept_slots_refl|].
  apply kept_same_styles; [|reflexivity].
  split; [by split|]. intros Hs key ids. cbn [styleIds set_styleIds].
  destruct (decide (ToString env (VNum zoom) = key)) as [<- | Hne].
  - rewrite lookup_insert_eq. intros [= <-].
    apply NoDup_app. split; [|split].
    + destruct (styleIds s !! ToString env (VNum zoom)) as [old|] eqn:Hold;
        cbn [default from_option id]; [by eapply Hs | constructor].
    + intros x Hx Hx'. apply list_elem_of_singleton in Hx'. by subst x.
    + apply NoDup_singleton.
  - rewrite lookup_insert_ne by done. apply Hs.
Qed.

Lemma frames_write_slot i style : frames kept_slots (write_slot i style).
Proof.
  intros s.
  destruct (write_slot_run i style s) as (s' & -> & Hi & Hother & l & ->).
  cbn [snd] in *. split; [split; [by split | done]|].
  intros j Hj. destruct (decide (j = i)) as [-> | Hne].
  - by rewrite Hi.
  - by rewrite Hother.
Qed.

Lemma frames_claim_slot env n zoom layerId keeps fresh :
  frames kept_slots (claim_slot env n zoom layerId keeps fresh).
Proof.
  unfold claim_slot.
  apply frames_bind; [exact kept_slots_trans | apply frames_push_styleId|].
  intros _. apply frames_bind; [exact kept_slots_trans | |].
  { intros s. apply kept_slots_refl. }
  intros [style|].
  - destruct (keeps style).
    + intros s. apply kept_slots_refl.
    + apply frames_bind; [exact kept_slots_trans | apply frames_write_slot|].
      intros _ s. apply kept_slots_refl.
  - apply frames_bind; [exact kept_slots_trans | apply frames_write_slot|].
    intros _ s. apply kept_slots_refl.
Qed.

Lemma frames_builds build : builds build -> frames kept_slots build.
Proof.
  intros (outcome & Hbuild) s. rewrite Hbuild.
  destruct outcome; try apply kept_slots_refl.
  rewrite allocate_run. cbn [snd].
  apply kept_same_styles; [split; [by split | done] | reflexivity].
Qed.

Lemma frames_pattern_for key icon opacity :
  frames kept_slots (pattern_for key icon opacity).
Proof.
  intros s. unfold pattern_for, bind, get_state, allocate, modify, ret.
  destruct (patternCache s !! key) as [pattern|] eqn:Hkey;
    [apply kept_slots_refl|].
  cbn [snd]. apply kept_same_styles; [|reflexivity].
  split; [|done]. split; try done.
  intros key' address' Hkey'. simpl.
  destruct (decide (key = key')) as [<- | Hne]; [congruence|].
  by rewrite lookup_insert_ne.
Qed.

Lemma frames_icon_for key build : builds build -> frames kept_slots (icon_for key build).
Proof.
  intros Hbuild s. unfold icon_for.
  rewrite (bind_run _ _ _ _ _ (eq_refl : get_state s = _)).
  destruct (iconImageCache s !! key) as [iconImg|] eqn:Hkey;
    [apply kept_slots_refl|].
  destruct Hbuild as (outcome & Hbuild). unfold bind. rewrite Hbuild.
  destruct outcome; try apply kept_slots_refl.
  rewrite allocate_run. cbn [snd modify].
  apply kept_same_styles; [|reflexivity].
  split; [|done]. split; try done.
  intros key' address' Hkey'. simpl.
  destruct (decide (key = key')) as [<- | Hne]; [congruence|].
  by rewrite lookup_insert_ne.
Qed.

Lemma frames_circle_for key build :
  builds build -> frames kept_slots (circle_for key build).
Proof.
  intros Hbuild s. unfold circle_for.
  rewrite (bind_run _ _ _ _ _ (eq_refl : get_state s = _)).
  destruct (iconImageCache s !! key); [apply kept_slots_refl|].
  by apply frames_builds.
Qed.

Lemma frames_set_rotation_opacity address rotation opacity :
  frames kept_slots (set_rotation_opacity address rotation opacity).
Proof.
  intros s. apply kept_same_styles; [split; [by split | done] | reflexivity].
Qed.

Lemma frames_chooseFont env fonts availableFonts :
  frames kept_slots (chooseFont env fonts availableFonts).
Proof.
  intros s. unfold chooseFont.
  rewrite (bind_run _ _ _ _ _ (eq_refl : get_state s = _)). cbv zeta.
  destruct (truthy (default VUndefined (fontMap s !! ToString env fonts)))
    eqn:Hcached; [apply kept_slots_refl|].
  destruct fonts; try apply kept_slots_refl.
  apply kept_same_styles; [|reflexivity].
  split; [by apply extends_fontMap | done].
Qed.

Lemma frames_wrapText env text font em : frames kept_slots (wrapText env text font em).
Proof.
  intros s. unfold wrapText.
  rewrite (bind_run _ _ _ _ _ (eq_refl : get_state s = _)). cbv zeta.
  destruct (jsstring_eqb (default [] (measureCache s !! _)) []) eqn:Hcached;
    [|apply kept_slots_refl].
  apply jsstring_eqb_nil in Hcached.
  apply kept_same_styles; [|reflexivity].
  split; [by apply extends_measureCache | done].
Qed.

(** One step of a sequence, a branch, or a step that keeps the state. *)
Ltac frames_leaf :=
  first
    [ apply frames_getValue
    | apply frames_claim_slot
    | apply frames_write_slot
    | apply frames_pattern_for
    | apply frames_icon_for, builds_build_icon
    | apply frames_circle_for, builds_build_circle
    | apply frames_set_rotation_opacity
    | apply frames_chooseFont
    | apply frames_wrapText
    | apply frames_stateless;
      first [ apply stateless_ret
            | apply stateless_as_num
            | apply stateless_as_pair
            | apply stateless_colorWithOpacityV
            | apply stateless_icon_name
            | apply stateless_divide
            | apply stateless_scale_dashes
            | apply stateless_rotate_degrees
            | stateless_leaf ] ].

Ltac frames_go :=
  repeat
    (cbv zeta;
     lazymatch goal with
     | |- frames _ (bind _ _) =>
         apply frames_bind; [exact kept_slots_trans | | intros ?]
     | |- frames _ (if ?b then _ else _) => destruct b
     | |- frames _ (match ?x with _ => _ end) => destruct x
     | |- frames _ _ => frames_leaf
     end).

Lemma frames_emit_fill env closure feature zoom layerData n :
  frames kept_slots (emit_fill env closure feature zoom layerData n).
Proof. unfold emit_fill. frames_go. Qed.

Lemma frames_emit_line env feature zoom layerData n :
  frames kept_slots (emit_line env feature zoom layerData n).
Proof. unfold emit_line. frames_go. Qed.

Lemma frames_emit_icon env closure feature zoom layerData resolution n locals :
  frames kept_slots (emit_icon env closure feature zoom layerData resolution n locals).
Proof. unfold emit_icon. frames_go. Qed.

Lemma frames_emit_circle env feature zoom layerData n locals :
  frames kept_slots (emit_circle env feature zoom layerData n locals).
Proof. unfold emit_circle. frames_go. Qed.

Lemma frames_emit_text env closure feature zoom layerData n locals :
  frames kept_slots (emit_text env closure feature zoom layerData n locals).
Proof. unfold emit_text, resolve_label. frames_go. Qed.

Lemma frames_layer_step env closure feature zoom layerData resolution n :
  frames kept_slots
    (layer_step env closure feature zoom layerData resolution n).
Proof.
  unfold layer_step. destruct (skipped zoom layerData).
  { intros s. apply kept_slots_refl. }
  apply frames_bind; [exact kept_slots_trans | apply frames_init_styleIds|].
  intros _.
  apply frames_bind; [exact kept_slots_trans | apply frames_passes_filter|].
  intros [|]; [|intros s; apply kept_slots_refl].
  apply frames_bind; [exact kept_slots_trans | apply frames_emit_fill|].
  intros n1.
  apply frames_bind; [exact kept_slots_trans | apply frames_emit_line|].
  intros n2.
  apply frames_bind; [exact kept_slots_trans | apply frames_emit_icon|].
  intros iconed.
  apply frames_bind; [exact kept_slots_trans | apply frames_emit_circle|].
  intros circled. apply frames_emit_text.
Qed.

Lemma frames_style_loop env closure feature zoom resolution layers n :
  frames kept_slots (style_loop env closure feature zoom resolution layers n).
Proof.
  revert n. induction layers as [|layerData rest IH]; intros n;
    cbn [style_loop].
  - intros s. apply kept_slots_refl.
  - apply frames_bind;
      [exact kept_slots_trans | apply frames_layer_step | exact IH].
Qed.

Lemma frames_styleFunction env closure feature resolution :
  frames kept (styleFunction env closure feature resolution).
Proof.
  unfold styleFunction. cbv zeta.
  destruct (layersBySourceLayer closure !! _) as [layers|].
  - apply frames_bind; [exact kept_trans | |].
    { intros s. apply frames_style_loop. }
    intros n. destruct (0 <? n)%nat; [|intros s; apply kept_refl].
    intros s. split; [by split | done].
  - intros s. apply kept_refl.
Qed.

(** X18. A call of the style function loses nothing that the caches
    hold, however it ends: every compiled evaluator and filter, every
    chosen font that is not the empty string, every wrapped text that is
    not empty, every icon and every pattern that is in its cache before
    the call is there after it, under the same key. *)
Theorem styleFunction_keeps_caches env closure feature resolution s :
  extends s (snd (styleFunction env closure feature resolution s)).
Proof. apply (frames_styleFunction env closure feature resolution s). Qed.

(** X19. The lists of layer ids that the style function keeps for the
    feature, one per zoom, name no layer twice: when no list has an id
    twice before a call, none has after it, however the call ends. *)
Theorem styleFunction_ids_once env closure feature resolution s :
  ids_once s ->
  ids_once (snd (styleFunction env closure feature resolution s)).
Proof. apply (frames_styleFunction env closure feature resolution s). Qed.

Lemma styleFunction_ids_once_witness :
  ids_once (snd Sample.first_call).
Proof.
  apply (styleFunction_ids_once Sample.env (Sample.closure_of [Sample.place])
           Sample.town 1 Sample.empty_state).
  intros key ids Hkey. vm_compute in Hkey. discriminate.
Defined.

(** ** No holes in the array of styles *)

(** The first [n] slots of [styles] hold a style each. *)
Definition filled (n : nat) (s : State) : Prop :=
  forall i, (i < n)%nat -> is_Some (slot_of s i).

(** When [m] returns [a] from a state whose first [lo] slots are filled,
    the first [hi a] slots are filled afterwards. *)
Definition Filling {A} (lo : nat) (hi : A -> nat) (m : M A) : Prop :=
  forall s a s', m s = (Ok a, s') -> filled lo s -> filled (hi a) s'.

Lemma Filling_bind {A B} lo (hi1 : A -> nat) (hi2 : B -> nat) (m : M A)
    (k : A -> M B) :
  Filling lo hi1 m -> (forall a, Filling (hi1 a) hi2 (k a)) ->
  Filling lo hi2 (bind m k).
Proof.
  intros Hm Hk s b s' Hrun Hs.
  apply bind_ok in Hrun as (a & s1 & Hrun1 & Hrun2).
  eapply Hk; [exact Hrun2|]. by eapply Hm.
Qed.

Lemma Filling_ret {A} lo (hi : A -> nat) (a : A) :
  (hi a <= lo)%nat -> Filling lo hi (ret a).
Proof. intros Hle s b s' [= <- <-] Hs i Hi. apply Hs. lia. Qed.

Lemma Filling_fail {A} lo (hi : A -> nat) (m : M A) :
  (forall s a s', m s <> (Ok a, s')) -> Filling lo hi m.
Proof. intros H s a s' Hrun. by destruct (H s a s'). Qed.

Lemma Filling_frames {A} lo (m : M A) :
  frames kept_slots m -> Filling lo (fun _ => lo) m.
Proof.
  intros Hm s a s' Hrun Hs i Hi. destruct (Hm s) as [_ Hslots].
  rewrite Hrun in Hslots. by apply Hslots, Hs.
Qed.

Lemma Filling_claim_slot env n zoom layerId keeps fresh :
  Filling n (fun _ => S n) (claim_slot env n zoom layerId keeps fresh).
Proof.
  intros s style s' Hrun Hs i Hi.
  destruct (claim_slot_run env n zoom layerId keeps fresh s)
    as (style1 & s1 & Hrun1 & Hn & _ & Hother & _).
  rewrite Hrun1 in Hrun. injection Hrun as <- <-.
  destruct (decide (i = n)) as [-> | Hne].
  - by rewrite Hn.
  - rewrite Hother by done. apply Hs. lia.
Qed.

Ltac Filling_leaf :=
  first [ apply Filling_claim_slot
        | apply Filling_frames; frames_leaf ].

(** A sequence that starts with a branch: the bound after the branch is
    the count that it returns. *)
Ltac Filling_branch lo m :=
  lazymatch type of m with
  | M nat => apply (Filling_bind lo (fun n' => n'))
  | M (nat * nat * Style)%type => apply (Filling_bind lo (fun c => fst (fst c)))
  | _ => apply (Filling_bind lo (fun _ => lo))
  end; [|intros ?; cbv beta].

Ltac Filling_go :=
  repeat
    (cbv zeta;
     lazymatch goal with
     | |- Filling ?lo _ (bind ?m _) =>
         lazymatch m with
         | (if _ then _ else _) => Filling_branch lo m
         | (match _ with _ => _ end) => Filling_branch lo m
         | _ => eapply Filling_bind; [Filling_leaf | intros ?; cbv beta]
         end
     | |- Filling _ _ (if ?b then _ else _) => destruct b
     | |- Filling _ _ (match ?x with _ => _ end) => destruct x
     | |- Filling _ _ (ret _) => apply Filling_ret; cbn [fst snd]; lia
     | |- Filling _ _ _ =>
         first [ Filling_leaf
               | apply Filling_fail; intros ? ? ?; discriminate ]
     end).

Lemma Filling_emit_fill env closure feature zoom layerData n :
  Filling n (fun n' => n') (emit_fill env closure feature zoom layerData n).
Proof. unfold emit_fill. Filling_go. Qed.

Lemma Filling_emit_line env feature zoom layerData n :
  Filling n (fun n' => n') (emit_line env feature zoom layerData n).
Proof. unfold emit_line. Filling_go. Qed.

Lemma Filling_emit_icon env closure feature zoom layerData resolution n locals :
  Filling n fst
    (emit_icon env closure feature zoom layerData resolution n locals).
Proof. unfold emit_icon. Filling_go. Qed.

Lemma Filling_emit_circle env feature zoom layerData n locals :
  Filling n fst (emit_circle env feature zoom layerData n locals).
Proof. unfold emit_circle. Filling_go. Qed.

Lemma Filling_emit_text env closure feature zoom layerData n locals :
  Filling n (fun n' => n')
    (emit_text env closure feature zoom layerData n locals).
Proof. unfold emit_text, resolve_label. Filling_go. Qed.

Lemma Filling_layer_step env closure feature zoom layerData resolution n :
  Filling n (fun n' => n')
    (layer_step env closure feature zoom layerData resolution n).
Proof.
  unfold layer_step. destruct (skipped zoom layerData);
    [by apply Filling_ret|].
  eapply Filling_bind; [apply Filling_frames, frames_init_styleIds|]. intros [].
  eapply Filling_bind; [apply Filling_frames, frames_passes_filter|].
  intros [|]; [|by apply Filling_ret].
  eapply Filling_bind; [apply Filling_emit_fill|]. intros n1.
  eapply Filling_bind; [apply Filling_emit_line|]. intros n2.
  eapply Filling_bind; [apply Filling_emit_icon|]. intros iconed.
  eapply Filling_bind; [apply Filling_emit_circle|]. intros circled.
  apply Filling_emit_text.
Qed.

Lemma Filling_style_loop env closure feature zoom resolution layers n :
  Filling n (fun n' => n')
    (style_loop env closure feature zoom resolution layers n).
Proof.
  revert n. induction layers as [|layerData rest IH]; intros n;
    cbn [style_loop].
  - by apply Filling_ret.
  - eapply Filling_bind; [apply Filling_layer_step | exact IH].
Qed.

(** X21. The array that the style function returns has no hole: every
    entry is a style, whatever the array [styles] held before the
    call. *)
Theorem styleFunction_no_hole env closure feature resolution s out s' :
  styleFunction env closure feature resolution s = (Ok (Some out), s') ->
  Forall (fun entry => is_Some entry) out.
Proof.
  unfold styleFunction. cbv zeta.
  destruct (layersBySourceLayer closure !! _) as [layers|]; [|discriminate].
  intros Hrun. apply bind_ok in Hrun as (n & s0 & Hloop & Hrest).
  destruct (0 <? n)%nat; [|discriminate].
  unfold truncate, bind, modify, get_state, ret in Hrest.
  injection Hrest as <- _. cbn [styles set_styles].
  assert (Hfilled : filled n s0).
  { eapply (Filling_style_loop env closure feature _ resolution layers 0);
      [exact Hloop|]. intros i Hi. lia. }
  apply Forall_lookup. intros i entry Hentry.
  destruct (decide (i < n)%nat) as [Hi | Hi].
  - destruct (Hfilled i Hi) as (style & Hstyle). unfold slot_of in Hstyle.
    destruct (styles s0 !! i) as [[style'|]|] eqn:Hslot; try discriminate.
    rewrite lookup_app_l in Hentry
      by (rewrite length_take; apply lookup_lt_Some in Hslot; lia).
    rewrite lookup_take_lt in Hentry by done.
    rewrite Hslot in Hentry. injection Hentry as <-. by eexists.
  - apply lookup_lt_Some in Hentry.
    rewrite length_app, length_take, length_replicate in Hentry. lia.
Qed.

Lemma styleFunction_no_hole_witness :
  Forall (fun entry => is_Some entry)
    (match fst Sample.first_call with
     | Ok (Some out) => out
     | _ => []
     end).
Proof.
  apply (styleFunction_no_hole Sample.env (Sample.closure_of [Sample.place])
           Sample.town 1 Sample.empty_state _ (snd Sample.first_call)).
  vm_compute. reflexivity.
Defined.




(** ** Two calls in a row *)

(** What of a style the renderer draws with: the colour of the fill, the
    colour and width of the stroke, of the text its string, its font, its
    fill colour and the colour and width of its halo, and the z-index. *)
Definition stroke_visual (stroke : Stroke) : option Paint * option Q :=
  (stroke_color stroke, stroke_width stroke).

Definition text_visual (text : Text)
  : option jsstring * option jsstring * option (option Paint)
    * option (option Paint * option Q) :=
  (text_text text, text_font text, fill_color <$> text_fill text,
   stroke_visual <$> text_stroke text).

Definition visual (style : Style) :=
  (fill_color <$> style_fill style,
   stroke_visual <$> style_stroke style,
   text_visual <$> style_text style,
   style_zIndex style).

(** The first [n] slots of two states hold styles that look the same. *)
Definition agree (n : nat) (s t : State) : Prop :=
  forall i, (i < n)%nat ->
    exists a b, slot_of s i = Some a /\ slot_of t i = Some b /\
                visual a = visual b.

(** The text properties whose values make the keys of the font cache and
    of the cache of wrapped texts. *)
Definition tracked : list string :=
  ["text-font"; "text-size"; "text-max-width"].

(** [f] of the style function: the properties and the type of the
    feature. *)
Definition view (feature : Feature) : FeatureArg :=
  ArgView {| fv_properties := properties feature;
             fv_type := types (geometryType feature) |}.

(** The key of [measureCache] and the text that [wrapText] stores under
    it. *)
Definition wrap_key (env : Env) (em : Q) (font text : jsstring) : jsstring :=
  ToString env (VNum em) ++ str "," ++ font ++ str "," ++ text.

Definition wrapped (env : Env) (em : Q) (font text : jsstring) : jsstring :=
  join_lines (wrap_lines (measureText env font) text em).

(** The font that the label is drawn with. *)
Definition css (env : Env) (l : list Value) (size : Value) : jsstring :=
  mb2css env (font_at l 0) size.

(** [range] tells per text property which values it takes. The maximal
    width, the fonts and the size of a label: *)
Definition ranged (range : string -> Value -> Prop) (em : Q) (l : list Value)
    (size : Value) : Prop :=
  (range "text-max-width" (VNum em) /\ range "text-font" (VArr l) /\
   range "text-size" size)%type.

(** [range] has what the evaluators of the layers give for the feature
    at the zoom. *)
Definition evaluates (env : Env) (layers : list LayerData) (feature : Feature)
    (zoom : Q) (range : string -> Value -> Prop) : Prop :=
  forall layerData bg property e,
    In layerData layers -> In property tracked ->
    compile_property env (layer layerData) bg property = Ok e ->
    range property (e zoom (view feature)).

Definition font_lists (range : string -> Value -> Prop) : Prop :=
  forall v, range "text-font" v -> exists l, v = VArr l.

(** The caches of fonts and of wrapped texts are keyed by strings that the
    arguments are joined to. Keys that tell what is stored under them:
    font lists with the same key have the same first font, and labels
    with the same key are wrapped to the same text. *)
Definition font_keys (env : Env) (range : string -> Value -> Prop) : Prop :=
  forall l l',
    range "text-font" (VArr l) -> range "text-font" (VArr l') ->
    ToString env (VArr l) = ToString env (VArr l') ->
    font_at l 0 = font_at l' 0.

Definition text_keys (env : Env) (range : string -> Value -> Prop) : Prop :=
  forall em l size text em' l' size' text',
    ranged range em l size -> ranged range em' l' size' ->
    wrap_key env em (css env l size) text
    = wrap_key env em' (css env l' size') text' ->
    wrapped env em (css env l size) text
    = wrapped env em' (css env l' size') text'.

Section TwoCalls.

Context (env : Env).

(** The layers that the two calls walk through, their feature and zoom,
    and the values of the text properties. *)
Context (layers : list LayerData) (feature : Feature) (zoom : Q).
Context (range : string -> Value -> Prop).

Hypothesis used : evaluates env layers feature zoom range.
Hypothesis fonts_arrays : font_lists range.
Hypothesis font_key : font_keys env range.
Hypothesis text_key : text_keys env range.

(** The evaluators in the cache give values of [range]. *)
Definition sound (s : State) : Prop :=
  forall layerData property e,
    In layerData layers -> In property tracked ->
    cached s (layer_id (layer layerData)) property = Some e ->
    range property (e zoom (view feature)).

(** The two caches hold what a call without cache would compute. *)
Definition correct (s : State) : Prop :=
  sound s /\
  (forall l font,
     range "text-font" (VArr l) ->
     fontMap s !! ToString env (VArr l) = Some font -> truthy font = true ->
     font = font_at l 0) /\
  (forall em l size text w,
     ranged range em l size ->
     measureCache s !! wrap_key env em (css env l size) text = Some w -> w <> [] ->
     w = wrapped env em (css env l size) text).

(** [m1] in a first call and [m2] in a second call. When [m1] returns,
    it has only added to the caches, and its result is related to itself;
    and from every state that has the cache entries that [m1] left and
    agrees on the slots below [lo], [m2] returns too, with a result related
    by [R], adding only to the caches, and the states agree below [hi]. *)
Definition Rel {A} (lo : nat) (hi : A -> nat) (R : A -> A -> Prop)
    (m1 m2 : M A) : Prop :=
  forall s a s', m1 s = (Ok a, s') -> correct s ->
    (extends s s' /\ correct s' /\ R a a) /\
    forall t, extends s' t -> correct t -> agree lo s t ->
      exists a' t', m2 t = (Ok a', t') /\ extends t t' /\ correct t' /\
                    R a a' /\ agree (hi a) s' t'.

Lemma agree_slots n s t s' t' :
  (forall i, slot_of s' i = slot_of s i) ->
  (forall i, slot_of t' i = slot_of t i) ->
  agree n s t -> agree n s' t'.
Proof.
  intros Hs Ht H i Hi. rewrite Hs, Ht. by apply H.
Qed.

Lemma agree_less n m s t : (m <= n)%nat -> agree n s t -> agree m s t.
Proof. intros Hle H i Hi. apply H. lia. Qed.

Lemma rel_ret {A} lo (hi : A -> nat) (R : A -> A -> Prop) a a' :
  R a a -> R a a' -> (hi a <= lo)%nat -> Rel lo hi R (ret a) (ret a').
Proof.
  intros Ha HR Hhi s b s' [= <- <-] Hs.
  split; [split; [apply extends_refl | by split]|].
  intros t Ht Hc Hagree. exists a', t.
  split; [done|]. split; [apply extends_refl|]. split; [done|].
  split; [done|]. by eapply agree_less.
Qed.

Lemma rel_bind {A B} lo (hi1 : A -> nat) (hi2 : B -> nat)
    (R1 : A -> A -> Prop) (R2 : B -> B -> Prop) (m1 m2 : M A)
    (k1 k2 : A -> M B) :
  Rel lo hi1 R1 m1 m2 ->
  (forall a a', R1 a a' -> Rel (hi1 a) hi2 R2 (k1 a) (k2 a')) ->
  Rel lo hi2 R2 (bind m1 k1) (bind m2 k2).
Proof.
  intros Hm Hk s b s2 Hrun Hs.
  apply bind_ok in Hrun as (a & s1 & Hm1 & Hk1).
  destruct (Hm s a s1 Hm1 Hs) as [(Hext1 & Hs1 & Ha) Hm2].
  destruct (Hk a a Ha s1 b s2 Hk1 Hs1) as [(Hext2 & Hs2 & Hb) _].
  split; [split; [by eapply extends_trans | by split]|].
  intros t Ht Hc Hagree.
  destruct (Hm2 t (extends_trans _ _ _ Hext2 Ht) Hc Hagree)
    as (a' & t1 & Hrun1 & Hext & Hc1 & HR & Hagree1).
  destruct (Hk a a' HR s1 b s2 Hk1 Hs1) as [_ Hk2].
  destruct (Hk2 t1 (extends_trans _ _ _ Ht Hext) Hc1 Hagree1)
    as (b' & t2 & Hrun2 & Hext' & Hc2 & HR2 & Hagree2).
  exists b', t2. rewrite (bind_run _ _ _ _ _ Hrun1).
  split; [exact Hrun2|]. split; [by eapply extends_trans|].
  split; [exact Hc2|]. split; [exact HR2 | exact Hagree2].
Qed.

Lemma rel_stateless {A} lo (m : M A) :
  stateless m -> Rel lo (fun _ => lo) eq m m.
Proof.
  intros (o & Ho) s a s' Hrun Hs. rewrite Ho in Hrun.
  injection Hrun as -> <-.
  split; [split; [apply extends_refl | by split]|].
  intros t Ht Hc Hagree. exists a, t. rewrite Ho.
  split; [done|]. split; [apply extends_refl|].
  split; [exact Hc|]. split; [reflexivity | exact Hagree].
Qed.

Lemma rel_fail {A} lo hi (R : A -> A -> Prop) (m1 m2 : M A) :
  (forall s a s', m1 s <> (Ok a, s')) -> Rel lo hi R m1 m2.
Proof. intros H s a s' Hrun. by destruct (H s a s'). Qed.

(** The relation and the bound can be weakened. *)
Lemma rel_weaken {A} lo (hi hi' : A -> nat) (R R' : A -> A -> Prop) m1 m2 :
  Rel lo hi R m1 m2 ->
  (forall a a', R a a' -> R' a a') ->
  (forall a, (hi' a <= hi a)%nat) ->
  Rel lo hi' R' m1 m2.
Proof.
  intros H HR Hhi s a s' Hrun Hs.
  destruct (H s a s' Hrun Hs) as [(Hext & Hs' & Ha) H2].
  split; [split; [done | split; [done | by apply HR]]|].
  intros t Ht Hc Hagree.
  destruct (H2 t Ht Hc Hagree) as (a' & t' & Hrun' & Hext' & Hc' & HR' & Hag).
  exists a', t'. split; [done|]. split; [done|]. split; [done|].
  split; [auto|]. eapply agree_less; [apply Hhi | exact Hag].
Qed.

(** The fonts, the wrapped texts and the styles are as they were. *)
Definition same_texts (s s' : State) : Prop :=
  functionCache s' = functionCache s /\ fontMap s' = fontMap s /\
  measureCache s' = measureCache s /\ styles s' = styles s.

Lemma correct_same s s' : same_texts s s' -> correct s -> correct s'.
Proof.
  intros (Hc & Hf & Hm & _) (H0 & H1 & H2). unfold correct, sound, cached.
  rewrite Hc, Hf, Hm. by split.
Qed.

Lemma agree_same n s t s' t' :
  same_texts s s' -> same_texts t t' -> agree n s t -> agree n s' t'.
Proof.
  intros (_ & _ & _ & Hs) (_ & _ & _ & Ht). apply agree_slots; intros i;
    unfold slot_of; by rewrite ?Hs, ?Ht.
Qed.

(** A computation that gives the same result from every state with the
    cache entries that it left, and does not touch fonts, texts and
    styles. *)
Lemma rel_quiet {A} (m : M A) lo :
  (forall s a s', m s = (Ok a, s') ->
     extends s s' /\ same_texts s s' /\
     forall t, extends s' t ->
       exists t', m t = (Ok a, t') /\ extends t t' /\ same_texts t t') ->
  Rel lo (fun _ => lo) eq m m.
Proof.
  intros H s a s' Hrun Hs. destruct (H s a s' Hrun) as (Hext & Hsame & H2).
  split; [split; [done | split; [by apply (correct_same s) | done]]|].
  intros t Ht Hc Hagree. destruct (H2 t Ht) as (t' & Hrun' & Hext' & Hsame').
  exists a, t'. split; [done|]. split; [done|].
  split; [by apply (correct_same t)|]. split; [done|].
  by apply (agree_same lo s t).
Qed.


(** *** The steps of a pass, one by one *)

Lemma sound_warm layerData bg property z f s v :
  In layerData layers ->
  resolve env (layer layerData) bg property z f s = Ok v ->
  sound s -> sound (warm env (layer layerData) bg property z f s).
Proof.
  intros Hin Hv Hs. rewrite resolve_eq in Hv. unfold warm.
  destruct (cached s (layer_id (layer layerData)) property) as [g|] eqn:Hc.
  - by rewrite (getValue_hit _ _ _ _ _ _ _ _ Hc).
  - destruct (compile_property env (layer layerData) bg property)
      as [g| | |] eqn:Hg; try discriminate.
    rewrite (getValue_miss _ _ _ _ _ _ _ _ Hc Hg). cbn [snd].
    intros layerData' property' e Hin' Htracked. rewrite cached_stored.
    case_decide as Heq.
    + destruct Heq as [_ <-]. intros [= <-]. by apply (used layerData bg).
    + by apply Hs.
Qed.

Lemma rel_getValue lo layerData bg property z f :
  In layerData layers ->
  Rel lo (fun _ => lo) eq (getValue env (layer layerData) bg property z f)
    (getValue env (layer layerData) bg property z f).
Proof.
  intros Hin s v s' Hrun Hs. rewrite getValue_run in Hrun.
  injection Hrun as Hv <-.
  destruct (warm_frame env (layer layerData) bg property z f s) as (c & Hc).
  assert (Hext : extends s (warm env (layer layerData) bg property z f s)).
  { rewrite Hc. apply extends_functions. intros layerId' property' g Hg.
    rewrite <- Hc. by apply cached_warm. }
  assert (Hcorrect : correct (warm env (layer layerData) bg property z f s)).
  { destruct Hs as (H0 & H1 & H2).
    split; [by apply (sound_warm _ _ _ _ _ _ v)|]. rewrite Hc. by split. }
  split; [split; [exact Hext | split; [exact Hcorrect | reflexivity]]|].
  intros t Ht Hct Hagree.
  destruct (resolve_ok_cached _ _ _ _ _ _ _ _ Hv) as (g & -> & Hg).
  apply (ext_functions _ _ Ht) in Hg. exists (g z f), t.
  rewrite (getValue_hit _ _ _ _ _ _ _ _ Hg).
  split; [done|]. split; [apply extends_refl|]. split; [done|].
  split; [done|]. apply (agree_slots lo s t); [|done|done].
  intros i. apply slot_of_warm.
Qed.

(** The value of a text property is one of [range]. *)
Lemma rel_getValue_range lo layerData bg property :
  In layerData layers -> In property tracked ->
  Rel lo (fun _ => lo) (fun v v' => v = v' /\ range property v)
    (getValue env (layer layerData) bg property zoom (view feature))
    (getValue env (layer layerData) bg property zoom (view feature)).
Proof.
  intros Hin Htracked s v s' Hrun Hs.
  destruct (rel_getValue lo layerData bg property zoom (view feature) Hin
              s v s' Hrun Hs) as [(Hext & Hc & _) H2].
  assert (Hv : range property v).
  { rewrite getValue_run in Hrun. injection Hrun as Hv Hs'.
    destruct (resolve_ok_cached _ _ _ _ _ _ _ _ Hv) as (g & -> & Hg).
    rewrite Hs' in Hg. by apply (proj1 Hc layerData). }
  split; [split; [exact Hext | split; [exact Hc | by split]]|].
  intros t Ht Hct Hagree.
  destruct (H2 t Ht Hct Hagree) as (a' & t' & Hrun' & Hext' & Hc' & <- & Hag).
  exists v, t'. split; [exact Hrun'|]. split; [exact Hext'|].
  split; [exact Hc'|]. split; [by split | exact Hag].
Qed.

Lemma rel_passes_filter lo ft z layerData :
  Rel lo (fun _ => lo) eq (passes_filter ft z layerData)
    (passes_filter ft z layerData).
Proof.
  apply rel_quiet. intros s b s'. unfold passes_filter.
  destruct (layer_filter (layer layerData)) as [filter|].
  - unfold evaluateFilter, bind, get_state, modify, ret, throw.
    destruct (filterCache s !! layer_id (layer layerData)) as [test|] eqn:Hc.
    + intros [= <- <-]. split; [apply extends_refl|]. split; [done|].
      intros t Ht. exists t. rewrite (ext_filters _ _ Ht _ _ Hc).
      repeat split; auto using extends_refl.
    + destruct filter as [test|message]; [|discriminate].
      intros [= <- <-]. split; [|split; [done|]].
      * split; try done. intros layerId test' Htest'. simpl.
        destruct (decide (layer_id (layer layerData) = layerId)) as [<-|Hne].
        -- congruence.
        -- by rewrite lookup_insert_ne.
      * intros t Ht. exists t.
        rewrite (ext_filters _ _ Ht (layer_id (layer layerData)) test)
          by (simpl; apply lookup_insert_eq).
        repeat split; auto using extends_refl.
  - intros [= <- <-]. split; [apply extends_refl|]. split; [done|].
    intros t Ht. exists t. repeat split; auto using extends_refl.
Qed.

Lemma rel_init_styleIds lo z :
  Rel lo (fun _ => lo) eq (init_styleIds env z) (init_styleIds env z).
Proof.
  apply rel_quiet. intros s [] s' Hrun.
  destruct (init_styleIds_run env z s) as (ids & Hs).
  rewrite Hs in Hrun. injection Hrun as <-.
  split; [by split|]. split; [done|]. intros t Ht.
  destruct (init_styleIds_run env z t) as (ids' & ->).
  eexists. split; [reflexivity|]. split; [by split | done].
Qed.

(** A style without what [visual] reads besides the fields that the step
    sets. *)
Definition shape_ok (shape : Style -> Prop) (a b : Style) : Prop :=
  shape a /\ shape b.

Lemma rel_claim_slot lo n z layerId keeps fresh (shape : Style -> Prop) :
  (lo <= n)%nat -> shape fresh ->
  (forall style, keeps style = true -> shape style) ->
  Rel lo (fun _ => lo) (shape_ok shape)
    (claim_slot env n z layerId keeps fresh)
    (claim_slot env n z layerId keeps fresh).
Proof.
  intros Hn Hfresh Hkeeps s style s' Hrun Hs.
  destruct (claim_slot_run env n z layerId keeps fresh s)
    as (style1 & s1 & Hrun1 & _ & Hshape1 & Hother1 & ids1 & l1 & ->).
  rewrite Hrun1 in Hrun. injection Hrun as <- <-.
  assert (Hst : shape style1) by (destruct Hshape1 as [-> | ?]; auto).
  split; [split; [by split | split; [apply Hs | by split]]|].
  intros t Ht Hc Hagree.
  destruct (claim_slot_run env n z layerId keeps fresh t)
    as (style2 & t2 & Hrun2 & _ & Hshape2 & Hother2 & ids2 & l2 & ->).
  exists style2, (set_styles l2 (set_styleIds ids2 t)).
  split; [exact Hrun2|]. split; [by split|]. split; [apply Hc|].
  split; [split; [done | destruct Hshape2 as [-> | ?]; auto]|].
  intros i Hi. rewrite Hother1, Hother2 by lia. by apply Hagree.
Qed.

Lemma rel_write_slot lo i w w' :
  visual w = visual w' ->
  Rel lo (fun _ => if decide (i = lo) then S lo else lo) (fun _ _ => True)
    (write_slot i w) (write_slot i w').
Proof.
  intros Hvisual s [] s' Hrun Hs.
  destruct (write_slot_run i w s) as (s1 & Hrun1 & Hi1 & Hother1 & l1 & ->).
  rewrite Hrun1 in Hrun. injection Hrun as <-.
  split; [split; [by split | split; [apply Hs | done]]|].
  intros t Ht Hc Hagree.
  destruct (write_slot_run i w' t) as (t1 & Hrun2 & Hi2 & Hother2 & l2 & ->).
  exists tt, (set_styles l2 t).
  split; [exact Hrun2|]. split; [by split|]. split; [apply Hc|].
  split; [done|]. intros j Hj.
  destruct (decide (j = i)) as [-> | Hne].
  - rewrite Hi1, Hi2. eauto.
  - rewrite Hother1, Hother2 by done. apply Hagree.
    case_decide; lia.
Qed.

(** A write at or above the bound, of styles that may look different. *)
Lemma rel_write_above lo i w w' :
  (lo <= i)%nat ->
  Rel lo (fun _ => lo) (fun _ _ => True) (write_slot i w) (write_slot i w').
Proof.
  intros Hle s [] s' Hrun Hs.
  destruct (write_slot_run i w s) as (s1 & Hrun1 & Hi1 & Hother1 & l1 & ->).
  rewrite Hrun1 in Hrun. injection Hrun as <-.
  split; [split; [by split | split; [apply Hs | done]]|].
  intros t Ht Hc Hagree.
  destruct (write_slot_run i w' t) as (t1 & Hrun2 & Hi2 & Hother2 & l2 & ->).
  exists tt, (set_styles l2 t).
  split; [exact Hrun2|]. split; [by split|]. split; [apply Hc|].
  split; [done|]. intros j Hj.
  rewrite Hother1, Hother2 by lia. by apply Hagree.
Qed.

Lemma rel_pattern_for lo key icon opacity :
  Rel lo (fun _ => lo) eq (pattern_for key icon opacity)
    (pattern_for key icon opacity).
Proof.
  apply rel_quiet. intros s p s'.
  unfold pattern_for, bind, get_state, allocate, modify, ret.
  destruct (patternCache s !! key) as [pattern|] eqn:Hkey.
  - intros [= <- <-]. split; [apply extends_refl|]. split; [done|].
    intros t Ht. exists t. rewrite (ext_patterns _ _ Ht _ _ Hkey).
    repeat split; auto using extends_refl.
  - intros [= <- <-]. split; [|split; [done|]].
    + split; try done. intros key' address' Hkey'. simpl.
      destruct (decide (key = key')) as [<- | Hne]; [congruence|].
      by rewrite lookup_insert_ne.
    + intros t Ht. exists t.
      rewrite (ext_patterns _ _ Ht key (next_address s))
        by (simpl; apply lookup_insert_eq).
      repeat split; auto using extends_refl.
Qed.

Lemma rel_icon_for lo key build :
  builds build ->
  Rel lo (fun _ => lo) eq (icon_for key build) (icon_for key build).
Proof.
  intros Hbuild. apply rel_quiet. intros s address s'.
  unfold icon_for. rewrite (bind_run _ _ _ _ _ (eq_refl : get_state s = _)).
  destruct (iconImageCache s !! key) as [iconImg|] eqn:Hkey.
  - intros [= <- <-]. split; [apply extends_refl|]. split; [done|].
    intros t Ht. exists t.
    rewrite (bind_run _ _ _ _ _ (eq_refl : get_state t = _)).
    rewrite (ext_icons _ _ Ht _ _ Hkey).
    repeat split; auto using extends_refl.
  - intros Hrun. apply bind_ok in Hrun as (a & s1 & Hrun & Hstore).
    destruct (builds_ok _ _ _ _ Hbuild Hrun) as [(h & ->) _].
    injection Hstore as <- <-. split; [|split; [done|]].
    + split; try done. intros key' address' Hkey'. simpl.
      destruct (decide (key = key')) as [<- | Hne]; [congruence|].
      by rewrite lookup_insert_ne.
    + intros t Ht. exists t.
      rewrite (bind_run _ _ _ _ _ (eq_refl : get_state t = _)).
      rewrite (ext_icons _ _ Ht key a) by (simpl; apply lookup_insert_eq).
      repeat split; auto using extends_refl.
Qed.

Lemma rel_circle_for lo key build :
  builds build ->
  Rel lo (fun _ => lo) (fun _ _ => True) (circle_for key build)
    (circle_for key build).
Proof.
  intros Hbuild s address s' Hrun Hs. unfold circle_for in *.
  rewrite (bind_run _ _ _ _ _ (eq_refl : get_state s = _)) in Hrun.
  assert (Hsame : extends s s' /\ same_texts s s').
  { destruct (iconImageCache s !! key).
    - injection Hrun as <- <-. split; [apply extends_refl | done].
    - destruct (builds_ok _ _ _ _ Hbuild Hrun) as [(h & ->) _].
      split; [by split | done]. }
  destruct Hsame as [Hext Hsame].
  split; [split; [done | split; [by apply (correct_same s) | done]]|].
  intros t Ht Hc Hagree.
  rewrite (bind_run _ _ _ _ _ (eq_refl : get_state t = _)).
  destruct (iconImageCache t !! key) as [cachedImg|] eqn:Hkey.
  - exists cachedImg, t. split; [done|]. split; [apply extends_refl|].
    split; [done|]. split; [done|]. by apply (agree_same lo s t).
  - destruct (iconImageCache s !! key) as [iconImg|] eqn:Hkey1.
    + injection Hrun as <- <-. rewrite (ext_icons _ _ Ht _ _ Hkey1) in Hkey.
      discriminate.
    + destruct (builds_ok _ _ _ _ Hbuild Hrun) as [_ Hbuild2].
      destruct (Hbuild2 t) as (a' & h & Hrun2).
      exists a', (set_heap h (S (next_address t)) t).
      split; [done|]. split; [by split|]. split; [apply Hc|].
      split; [done|]. by apply (agree_same lo s t).
Qed.

Lemma rel_set_rotation_opacity lo address address' rotation opacity :
  Rel lo (fun _ => lo) (fun _ _ => True)
    (set_rotation_opacity address rotation opacity)
    (set_rotation_opacity address' rotation opacity).
Proof.
  intros s [] s' [= <-] Hs.
  split; [split; [by split | split; [apply Hs | done]]|].
  intros t Ht Hc Hagree. eexists tt, _. split; [reflexivity|].
  split; [by split|]. split; [apply Hc|]. split; [done|].
  by apply (agree_same lo s t).
Qed.

Lemma correct_fontMap s l :
  range "text-font" (VArr l) -> correct s ->
  correct (set_fontMap (<[ToString env (VArr l) := font_at l 0]> (fontMap s)) s).
Proof.
  intros Hl (Hsound & Hfonts & Htexts).
  split; [exact Hsound|]. split; [|exact Htexts].
  intros l' font Hl'. simpl.
  destruct (decide (ToString env (VArr l) = ToString env (VArr l')))
    as [Heq | Hne].
  - rewrite <- Heq, lookup_insert_eq. intros [= <-] _. by apply font_key.
  - rewrite lookup_insert_ne by done. by apply Hfonts.
Qed.

(** The font of a list of [range] is its first font, from the cache or
    not. *)
Lemma rel_chooseFont lo l :
  range "text-font" (VArr l) ->
  Rel lo (fun _ => lo) (fun font font' => font = font' /\ font = font_at l 0)
    (chooseFont env (VArr l) None) (chooseFont env (VArr l) None).
Proof.
  intros Hl s font s' Hrun Hs. unfold chooseFont in *.
  rewrite (bind_run _ _ _ _ _ (eq_refl : get_state s = _)) in Hrun.
  destruct (truthy (default VUndefined
                      (fontMap s !! ToString env (VArr l)))) eqn:Hcached.
  - injection Hrun as <- <-.
    destruct (fontMap s !! ToString env (VArr l)) as [c|] eqn:Hkey;
      [|discriminate].
    cbn [default from_option id] in *.
    assert (Hc : c = font_at l 0) by by apply (proj1 (proj2 Hs) l).
    split; [split; [apply extends_refl | by split]|].
    intros t Ht Hct Hagree. exists c, t.
    rewrite (bind_run _ _ _ _ _ (eq_refl : get_state t = _)).
    rewrite (ext_fonts _ _ Ht _ _ Hkey Hcached).
    cbn [default from_option id]. rewrite Hcached.
    split; [reflexivity|]. split; [apply extends_refl|]. split; [exact Hct|].
    split; [by split | exact Hagree].
  - injection Hrun as <- <-.
    split; [split; [by apply extends_fontMap
                   | split; [by apply correct_fontMap | by split]]|].
    intros t Ht Hct Hagree.
    rewrite (bind_run _ _ _ _ _ (eq_refl : get_state t = _)).
    destruct (truthy (default VUndefined
                        (fontMap t !! ToString env (VArr l)))) eqn:Hcached2.
    + exists (font_at l 0), t.
      destruct (fontMap t !! ToString env (VArr l)) as [c|] eqn:Hkey;
        [|discriminate].
      cbn [default from_option id] in *.
      rewrite (proj1 (proj2 Hct) l c Hl Hkey Hcached2).
      split; [reflexivity|]. split; [apply extends_refl|]. split; [done|].
      split; [by split|]. by apply (agree_slots lo s t).
    + eexists _, _. split; [reflexivity|].
      split; [by apply extends_fontMap|].
      split; [by apply correct_fontMap|]. split; [by split|].
      by apply (agree_slots lo s t).
Qed.

Lemma correct_measureCache s em l size text :
  ranged range em l size -> correct s ->
  correct (set_measureCache
             (<[wrap_key env em (css env l size) text
                := wrapped env em (css env l size) text]> (measureCache s)) s).
Proof.
  intros Hr (Hsound & Hfonts & Htexts).
  split; [exact Hsound|]. split; [exact Hfonts|].
  intros em' l' size' text' w Hr'. simpl.
  destruct (decide (wrap_key env em (css env l size) text
                    = wrap_key env em' (css env l' size') text')) as [Heq | Hne].
  - rewrite <- Heq, lookup_insert_eq. intros [= <-] _. by apply text_key.
  - rewrite lookup_insert_ne by done. by apply Htexts.
Qed.

Lemma rel_wrapText lo text em l size :
  ranged range em l size ->
  Rel lo (fun _ => lo) eq (wrapText env text (css env l size) em)
    (wrapText env text (css env l size) em).
Proof.
  intros Hr s w s' Hrun Hs. unfold wrapText in *.
  fold (wrap_key env em (css env l size) text) in *.
  fold (wrapped env em (css env l size) text) in *.
  rewrite (bind_run _ _ _ _ _ (eq_refl : get_state s = _)) in Hrun.
  destruct (jsstring_eqb
              (default [] (measureCache s !! wrap_key env em (css env l size) text))
              []) eqn:Hcached.
  - apply jsstring_eqb_nil in Hcached. injection Hrun as <- <-.
    split; [split; [by apply extends_measureCache
                   | split; [by apply correct_measureCache | done]]|].
    intros t Ht Hc Hagree.
    rewrite (bind_run _ _ _ _ _ (eq_refl : get_state t = _)).
    destruct (jsstring_eqb
                (default []
                   (measureCache t !! wrap_key env em (css env l size) text)) [])
      eqn:Hcached2.
    + apply jsstring_eqb_nil in Hcached2. eexists _, _.
      split; [reflexivity|]. split; [by apply extends_measureCache|].
      split; [by apply correct_measureCache|]. split; [done|].
      by apply (agree_slots lo s t).
    + exists (wrapped env em (css env l size) text), t.
      destruct (measureCache t !! wrap_key env em (css env l size) text)
        as [c|] eqn:Hkey; [|discriminate].
      simpl in Hcached2. cbn [negb default from_option id].
      assert (Hc' : c <> []).
      { intros ->. discriminate. }
      rewrite (proj2 (proj2 Hc) em l size text c Hr Hkey Hc').
      split; [reflexivity|]. split; [apply extends_refl|]. split; [done|].
      split; [done|]. by apply (agree_slots lo s t).
  - injection Hrun as <- <-.
    split; [split; [apply extends_refl | by split]|].
    intros t Ht Hc Hagree.
    exists (default [] (measureCache s !! wrap_key env em (css env l size) text)), t.
    rewrite (bind_run _ _ _ _ _ (eq_refl : get_state t = _)).
    destruct (measureCache s !! wrap_key env em (css env l size) text)
      as [c|] eqn:Hkey; [|discriminate].
    assert (Hc' : c <> []).
    { intros ->. discriminate. }
    rewrite (ext_measures _ _ Ht _ _ Hkey Hc'). simpl in *. rewrite Hcached.
    split; [done|]. split; [apply extends_refl|]. split; [exact Hc|].
    split; [done | exact Hagree].
Qed.

Lemma rel_write_next lo w w' :
  visual w = visual w' ->
  Rel lo (fun _ => S lo) (fun _ _ => True) (write_slot lo w) (write_slot lo w').
Proof.
  intros H. eapply rel_weaken; [by apply (rel_write_slot lo lo w w') | done|].
  intros a. cbv beta. by rewrite decide_True.
Qed.

Lemma rel_write_keep lo i w w' :
  visual w = visual w' ->
  Rel lo (fun _ => lo) (fun _ _ => True) (write_slot i w) (write_slot i w').
Proof.
  intros H. eapply rel_weaken; [by apply (rel_write_slot lo i w w') | done|].
  intros a. cbv beta. case_decide; lia.
Qed.

(** One step of a sequence whose value is the same in both calls. *)
Ltac rel_same lemma :=
  eapply rel_bind; [apply lemma | intros ? ? <-; cbv beta].

Ltac rel_get :=
  eapply rel_bind;
  [apply rel_getValue; assumption | intros ? ? <-; cbv beta].

Ltac rel_pure lemma :=
  eapply rel_bind; [apply rel_stateless, lemma | intros ? ? <-; cbv beta].

Definition fill_shape (style : Style) : Prop :=
  style_stroke style = None /\ style_text style = None.

Definition stroke_shape (style : Style) : Prop :=
  style_fill style = None /\ style_text style = None.

Definition plain_shape (style : Style) : Prop :=
  style_fill style = None /\ style_stroke style = None.

Lemma is_Some_false {A} (x : option A) :
  bool_decide (is_Some x) = false -> x = None.
Proof.
  intros H. apply bool_decide_eq_false in H. destruct x; [|done].
  by destruct H.
Qed.

Lemma keeps_fill_ok style : keeps_fill style = true -> fill_shape style.
Proof.
  unfold keeps_fill. intros H. apply andb_prop in H as [H Ht].
  apply andb_prop in H as [_ Hs].
  apply negb_true_iff in Ht, Hs. split; by apply is_Some_false.
Qed.

Lemma keeps_stroke_ok style : keeps_stroke style = true -> stroke_shape style.
Proof.
  unfold keeps_stroke. intros H. apply andb_prop in H as [H Ht].
  apply andb_prop in H as [_ Hs].
  apply negb_true_iff in Ht, Hs. split; by apply is_Some_false.
Qed.

Lemma keeps_image_ok style : keeps_image style = true -> plain_shape style.
Proof.
  unfold keeps_image. intros H. apply andb_prop in H as [H Ht].
  apply andb_prop in H as [_ Hs].
  apply negb_true_iff in Ht, Hs. split; by apply is_Some_false.
Qed.

Lemma keeps_text_ok style : keeps_text style = true -> plain_shape style.
Proof.
  unfold keeps_text. intros H. apply andb_prop in H as [H Ht].
  apply andb_prop in H as [_ Hs].
  apply negb_true_iff in Ht, Hs. split; by apply is_Some_false.
Qed.

Lemma rel_emit_fill closure layerData n :
  In layerData layers ->
  Rel n (fun n' => n') eq (emit_fill env closure feature zoom layerData n)
    (emit_fill env closure feature zoom layerData n).
Proof.
  intros Hin.
  unfold emit_fill.
  destruct (type_is _ 3 && _); [|by apply rel_ret].
  rel_get.
  destruct (has_key _ "fill-pattern").
  - rel_get. destruct (truthy _); [|by apply rel_ret].
    rel_pure stateless_icon_name.
    destruct (sprite_entry _ _); [|by apply rel_ret].
    eapply rel_bind.
    { apply (rel_claim_slot n n _ _ _ _ fill_shape);
        [done | done | apply keeps_fill_ok]. }
    intros style style' [[Hs1 Ht1] [Hs2 Ht2]]. cbv beta.
    rel_same rel_pattern_for.
    eapply rel_bind; [apply rel_write_next | intros [] [] _; by apply rel_ret].
    unfold visual. cbn. by rewrite Hs1, Ht1, Hs2, Ht2.
  - destruct (has_key _ "fill-color"); [|by apply rel_ret].
    rel_get. rel_pure stateless_colorWithOpacityV.
    apply (rel_bind n (fun n' => n') _ eq).
    { match goal with
      | |- Rel _ _ _ (match ?color with _ => _ end) _ =>
          destruct color as [c|]
      end; [|by apply rel_ret].
      eapply rel_bind.
      { apply (rel_claim_slot n n _ _ _ _ fill_shape);
          [done | done | apply keeps_fill_ok]. }
      intros style style' [[Hs1 Ht1] [Hs2 Ht2]]. cbv beta.
      eapply rel_bind; [apply rel_write_next | intros [] [] _; by apply rel_ret].
      unfold visual. cbn. by rewrite Hs1, Ht1, Hs2, Ht2. }
    intros n0 ? <-.
    apply (rel_bind n0 (fun _ => n0) _ eq).
    { destruct (has_key _ "fill-outline-color").
      - rel_get. apply rel_stateless, stateless_colorWithOpacityV.
      - destruct (has_key _ "fill-antialias"); by apply rel_ret. }
    intros strokeColor ? <-. cbv beta.
    destruct strokeColor as [c|]; [|by apply rel_ret].
    eapply rel_bind.
    { apply (rel_claim_slot n0 n0 _ _ _ _ stroke_shape);
        [done | done | apply keeps_stroke_ok]. }
    intros style style' [[Hs1 Ht1] [Hs2 Ht2]]. cbv beta.
    eapply rel_bind; [apply rel_write_next | intros [] [] _; by apply rel_ret].
    unfold visual. cbn. by rewrite Hs1, Ht1, Hs2, Ht2.
Qed.

Lemma rel_emit_line layerData n :
  In layerData layers ->
  Rel n (fun n' => n') eq (emit_line env feature zoom layerData n)
    (emit_line env feature zoom layerData n).
Proof.
  intros Hin.
  unfold emit_line.
  destruct (negb (type_is _ 1) && _); [|by apply rel_ret].
  apply (rel_bind n (fun _ => n) _ eq).
  { destruct (negb _ && _); [|by apply rel_ret].
    rel_get. rel_get. apply rel_stateless, stateless_colorWithOpacityV. }
  intros color ? <-. cbv beta. rel_get.
  destruct color as [c|]; [|by apply rel_ret].
  rel_pure stateless_as_num.
  destruct (Num.gtb _ 0); [|by apply rel_ret].
  eapply rel_bind.
  { apply (rel_claim_slot n n _ _ _ _ stroke_shape);
      [done | done | apply keeps_stroke_ok]. }
  intros style style' [[Hs1 Ht1] [Hs2 Ht2]]. cbv beta.
  rel_get. rel_get. rel_get.
  apply (rel_bind n (fun _ => n) _ eq).
  { destruct (raw_truthy _ _); [|by apply rel_ret].
    rel_get. rel_pure stateless_scale_dashes. by apply rel_ret. }
  intros lineDash ? <-. cbv beta.
  eapply rel_bind; [apply rel_write_next | intros [] [] _; by apply rel_ret].
  unfold visual. cbn. by rewrite Hs1, Ht1, Hs2, Ht2.
Qed.


(** The locals of the two calls: the same flags, and a local style
    without fill and stroke in both or in none. *)
Definition locals_ok (l l' : Locals) : Prop :=
  hasImage l = hasImage l' /\ skipLabel l = skipLabel l' /\
  match style_local l, style_local l' with
  | Some a, Some b => plain_shape a /\ plain_shape b
  | None, None => True
  | _, _ => False
  end.

Definition step_ok (p p' : nat * Locals) : Prop :=
  fst p = fst p' /\ locals_ok (snd p) (snd p').

Lemma locals_ok_left l l' : locals_ok l l' -> locals_ok l l.
Proof.
  intros (Hi & Hl & Hs). split; [done|]. split; [done|].
  destruct (style_local l), (style_local l'); tauto.
Qed.

Lemma rel_ret_locals n l l' :
  locals_ok l l' -> Rel n fst step_ok (ret (n, l)) (ret (n, l')).
Proof.
  intros H. apply rel_ret; [|done|done].
  split; [done|]. by apply (locals_ok_left l l').
Qed.

Lemma rel_emit_icon closure layerData resolution n locals locals' :
  In layerData layers ->
  locals_ok locals locals' ->
  Rel n fst step_ok
    (emit_icon env closure feature zoom layerData resolution n locals)
    (emit_icon env closure feature zoom layerData resolution n locals').
Proof.
  intros Hin.
  intros Hlocals. unfold emit_icon.
  destruct (_ && has_key _ "icon-image"); [|by apply rel_ret_locals].
  rel_get. destruct (truthy _); [|by apply rel_ret_locals].
  rel_pure stateless_icon_name.
  destruct (sprite_entry _ _) as [spriteImageData|];
    [|by apply rel_ret_locals].
  cbv zeta.
  match goal with
  | |- context [bool_decide (is_Some ?g)] => generalize g; intros styleGeom
  end.
  destruct (negb _ || _).
  - eapply rel_bind.
    { apply (rel_claim_slot n n _ _ _ _ plain_shape);
        [done | done | apply keeps_image_ok]. }
    intros style style' [[Hs1 Ht1] [Hs2 Ht2]]. cbv beta.
    rel_get.
    apply (rel_bind n (fun _ => n) _ eq).
    { destruct (has_key _ _); [|by apply rel_ret].
      rel_get. by apply rel_ret. }
    intros iconColor ? <-. cbv beta.
    rel_get. rel_get. rel_get. rel_get.
    rel_same rel_icon_for; [apply builds_build_icon|].
    rel_get. rel_pure stateless_rotate_degrees. rel_get.
    eapply rel_bind; [apply rel_set_rotation_opacity|].
    intros [] [] _. cbv beta.
    eapply rel_bind.
    { apply rel_write_next. unfold visual. cbn.
      by rewrite Hs1, Ht1, Hs2, Ht2. }
    intros [] [] _. apply rel_ret; [| |done].
    + split; [done|]. split; [done|]. split; [done|]. by cbn.
    + split; [done|]. split; [done|]. split; [done|]. by cbn.
  - destruct Hlocals as (Hi & Hl & Hs). apply rel_ret_locals.
    split; [done|]. split; done.
Qed.

Lemma rel_emit_circle layerData n locals locals' :
  In layerData layers ->
  locals_ok locals locals' ->
  Rel n fst step_ok
    (emit_circle env feature zoom layerData n locals)
    (emit_circle env feature zoom layerData n locals').
Proof.
  intros Hin.
  intros Hlocals. unfold emit_circle.
  destruct (_ && has_key _ "circle-radius"); [|by apply rel_ret_locals].
  eapply rel_bind.
  { apply (rel_claim_slot n n _ _ _ _ plain_shape);
      [done | done | apply keeps_image_ok]. }
  intros style style' [[Hs1 Ht1] [Hs2 Ht2]]. cbv beta.
  rel_get. rel_get. rel_get. rel_get. rel_get. rel_get.
  eapply rel_bind; [apply rel_circle_for, builds_build_circle|].
  intros iconImg iconImg' _. cbv beta.
  eapply rel_bind.
  { apply rel_write_next. unfold visual. cbn.
    by rewrite Hs1, Ht1, Hs2, Ht2. }
  intros [] [] _. destruct Hlocals as (Hi & Hl & Hs).
  apply rel_ret; [| |done].
  - split; [done|]. split; [done|]. split; [done|]. by cbn.
  - split; [done|]. split; [done|]. split; [done|]. by cbn.
Qed.
Lemma rel_resolve_label closure layerData n :
  In layerData layers ->
  Rel n (fun _ => n) eq (resolve_label env closure feature zoom layerData)
    (resolve_label env closure feature zoom layerData).
Proof.
  intros Hin.
  unfold resolve_label. destruct (has_key _ _); [|by apply rel_ret].
  rel_get.
  match goal with
  | |- Rel _ _ _ ?m _ => assert (stateless m) as Hm
  end.
  { match goal with
    | |- stateless (match ?field with _ => _ end) => destruct field
    end; try stateless_leaf.
    destruct (fromTemplate _ _ _); stateless_leaf. }
  by apply rel_stateless.
Qed.

(** The slot and the style that the label is written to: the slot of the
    image before, or slot [n], which is claimed. *)
Definition claimed_ok (n : nat) (c c' : nat * nat * Style) : Prop :=
  fst c = fst c' /\ plain_shape (snd c) /\ plain_shape (snd c') /\
  (fst (fst c) = n \/ (fst (fst c) = S n /\ snd (fst c) = n)).

Ltac rel_leaf tac :=
  eapply rel_bind;
  [apply rel_stateless; tac | intros ? ? <-; cbv beta].

Lemma rel_emit_text closure layerData n locals locals' :
  In layerData layers ->
  locals_ok locals locals' ->
  Rel n (fun n' => n') eq
    (emit_text env closure feature zoom layerData n locals)
    (emit_text env closure feature zoom layerData n locals').
Proof.
  intros Hin.
  intros (Hi & Hl & Hs).
  destruct locals as [image skip tx st], locals' as [image' skip' tx' st'].
  cbn in Hi, Hl, Hs. subst image' skip'. unfold emit_text.
  cbn [hasImage skipLabel text style_local].
  eapply rel_bind; [by apply rel_resolve_label|].
  intros label ? <-. cbv beta.
  destruct label as [[|c rest]|]; try by apply rel_ret.
  destruct skip; [by apply rel_ret|]. cbv zeta.
  apply (rel_bind n (fun _ => n) _ (claimed_ok n)).
  { destruct image.
    - destruct st as [a|], st' as [b|]; try done.
      destruct Hs as [Ha Hb]. apply rel_ret; [| |done].
      + split; [done|]. split; [done|]. split; [done|]. by left.
      + split; [done|]. split; [done|]. split; [done|]. by left.
    - eapply rel_bind.
      { apply (rel_claim_slot n n _ _ _ _ plain_shape);
          [done | done | apply keeps_text_ok]. }
      intros style style' [[Hs1 Ht1] [Hs2 Ht2]]. cbv beta.
      eapply rel_bind; [by apply rel_write_above|].
      intros [] [] _. apply rel_ret; [| |done].
      + split; [done|]. split; [done|]. split; [done|]. by right.
      + split; [done|]. split; [done|]. split; [done|]. by right. }
  intros [[n1 slot] style] [[n1' slot'] style'] (Heq & Hp & Hp' & Hcase).
  cbn in Heq, Hp, Hp', Hcase. injection Heq as <- <-.
  cbn [fst snd].
  eapply rel_bind.
  { apply (rel_getValue_range n layerData layout_bag "text-size");
      [done | right; by left]. }
  intros textSize ? [<- Hsize]. cbv beta. rel_get.
  eapply rel_bind.
  { apply (rel_getValue_range n layerData layout_bag "text-font");
      [done | by left]. }
  intros fonts ? [<- Hfonts]. cbv beta.
  destruct (fonts_arrays _ Hfonts) as (l & ->).
  eapply rel_bind; [by apply rel_chooseFont|].
  intros chosen ? [<- ->]. cbv beta.
  apply (rel_bind n (fun _ => n) _ eq).
  { destruct (type_is _ 2); [by apply rel_ret|].
    eapply rel_bind.
    { apply (rel_getValue_range n layerData layout_bag "text-max-width");
        [done | right; right; by left]. }
    intros em ? [<- Hem]. cbv beta.
    destruct em as [| | |q| | |];
      try (apply rel_fail; intros ? ? ?; cbv [bind as_num throw untyped];
           discriminate).
    change (as_num (VNum q)) with (ret (A := Q) q).
    apply (rel_bind n (fun _ => n) _ (fun a a' => a = q /\ a' = q));
      [by apply rel_ret|].
    intros ? ? [-> ->]. apply rel_wrapText. by split; [|split]. }
  intros wrappedLabel ? <-. cbv beta.
  rel_get. rel_pure stateless_as_num. rel_get.
  apply (rel_bind n (fun _ => n) _ eq).
  { destruct (image || _); [by apply rel_ret | by apply rel_getValue]. }
  intros placement ? <-. cbv beta.
  rel_get. rel_get. rel_get.
  rel_leaf ltac:(
    match goal with
    | |- stateless (match ?anchor with _ => _ end) => destruct anchor
    end; stateless_leaf).
  rel_pure stateless_as_num. rel_pure stateless_as_pair.
  rel_pure stateless_as_pair.
  rel_leaf ltac:(
    repeat (destruct (includes _ _);
            [apply stateless_bind; [apply stateless_as_num|];
             intros; apply stateless_ret|]);
    apply stateless_ret).
  apply (rel_bind n (fun _ => n) _ (fun p p' => fst p = fst p')).
  { destruct (is_str placement "point"); [by apply rel_ret|].
    rel_get. rel_pure stateless_as_num. by apply rel_ret. }
  intros placed placed' Hplaced. cbv beta.
  rel_leaf ltac:(
    repeat (destruct (starts_with _ _);
            [apply stateless_bind; [apply stateless_as_num|];
             intros; apply stateless_bind; [apply stateless_as_num|];
             intros; apply stateless_ret|]);
    apply stateless_ret).
  rel_get. rel_get. rel_pure stateless_colorWithOpacityV.
  rel_get. rel_pure stateless_colorWithOpacityV.
  apply (rel_bind n (fun _ => n) _ eq).
  { match goal with
    | |- Rel _ _ _ (match ?halo with _ => _ end) _ => destruct halo
    end; [|by apply rel_ret].
    rel_get. rel_pure stateless_as_num. by apply rel_ret. }
  intros textHalo ? <-. cbv beta.
  destruct Hp as [Hf Hk], Hp' as [Hf' Hk'].
  destruct Hcase as [-> | [-> ->]].
  - eapply rel_bind; [apply rel_write_keep | intros [] [] _; by apply rel_ret].
    unfold visual. cbn. by rewrite Hf, Hk, Hf', Hk'.
  - eapply rel_bind; [apply rel_write_next | intros [] [] _; by apply rel_ret].
    unfold visual. cbn. by rewrite Hf, Hk, Hf', Hk'.
Qed.
Lemma rel_layer_step closure layerData resolution n :
  In layerData layers ->
  Rel n (fun n' => n') eq
    (layer_step env closure feature zoom layerData resolution n)
    (layer_step env closure feature zoom layerData resolution n).
Proof.
  intros Hin. unfold layer_step.
  destruct (skipped zoom layerData); [by apply rel_ret|].
  eapply rel_bind; [apply rel_init_styleIds | intros [] [] _; cbv beta].
  eapply rel_bind; [apply rel_passes_filter | intros pass ? <-; cbv beta].
  destruct pass; [|by apply rel_ret].
  eapply rel_bind; [by apply rel_emit_fill | intros n1 ? <-; cbv beta].
  eapply rel_bind; [by apply rel_emit_line | intros n2 ? <-; cbv beta].
  eapply rel_bind.
  { apply rel_emit_icon; [exact Hin | by repeat split]. }
  intros [n3 locals3] [n3' locals3'] [Hn Hlocals]. cbn [fst snd] in *.
  subst n3'.
  eapply rel_bind; [by apply rel_emit_circle|].
  intros [n4 locals4] [n4' locals4'] [Hn Hlocals']. cbn [fst snd] in *.
  subst n4'. by apply rel_emit_text.
Qed.

Lemma rel_style_loop closure resolution rest n :
  (forall layerData, In layerData rest -> In layerData layers) ->
  Rel n (fun n' => n') eq
    (style_loop env closure feature zoom resolution rest n)
    (style_loop env closure feature zoom resolution rest n).
Proof.
  revert n. induction rest as [|layerData rest IH]; intros n Hrest;
    cbn [style_loop].
  - by apply rel_ret.
  - eapply rel_bind.
    + apply rel_layer_step, Hrest. by left.
    + intros n1 ? <-. apply IH. intros other Hother. apply Hrest. by right.
Qed.

(** Two passes over the layers, the second one from the state that the
    first one left: it counts as many styles, and slot by slot they look
    the same. *)
Lemma style_loop_twice closure resolution s n s' :
  correct s ->
  style_loop env closure feature zoom resolution layers 0 s = (Ok n, s') ->
  exists t',
    style_loop env closure feature zoom resolution layers 0 s' = (Ok n, t') /\
    agree n s' t'.
Proof.
  intros Hs Hrun.
  destruct (rel_style_loop closure resolution layers 0 (fun _ H => H)
              s n s' Hrun Hs) as [(Hext & Hs' & _) Hsecond].
  destruct (Hsecond s' (extends_refl s') Hs') as (n' & t' & Hrun' & _ & _ & <- & Hagree).
  { intros i Hi. lia. }
  by exists t'.
Qed.

End TwoCalls.

(** What the renderer draws with, for each entry of the array that the
    style function returns. *)
Definition looks (out : option (list (option Style))) :=
  fmap (M := option) (fmap (M := list) (fmap (M := option) visual)) out.

Lemma agree_looks n s t :
  agree n s t ->
  fmap (M := list) (fmap (M := option) visual)
    (take n (styles s) ++ replicate (n - length (styles s)) None)
  = fmap (M := list) (fmap (M := option) visual)
      (take n (styles t) ++ replicate (n - length (styles t)) None).
Proof.
  intros Hagree. apply list_eq. intros i.
  rewrite !list_lookup_fmap.
  destruct (decide (i < n)%nat) as [Hi | Hi].
  - destruct (Hagree i Hi) as (a & b & Ha & Hb & Hvisual).
    unfold slot_of in Ha, Hb.
    assert (Hslot : forall u x, mjoin (styles u !! i) = Some x ->
              (take n (styles u) ++ replicate (n - length (styles u)) None)
                !! i = Some (Some x)).
    { intros u x Hx. destruct (styles u !! i) as [[y|]|] eqn:Hu;
        try discriminate. injection Hx as ->.
      rewrite lookup_app_l
        by (rewrite length_take; apply lookup_lt_Some in Hu; lia).
      by rewrite lookup_take_lt. }
    rewrite (Hslot s a Ha), (Hslot t b Hb). cbn. by rewrite Hvisual.
  - assert (Hlen : forall u : State,
              length (take n (styles u)
                      ++ replicate (n - length (styles u)) None) = n).
    { intros u. rewrite length_app, length_take, length_replicate. lia. }
    rewrite !lookup_ge_None_2 by (rewrite Hlen; lia). reflexivity.
Qed.

(** A layer of labels, its feature, and the values of its text
    properties. *)
Definition label_layer (id : string) (fonts : list Value) : Layer :=
  {| layer_id := id; layer_type := "symbol"; layer_source := Some "osm";
     layer_source_layer := Some (str "labels");
     layer_minzoom := None; layer_maxzoom := None;
     layer_layout :=
       Some (list_to_map [("text-field", Literal (VStr (str "{name}")));
                          ("text-font", Literal (VArr fonts))]);
     layer_paint := None;
     layer_filter := None |}.

Definition ulm : Feature :=
  {| properties := {[ str "layer" := VStr (str "labels");
                      str "name" := VStr (str "Ulm") ]};
     geometryType := "Point";
     flatMidpoint := None;
     extent := (0, 0, 1, 1) |}.

Definition label_fonts : list Value := [VStr (str "Open Sans Regular")].

Definition label_range (property : string) (v : Value) : Prop :=
  (property = "text-font" /\ v = VArr label_fonts) \/
  (property = "text-size" /\ v = VNum 16) \/
  (property = "text-max-width" /\ v = VNum 10).

(** Two layers whose font lists, an empty name before [x] and the one
    name [,x], print as the same key: the first call draws the label of
    the first layer in the font of the empty name, the second call in the
    font that the other layer left in [fontMap]. *)
Lemma font_key_collision :
  exists out out',
    fst (styleFunction Sample.env
           (Sample.closure_of [label_layer "first" [VStr []; VStr (str "x")];
                               label_layer "second" [VStr (str ",x")]])
           ulm 1 Sample.empty_state) = Ok out /\
    fst (styleFunction Sample.env
           (Sample.closure_of [label_layer "first" [VStr []; VStr (str "x")];
                               label_layer "second" [VStr (str ",x")]])
           ulm 1
           (snd (styleFunction Sample.env
                   (Sample.closure_of
                      [label_layer "first" [VStr []; VStr (str "x")];
                       label_layer "second" [VStr (str ",x")]])
                   ulm 1 Sample.empty_state))) = Ok out' /\
    looks out' <> looks out.
Proof.
  eexists _, _. split; [vm_compute; reflexivity|].
  split; [vm_compute; reflexivity|]. vm_compute. intros H. discriminate H.
Qed.

(** X20. Two calls in a row. When the style function returns for a
    feature and a resolution, a second call with the same feature and
    resolution, from the state that the first call left, returns too, and
    the two results look the same: both are [undefined], or arrays of the
    same length whose styles agree, entry by entry, on the colour of the
    fill, the colour and width of the stroke, the string, font, fill
    colour and halo of the text, and the z-index. This holds for a style
    whose cache keys tell the cached values apart: [range] has the values
    that [text-font], [text-size] and [text-max-width] take on the layers
    of the feature, font lists of [range] with the same key have the same
    first font, labels of [range] with the same key wrap to the same
    text, and the caches of the first call hold nothing else under these
    keys. (Without this the second call can draw a label in another font,
    as [font_key_collision] shows.) *)
Theorem styleFunction_twice env closure feature resolution range s out s' :
  let zoom := resolve_zoom env closure resolution in
  let layers :=
    default []
      (layersBySourceLayer closure
         !! ToString env (default VUndefined
                            (properties feature !! str "layer"))) in
  evaluates env layers feature zoom range ->
  font_lists range -> font_keys env range -> text_keys env range ->
  correct env layers feature zoom range s ->
  styleFunction env closure feature resolution s = (Ok out, s') ->
  exists out' s'',
    styleFunction env closure feature resolution s' = (Ok out', s'') /\
    looks out' = looks out.
Proof.
  intros zoom layers Hused Hlists Hfonts Htexts Hs. subst zoom layers.
  unfold styleFunction. cbv zeta.
  destruct (layersBySourceLayer closure !! _) as [layers|];
    cbn [default from_option id] in *.
  - intros Hrun. apply bind_ok in Hrun as (n & s0 & Hloop & Hrest).
    destruct (rel_style_loop env layers feature
                (resolve_zoom env closure resolution) range
                Hused Hlists Hfonts Htexts closure resolution layers 0
                (fun _ H => H) s n s0 Hloop Hs)
      as [(Hext & Hs0 & _) Hsecond].
    assert (Hnext : exists t',
      style_loop env closure feature (resolve_zoom env closure resolution)
        resolution layers 0 s' = (Ok n, t') /\ agree n s0 t').
    { destruct (Hsecond s') as (n' & t' & Hrun' & _ & _ & <- & Hagree).
      - destruct (0 <? n)%nat; injection Hrest as _ <-;
          [by split | apply extends_refl].
      - destruct (0 <? n)%nat; injection Hrest as _ <-; exact Hs0.
      - intros i Hi. lia.
      - by exists t'. }
    destruct Hnext as (t' & Hrun' & Hagree).
    rewrite (bind_run _ _ _ _ _ Hrun').
    destruct (0 <? n)%nat.
    + injection Hrest as <- _. eexists _, _. split; [reflexivity|].
      cbn [looks fmap option_fmap option_map styles set_styles].
      f_equal. symmetry. by apply agree_looks.
    + injection Hrest as <- _. by eexists _, _.
  - intros [= <- <-]. by eexists _, _.
Qed.

Lemma styleFunction_twice_witness :
  exists out' s'',
    styleFunction Sample.env (Sample.closure_of [label_layer "names" label_fonts])
      ulm 1
      (snd (styleFunction Sample.env
              (Sample.closure_of [label_layer "names" label_fonts]) ulm 1
              Sample.empty_state))
    = (Ok out', s'') /\
    looks out'
    = looks (match fst (styleFunction Sample.env
                          (Sample.closure_of [label_layer "names" label_fonts])
                          ulm 1 Sample.empty_state) with
             | Ok out => out
             | _ => None
             end).
Proof.
  apply (styleFunction_twice Sample.env
           (Sample.closure_of [label_layer "names" label_fonts]) ulm 1
           label_range Sample.empty_state).
  - intros layerData bg property e Hin Htracked Hcompile.
    vm_compute in Hin. destruct Hin as [<- | []].
    destruct Htracked as [<- | [<- | [<- | []]]]; destruct bg;
      vm_compute in Hcompile; try discriminate;
      injection Hcompile as <-; unfold label_range; cbv beta; tauto.
  - intros v [[_ ->] | [[H _] | [H _]]]; [by eexists | discriminate ..].
  - intros l l' [[_ H] | [[H _] | [H _]]] [[_ H'] | [[H' _] | [H' _]]];
      try discriminate. congruence.
  - intros em l size text em' l' size' text' (Hem & Hl & Hsize)
      (Hem' & Hl' & Hsize') Hkey.
    destruct Hem as [[H _] | [[H _] | [_ H]]]; try discriminate.
    destruct Hem' as [[H' _] | [[H' _] | [_ H']]]; try discriminate.
    destruct Hl as [[_ Hl] | [[Hl _] | [Hl _]]]; try discriminate.
    destruct Hl' as [[_ Hl'] | [[Hl' _] | [Hl' _]]]; try discriminate.
    destruct Hsize as [[Hs _] | [[_ Hs] | [Hs _]]]; try discriminate.
    destruct Hsize' as [[Hs' _] | [[_ Hs'] | [Hs' _]]]; try discriminate.
    injection H as ->. injection H' as ->. injection Hl as ->.
    injection Hl' as ->. subst size size'.
    unfold wrap_key in Hkey. do 4 apply app_inv_head in Hkey. by subst text'.
  - split; [|split].
    + intros layerData property e _ _ Hcached. vm_compute in Hcached.
      discriminate.
    + intros l font _ Hfont. vm_compute in Hfont. discriminate.
    + intros em l size text w _ Hw. vm_compute in Hw. discriminate.
  - vm_compute. reflexivity.
Defined.

(** ** The cache of wrapped texts *)

(** X23. [measureCache] is keyed by the string that the width in em, the
    font and the text are joined to with commas: a wrapped text that is
    not empty is returned by every later call whose width, font and text
    join to the same string, whatever they are, and the state stays as it
    is. *)
Theorem wrapText_cached env text font em s wrappedText s' :
  wrapText env text font em s = (Ok wrappedText, s') ->
  wrappedText <> [] ->
  forall text' font' em',
    ToString env (VNum em') ++ str "," ++ font' ++ str "," ++ text'
    = ToString env (VNum em) ++ str "," ++ font ++ str "," ++ text ->
    wrapText env text' font' em' s' = (Ok wrappedText, s').
Proof.
  unfold wrapText, bind, get_state, modify, ret. cbv beta zeta iota.
  intros Hrun Hfull text' font' em' ->.
  destruct (negb (jsstring_eqb (default [] (measureCache s !! _)) []))
    eqn:Hcached.
  - injection Hrun as <- <-. by rewrite Hcached.
  - injection Hrun as <- <-. cbn [measureCache set_measureCache].
    rewrite lookup_insert_eq. cbn [default from_option id].
    rewrite (proj2 (negb_true_iff _)); [reflexivity|].
    apply bool_decide_eq_false_2. exact Hfull.
Qed.

Lemma wrapText_cached_witness :
  wrapText Sample.env (str "Side") (str "serif,Upper") 5
    (snd (wrapText Sample.env (str "Upper,Side") (str "serif") 5
            Sample.empty_state))
  = (Ok (str "Upper,Side"),
     snd (wrapText Sample.env (str "Upper,Side") (str "serif") 5
            Sample.empty_state)).
Proof.
  apply (wrapText_cached Sample.env (str "Upper,Side") (str "serif") 5
           Sample.empty_state).
  - reflexivity.
  - discriminate.
  - reflexivity.
Defined.

(** ** The source of the style function *)

Lemma group_layers_source_set env source rest i g s name :
  mapboxSource g = Some name -> name <> "" ->
  mapboxSource (fst (group_layers env source rest i g s)) = Some name.
Proof.
  revert i g s. induction rest as [|first rest IH]; intros i g s Hg Hname;
    cbn [group_layers fst]; [exact Hg|].
  apply IH; [|exact Hname].
  destruct (selected source first); [|exact Hg].
  cbn [mapboxSource]. rewrite Hg.
  destruct (String.eqb_spec name ""); [contradiction | reflexivity].
Qed.

Lemma group_layers_source_first env source rest i g s first others name :
  mapboxSource g = None ->
  List.filter (selected source) rest = first :: others ->
  layer_source first = Some name -> name <> "" ->
  mapboxSource (fst (group_layers env source rest i g s)) = Some name.
Proof.
  revert i g s. induction rest as [|head rest IH]; intros i g s Hg Hsel Hsrc
    Hname; [discriminate|].
  cbn [group_layers fst]. cbn [List.filter] in Hsel.
  destruct (selected source head).
  - injection Hsel as -> _.
    apply group_layers_source_set; [|exact Hname].
    cbn [mapboxSource]. by rewrite Hg.
  - by apply IH.
Qed.

(** X24. The property [mapbox-source] of the OpenLayers layer is the
    source of the first selected layer of the document, when this layer
    names a source. *)
Theorem stylefunction_source env olLayer glStyle source resolutions spriteData
    spriteImage fuel s closure s' olLayer' doc first others name :
  document env glStyle = Some doc ->
  stylefunction env olLayer glStyle source resolutions spriteData spriteImage
    fuel s = (Ok closure, s', olLayer') ->
  List.filter (selected source) (derefLayers env (layers doc))
  = first :: others ->
  layer_source first = Some name -> name <> "" ->
  ol_mapbox_source olLayer' = Some (Some name).
Proof.
  intros Hdoc. unfold stylefunction. fold (document env glStyle).
  rewrite Hdoc. destruct (loose_neq env (version doc) 8); [discriminate|].
  intros Hrun Hsel Hsrc Hname.
  pose proof (group_layers_source_first env source
                (derefLayers env (layers doc)) 0
                {| bySourceLayer := ∅; mapboxLayers := [];
                   mapboxSource := None |} s first others name
                eq_refl Hsel Hsrc Hname) as Hsource.
  destruct (group_layers _ _ _ _ _ _) as [g s1]. cbn [fst] in Hsource.
  injection Hrun as _ _ <-. cbn [ol_mapbox_source]. by rewrite Hsource.
Qed.

Lemma stylefunction_source_witness :
  ol_mapbox_source
    (snd (stylefunction Sample.env Sample.empty_layer
            (StyleObject {| version := VNum 8;
                            layers := [Sample.water; Sample.road] |})
            (SourceName "osm") None None false 8 Sample.empty_state))
  = Some (Some "osm").
Proof.
  apply (stylefunction_source Sample.env Sample.empty_layer
           (StyleObject {| version := VNum 8;
                           layers := [Sample.water; Sample.road] |})
           (SourceName "osm") None None false 8 Sample.empty_state
           (Sample.closure_of [Sample.water; Sample.road])
           (snd (fst (stylefunction Sample.env Sample.empty_layer
                        (StyleObject {| version := VNum 8;
                                        layers := [Sample.water; Sample.road] |})
                        (SourceName "osm") None None false 8
                        Sample.empty_state)))
           (snd (stylefunction Sample.env Sample.empty_layer
                   (StyleObject {| version := VNum 8;
                                   layers := [Sample.water; Sample.road] |})
                   (SourceName "osm") None None false 8 Sample.empty_state))
           {| version := VNum 8; layers := [Sample.water; Sample.road] |}
           Sample.water [Sample.road] "osm").
  - reflexivity.
  - vm_compute. reflexivity.
  - vm_compute. reflexivity.
  - reflexivity.
  - discriminate.
Defined.

(** ** A template that never ends *)

(** X25. A property whose value prints as the placeholder of its own
    name keeps the loop of [fromTemplate] turning: every turn puts the
    placeholder back, so no amount of fuel gives a result, and the loop
    of the source does not end. *)
Theorem fromTemplate_never_ends env properties name value :
  123%N ∉ name ->
  Forall (fun c => is_line_terminator c = false) name ->
  properties !! name = Some value ->
  truthy value = true ->
  ToString env value = 123%N :: name ++ [125%N] ->
  forall n, fromTemplate env n (123%N :: name ++ [125%N]) properties = None.
Proof.
  intros Hname Hline Hvalue Htruthy Hprint n.
  induction n as [|n IH]; [reflexivity|]. cbn [fromTemplate].
  assert (Hmatch : match_template (123%N :: name ++ [125%N])
                   = Some ([], name, [])).
  { apply (match_template_last [] name []); try done;
      by apply not_elem_of_nil. }
  rewrite Hmatch. cbv zeta. rewrite Hvalue. cbn [default from_option id].
  rewrite Htruthy, Hprint. cbn [app]. rewrite app_nil_r. exact IH.
Qed.

Lemma fromTemplate_never_ends_witness :
  fromTemplate Sample.env 1000 (123%N :: str "ref" ++ [125%N])
    {[ str "ref" := VStr (str "{ref}") ]} = None.
Proof.
  apply (fromTemplate_never_ends Sample.env
           {[ str "ref" := VStr (str "{ref}") ]} (str "ref")
           (VStr (str "{ref}"))).
  - apply (proj1 (bool_decide_eq_false _)). vm_compute. reflexivity.
  - repeat constructor.
  - apply lookup_singleton_eq.
  - reflexivity.
  - reflexivity.
Defined.
